(** * OpenCompiler build orchestration: a shallow embedding

    The development follows the JavaScript sources of the service:
    - [buildManager.js]   ([createProjectFromFiles], artifact scan),
    - [smartBuild.js]     (the orchestrator loop, [applySafeFixes],
                           [validateRsFixSafety], the post-build checks),
    - [ai.js]             ([verifyAndFixStructure], [applyFixes]),
    - [docker.js]         ([executeAnchorBuild] and its container config),
    - [config.js]         (resource limits),
    - [routes/agentApi.js] (per-agent build lock, keypair delivery, the
                           file routes, the error report),
    - [server.js]         (the claim page, the download of artifacts),
    - [agentAuth.js]      (the registry of agents).

    JavaScript strings are sequences of UTF-16 code units; they are modelled
    as [list N].  Node's [path] module (POSIX flavour) is modelled from its
    reference algorithm, because the sources rely on it for every path they
    build. *)

From Stdlib Require Import ZArith NArith Lia Bool Ascii String List.
From stdpp Require Import base option list gmap strings.

Set Default Proof Using "Type".

(** ** JavaScript strings *)

Module JsString.

(** A string literal of the source, as code units. *)
Definition js (s : string) : list N :=
  N_of_ascii <$> list_ascii_of_string s.

Definition SLASH : N := 47.
Definition DOT : N := 46.
Definition BACKSLASH : N := 92.
Definition NUL : N := 0.
Definition NEWLINE : N := 10.

(** [s.startsWith(p)] *)
Fixpoint startsWith (s p : list N) : bool :=
  match p, s with
  | [], _ => true
  | c :: p', d :: s' => (c =? d)%N && startsWith s' p'
  | _ :: _, [] => false
  end.

(** [s.endsWith(p)] *)
Definition endsWith (s p : list N) : bool :=
  startsWith (rev s) (rev p).

(** [s.includes(p)] *)
Fixpoint includes (s p : list N) : bool :=
  startsWith s p ||
  match s with
  | [] => false
  | _ :: s' => includes s' p
  end.

(** [s.split(sep)] for a one-unit separator: never empty. *)
Fixpoint split_on (sep : N) (s : list N) : list (list N) :=
  match s with
  | [] => [[]]
  | c :: s' =>
      if (c =? sep)%N then [] :: split_on sep s'
      else match split_on sep s' with
           | seg :: segs => (c :: seg) :: segs
           | [] => [[c]]
           end
  end.

(** [segs.join(sep)] *)
Fixpoint join_with (sep : N) (segs : list (list N)) : list N :=
  match segs with
  | [] => []
  | [seg] => seg
  | seg :: rest => seg ++ sep :: join_with sep rest
  end.

(** [segs.join(sep)] for any separator *)
Fixpoint join_sep (sep : list N) (segs : list (list N)) : list N :=
  match segs with
  | [] => []
  | [seg] => seg
  | seg :: rest => seg ++ sep ++ join_sep sep rest
  end.

(** [s.split('\n').length] *)
Definition lineCount (s : list N) : nat := length (split_on NEWLINE s).

End JsString.
Import JsString.

(** ** Node's POSIX [path] module *)

Module Path.

Definition DOTDOT : list N := [DOT; DOT].

Definition isAbsolute (p : list N) : bool :=
  match p with
  | c :: _ => (c =? SLASH)%N
  | [] => false
  end.

Definition trailingSeparator (p : list N) : bool :=
  match last p with
  | Some c => (c =? SLASH)%N
  | None => false
  end.

(** [normalizeString]: the segments are pushed on a stack (most recent
    first); empty and [.] segments are dropped, [..] pops a real segment,
    and is kept only when nothing can be popped and the path is relative. *)
Fixpoint normStack (allowAboveRoot : bool) (stack segs : list (list N))
  : list (list N) :=
  match segs with
  | [] => stack
  | seg :: rest =>
      if decide (seg = [] ∨ seg = [DOT]) then
        normStack allowAboveRoot stack rest
      else if decide (seg = DOTDOT) then
        match stack with
        | top :: stack' =>
            if decide (top = DOTDOT) then
              normStack allowAboveRoot
                (if allowAboveRoot then DOTDOT :: stack else stack) rest
            else normStack allowAboveRoot stack' rest
        | [] =>
            normStack allowAboveRoot
              (if allowAboveRoot then [DOTDOT] else []) rest
        end
      else normStack allowAboveRoot (seg :: stack) rest
  end.

Definition normSegments (p : list N) : list (list N) :=
  rev (normStack (negb (isAbsolute p)) [] (split_on SLASH p)).

(** [path.normalize(p)] *)
Definition normalize (p : list N) : list N :=
  match p with
  | [] => [DOT]
  | _ :: _ =>
      match normSegments p with
      | [] =>
          if isAbsolute p then [SLASH]
          else if trailingSeparator p then [DOT; SLASH] else [DOT]
      | segs =>
          let body := join_with SLASH segs in
          let body := if trailingSeparator p then body ++ [SLASH] else body in
          if isAbsolute p then SLASH :: body else body
      end
  end.

Fixpoint nonEmptyArgs (args : list (list N)) : list (list N) :=
  match args with
  | [] => []
  | [] :: rest => nonEmptyArgs rest
  | a :: rest => a :: nonEmptyArgs rest
  end.

(** [path.join(...args)] *)
Definition join (args : list (list N)) : list N :=
  match nonEmptyArgs args with
  | [] => [DOT]
  | parts => normalize (join_with SLASH parts)
  end.

(** [path.dirname(p)]: scanning from the end down to index 1. *)
Fixpoint dirnameScan (matchedSlash : bool) (r : list N) : option (list N) :=
  match r with
  | [] => None
  | c :: r' =>
      if (c =? SLASH)%N then
        if matchedSlash then dirnameScan true r' else Some r'
      else dirnameScan false r'
  end.

Definition dirname (p : list N) : list N :=
  match p with
  | [] => [DOT]
  | c :: t =>
      match dirnameScan true (rev t) with
      | None => if (c =? SLASH)%N then [SLASH] else [DOT]
      | Some r' =>
          match r' with
          | [] => if (c =? SLASH)%N then [SLASH; SLASH] else [c]
          | _ => c :: rev r'
          end
      end
  end.

(** The last component of a path, trailing separators ignored. *)
Fixpoint dropSlashes (r : list N) : list N :=
  match r with
  | c :: r' => if (c =? SLASH)%N then dropSlashes r' else r
  | [] => []
  end.

Fixpoint takeComponent (r : list N) : list N :=
  match r with
  | c :: r' => if (c =? SLASH)%N then [] else c :: takeComponent r'
  | [] => []
  end.

Definition lastComponent (p : list N) : list N :=
  rev (takeComponent (dropSlashes (rev p))).

(** Splitting a reversed component at its last dot:
    [(what follows the dot, what precedes it)], both reversed. *)
Fixpoint splitLastDot (r : list N) : option (list N * list N) :=
  match r with
  | [] => None
  | c :: r' =>
      if (c =? DOT)%N then Some ([], r')
      else match splitLastDot r' with
           | Some (after, before) => Some (c :: after, before)
           | None => None
           end
  end.

(** [path.extname(p)]: from the last dot of the last component to its
    end; empty when there is no dot, when the dot is the first character,
    or when the component is exactly [..]. *)
Definition extname (p : list N) : list N :=
  let comp := lastComponent p in
  match splitLastDot (rev comp) with
  | None => []
  | Some (after, before) =>
      match before with
      | [] => []
      | _ =>
          if decide (comp = DOTDOT) then []
          else DOT :: rev after
      end
  end.

End Path.

(** ** The file system as the sources use it ([fs.promises])

  Every call either resolves or rejects; a rejected call may still have
  changed the disk, so each operation returns the new state together with
  its outcome.  The theorems below hold for any implementation of this
  interface; [MemFS] is the in-memory instance used to run examples. *)

Class FileSystem (S : Type) := {
  (** [fs.access(p)] resolves *)
  fs_access : S → list N → bool;
  (** [fs.readFile(p, 'utf-8')]; [None] when it rejects *)
  fs_readFile : S → list N → option (list N);
  (** [fs.mkdir(p, { recursive: true })] *)
  fs_mkdir : S → list N → S * bool;
  (** [fs.writeFile(p, content, 'utf-8')] *)
  fs_writeFile : S → list N → list N → S * bool;
  (** [fs.unlink(p)] *)
  fs_unlink : S → list N → S * bool;
}.

(** A flat in-memory disk: full path to content, directories implicit. *)
#[export] Instance MemFS : FileSystem (gmap (list N) (list N)) := {
  fs_access m p := bool_decide (is_Some (m !! p));
  fs_readFile m p := m !! p;
  fs_mkdir m _ := (m, true);
  fs_writeFile m p c := (<[p := c]> m, true);
  fs_unlink m p := (delete p m, bool_decide (is_Some (m !! p)));
}.

(** ** [createProjectFromFiles] (buildManager.js) *)

Module BuildManager.
Import Path.

(** [s.replace(/^(\.\.(\/|\\|$))+/, '')]: the longest run of leading
    [../] and [..\] groups, and a final [..] that ends the string. *)
Fixpoint stripLeadingParents (s : list N) : list N :=
  match s with
  | a :: b :: c :: rest =>
      if ((a =? DOT) && (b =? DOT) && ((c =? SLASH) || (c =? BACKSLASH)))%N
      then stripLeadingParents rest
      else s
  | [a; b] => if ((a =? DOT) && (b =? DOT))%N then [] else s
  | _ => s
  end.

Definition safePathOf (filePath : list N) : list N :=
  stripLeadingParents (normalize filePath).

(** Lines 470-474: the sanitised location of one entry, or the
    [Invalid file path] exception. *)
Definition sanitize (projectDir filePath : list N) : option (list N) :=
  let safePath := safePathOf filePath in
  if startsWith safePath [SLASH] || includes safePath [NUL] then None
  else Some (join [projectDir; safePath]).

Inductive Thrown :=
| InvalidFilePath (filePath : list N)
| IoError (fullPath : list N).

(** The result of the write loop: the disk, the locations handed to
    [fs.writeFile] that were written (in order), and the exception that
    stopped the loop, if any. *)
Record WriteResult (S : Type) := mkWriteResult {
  wr_fs : S;
  wr_written : list (list N);
  wr_thrown : option Thrown;
}.
Arguments mkWriteResult {S}.
Arguments wr_fs {S}.
Arguments wr_written {S}.
Arguments wr_thrown {S}.

Section WithFS.
Context {S : Type} `{FileSystem S}.

(** Lines 469-477. *)
Fixpoint writeEntries (projectDir : list N) (entries : list (list N * list N))
  (fs : S) (written : list (list N)) : WriteResult S :=
  match entries with
  | [] => mkWriteResult fs written None
  | (filePath, content) :: rest =>
      match sanitize projectDir filePath with
      | None => mkWriteResult fs written (Some (InvalidFilePath filePath))
      | Some fullPath =>
          let '(fs1, ok1) := fs_mkdir fs (dirname fullPath) in
          if ok1 then
            let '(fs2, ok2) := fs_writeFile fs1 fullPath content in
            if ok2 then writeEntries projectDir rest fs2 (written ++ [fullPath])
            else mkWriteResult fs2 written (Some (IoError fullPath))
          else mkWriteResult fs1 written (Some (IoError fullPath))
      end
  end.

(** [createProjectFromFiles]: the two directories are created first
    (lines 465-466), then the entries are written.  The [chmod] of the
    output directory (line 467) runs before any entry is looked at and
    touches no file of the project; it is left out. *)
Definition createProjectFromFiles (projectDir outputDir : list N)
  (files : list (list N * list N)) (fs : S) : WriteResult S :=
  let '(fs1, ok1) := fs_mkdir fs projectDir in
  if ok1 then
    let '(fs2, ok2) := fs_mkdir fs1 outputDir in
    if ok2 then writeEntries projectDir files fs2 []
    else mkWriteResult fs2 [] (Some (IoError outputDir))
  else mkWriteResult fs1 [] (Some (IoError projectDir)).

End WithFS.

(** Path segments that matter for resolution. *)
Definition segments (p : list N) : list (list N) :=
  List.filter (λ seg, negb (bool_decide (seg = []))) (split_on SLASH p).

(** [full] lies in the directory [dir]: resolving it walks through the
    normalised [dir] and then only downwards. *)
Definition insideDir (dir full : list N) : Prop :=
  isAbsolute full = isAbsolute dir ∧
  ∃ rest, segments full = normSegments dir ++ rest ∧ DOTDOT ∉ rest.

End BuildManager.


(** ** Regular expressions of the sources

    The regex literals of the sources are written as terms of [regex] and
    run by a backtracking matcher with the priorities of ECMAScript:
    greedy quantifiers first try one more repetition, lazy ones first try
    to stop, alternatives are tried left to right. *)

Module Regex.

Inductive regex :=
| Eps
| Chr (c : N)                  (* one code unit *)
| Cls (f : N → bool)           (* a character class *)
| Seq (r1 r2 : regex)
| Alt (r1 r2 : regex)
| Opt (r : regex)              (* [(?:r)?] *)
| Star (r : regex)             (* [r*] *)
| LazyStar (r : regex)         (* [r*?] *)
| Bol.                         (* [^] under the [m] flag *)

Definition Plus (r : regex) : regex := Seq r (Star r).

Definition inRange (lo hi c : N) : bool := ((lo <=? c) && (c <=? hi))%N.

(** [\d] *)
Definition digit (c : N) : bool := inRange 48 57 c.

(** [\w] *)
Definition word (c : N) : bool :=
  inRange 97 122 c || inRange 65 90 c || inRange 48 57 c || (c =? 95)%N.

(** Line terminators: LF, CR, LS, PS. *)
Definition lineTerminator (c : N) : bool :=
  ((c =? 10) || (c =? 13) || (c =? 8232) || (c =? 8233))%N.

(** [\s]: white space and line terminators. *)
Definition space (c : N) : bool :=
  ((c =? 9) || (c =? 11) || (c =? 12) || (c =? 32) || (c =? 160)
   || (c =? 5760) || inRange 8192 8202 c || (c =? 8239) || (c =? 8287)
   || (c =? 12288) || (c =? 65279))%N
  || lineTerminator c.

(** [.] *)
Definition anyChar (c : N) : bool := negb (lineTerminator c).

(** [[\s\S]] *)
Definition anything (c : N) : bool := true.

(** One ASCII letter under the [i] flag. *)
Definition upper (c : N) : N := if inRange 97 122 c then (c - 32)%N else c.
Definition ChrI (c : N) : regex := Cls (λ d, (upper d =? upper c)%N).

Fixpoint seqOf (rs : list regex) : regex :=
  match rs with
  | [] => Eps
  | [r] => r
  | r :: rest => Seq r (seqOf rest)
  end.

(** A literal run of characters, and the same under the [i] flag. *)
Definition Lit (s : string) : regex := seqOf (Chr <$> js s).
Definition LitI (s : string) : regex := seqOf (ChrI <$> js s).

(** The matcher: [prev] is the unit before the current position, the
    continuation receives the position reached. *)
Definition position : Type := option N * list N.

Fixpoint rx (r : regex) (prev : option N) (s : list N)
  (k : option N → list N → option position) : option position :=
  match r with
  | Eps => k prev s
  | Chr c =>
      match s with
      | d :: s' => if (c =? d)%N then k (Some d) s' else None
      | [] => None
      end
  | Cls f =>
      match s with
      | d :: s' => if f d then k (Some d) s' else None
      | [] => None
      end
  | Seq r1 r2 => rx r1 prev s (λ p' s', rx r2 p' s' k)
  | Alt r1 r2 =>
      match rx r1 prev s k with
      | Some x => Some x
      | None => rx r2 prev s k
      end
  | Opt r1 =>
      match rx r1 prev s k with
      | Some x => Some x
      | None => k prev s
      end
  | Star r1 =>
      (fix star (n : nat) (prev : option N) (s : list N) : option position :=
         match n with
         | 0 => k prev s
         | S n' =>
             match rx r1 prev s
                     (λ p' s', if length s' <? length s then star n' p' s' else None) with
             | Some x => Some x
             | None => k prev s
             end
         end) (length s) prev s
  | LazyStar r1 =>
      (fix star (n : nat) (prev : option N) (s : list N) : option position :=
         match k prev s with
         | Some x => Some x
         | None =>
             match n with
             | 0 => None
             | S n' =>
                 rx r1 prev s
                   (λ p' s', if length s' <? length s then star n' p' s' else None)
             end
         end) (length s) prev s
  | Bol =>
      match prev with
      | None => k prev s
      | Some c => if lineTerminator c then k prev s else None
      end
  end.

(** A match starting exactly here. *)
Definition matchHere (r : regex) (prev : option N) (s : list N) : option position :=
  rx r prev s (λ p' s', Some (p', s')).

(** The leftmost match: where it starts and where it ends. *)
Fixpoint search (r : regex) (prev : option N) (s : list N)
  : option (list N * position) :=
  match matchHere r prev s with
  | Some e => Some (s, e)
  | None =>
      match s with
      | [] => None
      | c :: s' => search r (Some c) s'
      end
  end.

(** [re.test(s)] *)
Definition test (r : regex) (s : list N) : bool :=
  match search r None s with
  | Some _ => true
  | None => false
  end.

(** The number of matches of a [g] regex: [(s.match(re) || []).length].
    After an empty match the search resumes one unit further. *)
Fixpoint countFrom (fuel : nat) (r : regex) (prev : option N) (s : list N) : nat :=
  match fuel with
  | 0 => 0
  | S fuel' =>
      match search r prev s with
      | None => 0
      | Some (start, (p', rest)) =>
          if length rest <? length start then S (countFrom fuel' r p' rest)
          else match rest with
               | [] => 1
               | c :: rest' => S (countFrom fuel' r (Some c) rest')
               end
      end
  end.

Definition countMatches (r : regex) (s : list N) : nat :=
  countFrom (S (length s)) r None s.

End Regex.

(** ** The product [existingLines * 0.7] in IEEE-754 double precision

    Line counts are integers below [2^53], hence exact as doubles.  The
    literal [0.7] denotes the double [M07 / 2^53]; the product is the exact
    product rounded to 53 significant bits, ties to even.  Values are kept
    scaled by [2^53], so that everything stays in [Z]. *)

Module Double.
Local Open Scope Z_scope.

Definition M07 : Z := 6305039478318694.

(** Rounding a non-negative scaled value to 53 significant bits. *)
Definition round53 (n : Z) : Z :=
  let e := Z.log2 n - 52 in
  if e <=? 0 then n
  else
    let q := Z.shiftr n e in
    let r := n - Z.shiftl q e in
    let half := Z.shiftl 1 (e - 1) in
    let q' := if (half <? r) || ((r =? half) && Z.odd q) then q + 1 else q in
    Z.shiftl q' e.

(** [lines * 0.7], scaled by [2^53]. *)
Definition times07 (lines : nat) : Z := round53 (Z.of_nat lines * M07).

(** [x < v] for an integer [x] and a scaled double [v]. *)
Definition ltScaled (x : nat) (v : Z) : bool := Z.of_nat x * 2 ^ 53 <? v.

End Double.

(** ** Fix proposals and the regression guard (smartBuild.js) *)

Module Validator.
Import Path Regex.

(** A proposal of the Advisor.  A missing field reads as the empty string:
    both are falsy in the tests of the sources. *)
Record Fix := mkFix {
  fix_action : list N;
  fix_path : list N;
  fix_content : list N;
  fix_reason : list N;
}.

Definition withAction (fx : Fix) (action : list N) : Fix :=
  mkFix action (fix_path fx) (fix_content fx) (fix_reason fx).

(** [/(?:pub\s+)?(?:async\s+)?fn\s+\w+/g] *)
Definition reFn : regex :=
  seqOf [Opt (Seq (Lit "pub") (Plus (Cls space)));
         Opt (Seq (Lit "async") (Plus (Cls space)));
         Lit "fn"; Plus (Cls space); Plus (Cls word)].

(** [/(?:pub\s+)?struct\s+\w+/g] *)
Definition reStruct : regex :=
  seqOf [Opt (Seq (Lit "pub") (Plus (Cls space)));
         Lit "struct"; Plus (Cls space); Plus (Cls word)].

(** [/(?:pub\s+)?enum\s+\w+/g] *)
Definition reEnum : regex :=
  seqOf [Opt (Seq (Lit "pub") (Plus (Cls space)));
         Lit "enum"; Plus (Cls space); Plus (Cls word)].

(** [/impl\s+/g] *)
Definition reImpl : regex := Seq (Lit "impl") (Plus (Cls space)).

(** [countPattern(text, pattern)] *)
Definition countPattern (text : list N) (pattern : regex) : nat :=
  countMatches pattern text.

(** Why a replacement was found unsafe.  The message of the last case also
    prints a rounded percentage, which is left out. *)
Inductive SafetyReason :=
| FunctionsReduced (existing new : nat)
| StructsReduced (existing new : nat)
| EnumsReduced (existing new : nat)
| ImplsReduced (existing new : nat)
| CodeReduced (existingLines newLines : nat).

Record Validation := mkValidation {
  safe : bool;
  reason : option SafetyReason;
}.

Definition unsafe (r : SafetyReason) : Validation := mkValidation false (Some r).

(** The body of the [try] block of [validateRsFixSafety], lines 379-417. *)
Definition compareContents (existingContent newContent : list N) : Validation :=
  let existingFns := countPattern existingContent reFn in
  let newFns := countPattern newContent reFn in
  let existingStructs := countPattern existingContent reStruct in
  let newStructs := countPattern newContent reStruct in
  let existingEnums := countPattern existingContent reEnum in
  let newEnums := countPattern newContent reEnum in
  let existingImpls := countPattern existingContent reImpl in
  let newImpls := countPattern newContent reImpl in
  if newFns <? existingFns then unsafe (FunctionsReduced existingFns newFns)
  else if newStructs <? existingStructs then unsafe (StructsReduced existingStructs newStructs)
  else if newEnums <? existingEnums then unsafe (EnumsReduced existingEnums newEnums)
  else if newImpls <? existingImpls then unsafe (ImplsReduced existingImpls newImpls)
  else
    let existingLines := lineCount existingContent in
    let newLines := lineCount newContent in
    if (10 <? existingLines) && Double.ltScaled newLines (Double.times07 existingLines)
    then unsafe (CodeReduced existingLines newLines)
    else mkValidation true None.

(** Proposals rejected by [applySafeFixes], with the reason pushed. *)
Inductive Rejection :=
| MissingPathOrContent
| ConfigOnly (ext : list N)
| NewRsFile
| DeleteRsFile
| Unsafe (r : option SafetyReason)
| RsForbidden
| WriteFailed.

Definition isRsExt (ext : list N) : bool := bool_decide (ext = js ".rs").

Definition isConfigExt (ext : list N) : bool :=
  bool_decide (ext = js ".toml") || bool_decide (ext = js ".json")
  || bool_decide (ext = js ".lock").

(** The accumulators of the loop of [applySafeFixes], and the disk. *)
Record FixState (S : Type) := mkFixState {
  st_fs : S;
  applied : list Fix;
  rejected : list (Fix * Rejection);
}.
Arguments mkFixState {S}.
Arguments st_fs {S}.
Arguments applied {S}.
Arguments rejected {S}.

Section WithFS.
Context {S : Type} `{FileSystem S}.

(** [validateRsFixSafety]: a file that cannot be read passes. *)
Definition validateRsFixSafety (fs : S) (projectDir : list N) (fx : Fix) : Validation :=
  match fs_readFile fs (join [projectDir; fix_path fx]) with
  | Some existingContent => compareContents existingContent (fix_content fx)
  | None => mkValidation true None
  end.

Definition reject (st : FixState S) (fx : Fix) (r : Rejection) : FixState S :=
  mkFixState (st_fs st) (applied st) (rejected st ++ [(fx, r)]).

(** Lines 350-361: write the file, creating its directory. *)
Definition applyWrite (st : FixState S) (projectDir : list N) (fx : Fix) : FixState S :=
  let filePath := join [projectDir; fix_path fx] in
  let '(fs1, ok1) := fs_mkdir (st_fs st) (dirname filePath) in
  if ok1 then
    let '(fs2, ok2) := fs_writeFile fs1 filePath (fix_content fx) in
    if ok2 then mkFixState fs2 (applied st ++ [fx]) (rejected st)
    else mkFixState fs2 (applied st) (rejected st ++ [(fx, WriteFailed)])
  else mkFixState fs1 (applied st) (rejected st ++ [(fx, WriteFailed)]).

(** Lines 312-341 for a [.rs] proposal after the build has failed once:
    the proposal as it leaves the checks, or its rejection. *)
Definition checkRsFix (fs : S) (projectDir : list N) (fx : Fix) : Fix + Fix * Rejection :=
  let coerced :=
    if decide (fix_action fx = js "create") then
      if fs_access fs (join [projectDir; fix_path fx])
      then inl (withAction fx (js "update"))
      else inr (fx, NewRsFile)
    else inl fx in
  match coerced with
  | inr rej => inr rej
  | inl fix1 =>
      if decide (fix_action fix1 = js "delete") then inr (fix1, DeleteRsFile)
      else
        let validation := validateRsFixSafety fs projectDir fix1 in
        if safe validation then inl fix1
        else inr (fix1, Unsafe (reason validation))
  end.

(** One turn of the loop of [applySafeFixes], lines 292-362. *)
Definition applySafeFix (projectDir : list N) (iteration : nat)
  (st : FixState S) (fx : Fix) : FixState S :=
  if bool_decide (fix_path fx = []) || bool_decide (fix_content fx = []) then
    reject st fx MissingPathOrContent
  else
    let ext := extname (fix_path fx) in
    let isRsFile := isRsExt ext in
    let isConfigFile := isConfigExt ext in
    if (iteration =? 0) && negb isConfigFile then reject st fx (ConfigOnly ext)
    else
      match (if (0 <? iteration) && isRsFile
             then checkRsFix (st_fs st) projectDir fx else inl fx) with
      | inr (fix1, r) => reject st fix1 r
      | inl fix1 =>
          if (iteration =? 0) && isRsFile then reject st fix1 RsForbidden
          else applyWrite st projectDir fix1
      end.

Definition applySafeFixesFrom (projectDir : list N) (iteration : nat)
  (st : FixState S) (fixes : list Fix) : FixState S :=
  foldl (applySafeFix projectDir iteration) st fixes.

(** [applySafeFixes(buildId, projectDir, fixes, iteration)] *)
Definition applySafeFixes (fs : S) (projectDir : list N) (fixes : list Fix)
  (iteration : nat) : FixState S :=
  applySafeFixesFrom projectDir iteration (mkFixState fs [] []) fixes.

End WithFS.

End Validator.

(** ** Configuration (config.js) and the sandbox (docker.js) *)

Module Docker.

(** [config.docker] *)
Record DockerLimits := mkDockerLimits {
  memory : Z;
  memorySwap : Z;
  cpus : Z;
  networkDisabled : bool;
  readonlyRootfs : bool;
  autoRemove : bool;
}.

(** The literal of config.js, lines 17-24. *)
Definition config_docker : DockerLimits := {|
  memory := 2 * 1024 * 1024 * 1024;
  memorySwap := 2 * 1024 * 1024 * 1024;
  cpus := 2;
  networkDisabled := false;   (* Enable network for cargo dependencies *)
  readonlyRootfs := false;
  autoRemove := true;
|}.

Record HostConfig := mkHostConfig {
  Binds : list (list N);
  Memory : Z;
  MemorySwap : Z;
  NanoCpus : Z;
  NetworkMode : list N;
  AutoRemove : bool;
  ReadonlyRootfs : bool;
  SecurityOpt : list (list N);
  CapDrop : list (list N);
  CapAdd : list (list N);
}.

Record ContainerConfig := mkContainerConfig {
  Image : list N;
  WorkingDir : list N;
  Host : HostConfig;
  AttachStdout : bool;
  AttachStderr : bool;
  Tty : bool;
}.

(** [containerConfig] of [executeAnchorBuild], lines 75-151; the shell
    script of [Cmd] is a constant and is left out.  [hostOutputPath] is the
    source of the bind mount (line 136). *)
Definition containerConfig (limits : DockerLimits) (dockerImage hostOutputPath anchorSubdir : list N)
  : ContainerConfig := {|
  Image := dockerImage;
  WorkingDir :=
    if bool_decide (anchorSubdir = []) then js "/workspace"
    else js "/workspace/" ++ anchorSubdir;
  Host := {|
    Binds := [hostOutputPath ++ js ":/output:rw"];
    Memory := memory limits;
    MemorySwap := memorySwap limits;
    NanoCpus := cpus limits * 1000000000;
    NetworkMode := if networkDisabled limits then js "none" else js "default";
    AutoRemove := false;
    ReadonlyRootfs := readonlyRootfs limits;
    SecurityOpt := [js "no-new-privileges"];
    CapDrop := [js "ALL"];
    CapAdd := [js "CHOWN"; js "FOWNER"; js "DAC_OVERRIDE"];
  |};
  AttachStdout := true;
  AttachStderr := true;
  Tty := true;
|}.

Record Logs := mkLogs {
  stdout : list N;
  stderr : list N;
}.

(** What running the container leads to: it exits with a status code, or a
    step of the [try] block throws (creation, start, timeout). *)
Inductive ContainerOutcome :=
| Exited (statusCode : Z) (logs : Logs)
| Crashed (message : list N) (logs : Logs).

(** The value [executeAnchorBuild] resolves to. *)
Record BuildResult := mkBuildResult {
  success : bool;
  exitCode : option Z;
  logs : Logs;
  error : option (list N);
}.

(** [executeAnchorBuild]: the configuration is handed to the container
    runtime [run], which also leaves the output directory [D] behind; the
    value resolved is built at lines 271-279, or 295-302 after a throw. *)
Definition executeAnchorBuild {D : Type} (run : ContainerConfig → ContainerOutcome * D)
  (limits : DockerLimits) (dockerImage hostOutputPath anchorSubdir : list N)
  : BuildResult * D :=
  let '(outcome, out) :=
    run (containerConfig limits dockerImage hostOutputPath anchorSubdir) in
  match outcome with
  | Exited statusCode l =>
      (mkBuildResult (statusCode =? 0)%Z (Some statusCode) l None, out)
  | Crashed message l =>
      (mkBuildResult false None
         (mkLogs (stdout l) (stderr l ++ [NEWLINE; NEWLINE] ++ js "Fatal error: " ++ message))
         (Some message), out)
  end.

End Docker.

(** ** The output directory of a build

    [<outputDir>/target/deploy] as a finite map from file name to content;
    [None] when the directory does not exist. *)

Module Output.

Definition readdir (deployDir : option (gmap (list N) (list N))) : option (list (list N)) :=
  (λ dir : gmap (list N) (list N), (map_to_list dir).*1) <$> deployDir.

End Output.

(** ** Post-build checks (smartBuild.js) *)

Module PostCheck.
Import Regex Docker.

(** [/error\[E\d+\]/] *)
Definition reErrorCode : regex :=
  seqOf [Lit "error[E"; Plus (Cls digit); Lit "]"].

(** [/^error:.*aborting due to/m] *)
Definition reAborting : regex :=
  seqOf [Bol; Lit "error:"; Star (Cls anyChar); Lit "aborting due to"].

(** [/ERROR.*cargo.build/i] *)
Definition reCargoBuild : regex :=
  seqOf [LitI "ERROR"; Star (Cls anyChar); LitI "cargo"; Cls anyChar; LitI "build"].

(** [/Failed to obtain package metadata/] *)
Definition reMetadata : regex := Lit "Failed to obtain package metadata".

(** [/can't find library/] *)
Definition reNoLibrary : regex := Lit "can't find library".

Definition knownErrorPatterns : list regex :=
  [reErrorCode; reAborting; reCargoBuild; reMetadata; reNoLibrary].

(** [detectBuildErrorsInLogs(logs)] *)
Definition detectBuildErrorsInLogs (l : Logs) : bool :=
  let combined := stdout l ++ [NEWLINE] ++ stderr l in
  if test reErrorCode combined then true
  else if test reAborting combined then true
  else if test reCargoBuild combined then true
  else if test reMetadata combined then true
  else if test reNoLibrary combined then true
  else false.

(** [verifyBuildArtifacts(outputDir)] *)
Definition verifyBuildArtifacts (deployDir : option (gmap (list N) (list N))) : bool :=
  match Output.readdir deployDir with
  | Some files => existsb (λ f, endsWith f (js ".so")) files
  | None => false
  end.

(** Lines 162-174: the result of the run after the check. *)
Definition postCheck (r : BuildResult) (deployDir : option (gmap (list N) (list N)))
  : BuildResult :=
  if success r then
    let hasArtifacts := verifyBuildArtifacts deployDir in
    let hasErrorsInLogs := detectBuildErrorsInLogs (logs r) in
    if negb hasArtifacts || hasErrorsInLogs then
      mkBuildResult false (exitCode r) (logs r)
        (Some (if negb hasArtifacts
               then js "Build produced no .so artifacts " ++ [8212%N]
                    ++ js " compilation likely failed"
               else js "Build logs contain errors despite exit code 0"))
    else r
  else r.

End PostCheck.

(** ** The Advisor side (ai.js) *)

Module Ai.
Import Path Regex Validator.

(** The outcome of [applyFixes]: the batch stops at the first failing
    operation ([success = false]); [af_applied] lists what was applied0. *)
Record ApplyResult (S : Type) := mkApplyResult {
  af_fs : S;
  af_success : bool;
  af_applied : list Fix;
  af_skipped : list (list N);
}.
Arguments mkApplyResult {S}.
Arguments af_fs {S}.
Arguments af_success {S}.
Arguments af_applied {S}.
Arguments af_skipped {S}.

(** [/"cannotFix"\s*:\s*true/i] *)
Definition reCannotFix : regex :=
  seqOf [Chr 34; LitI "cannotFix"; Chr 34; Star (Cls space); Chr 58;
         Star (Cls space); LitI "true"].

(** The value [analyzeAndFixBuildFailure] resolves to. *)
Record FixResult := mkFixResult {
  fr_success : bool;
  fr_error : option (list N);
  fr_analysis : list N;
  fr_fixes : list Fix;
  fr_cannotFix : bool;
}.

(** [analyzeAndFixBuildFailure], lines 730-771: [reply] is the final text
    of the Advisor, or the error message once the retries are used up;
    [parseFixes] is [parseFixesFromAnalysis]. *)
Definition analyzeAndFixBuildFailure (parseFixes : list N → list Fix)
  (reply : list N + list N) : FixResult :=
  match reply with
  | inl analysis =>
      let fixes := parseFixes analysis in
      let cannotFix := test reCannotFix analysis in
      mkFixResult true None analysis (if cannotFix then [] else fixes) cannotFix
  | inr message => mkFixResult false (Some message) [] [] false
  end.

(** Step 8 of [verifyAndFixStructure], lines 314-322. *)
Definition dropRsFixes (fixes : list Fix) : list Fix :=
  List.filter
    (λ fx, negb (negb (bool_decide (fix_path fx = [])) && endsWith (fix_path fx) (js ".rs")))
    fixes.

Section WithFS.
Context {S : Type} `{FileSystem S}.

(** [applyFixes(buildId, projectDir, fixes, skipExisting)], lines 85-133. *)
Fixpoint applyFixesLoop (projectDir : list N) (skipExisting : bool) (fixes : list Fix)
  (fs : S) (applied0 : list Fix) (skipped : list (list N)) : ApplyResult S :=
  match fixes with
  | [] => mkApplyResult fs true applied0 skipped
  | fx :: rest =>
      if bool_decide (fix_action fx = js "create") || bool_decide (fix_action fx = js "update") then
        let filePath := join [projectDir; fix_path fx] in
        if skipExisting && bool_decide (fix_action fx = js "create") && fs_access fs filePath then
          applyFixesLoop projectDir skipExisting rest fs applied0 (skipped ++ [fix_path fx])
        else
          let '(fs1, ok1) := fs_mkdir fs (dirname filePath) in
          if ok1 then
            let '(fs2, ok2) := fs_writeFile fs1 filePath (fix_content fx) in
            if ok2 then applyFixesLoop projectDir skipExisting rest fs2 (applied0 ++ [fx]) skipped
            else mkApplyResult fs2 false applied0 skipped
          else mkApplyResult fs1 false applied0 skipped
      else if bool_decide (fix_action fx = js "delete") then
        let '(fs1, ok1) := fs_unlink fs (join [projectDir; fix_path fx]) in
        if ok1 then applyFixesLoop projectDir skipExisting rest fs1 (applied0 ++ [fx]) skipped
        else mkApplyResult fs1 false applied0 skipped
      else applyFixesLoop projectDir skipExisting rest fs applied0 skipped
  end.

Definition applyFixes (fs : S) (projectDir : list N) (fixes : list Fix) (skipExisting : bool)
  : ApplyResult S :=
  applyFixesLoop projectDir skipExisting fixes fs [] [].

(** The value [verifyAndFixStructure] resolves to, with the disk and the
    proposals [applyFixes] carried out. *)
Record VerifyResult := mkVerifyResult {
  vr_fs : S;
  vr_success : bool;
  vr_fixes : list Fix;
  vr_autoFixed : bool;
  vr_applied : list Fix;
}.

(** [verifyAndFixStructure], lines 264-358.  [reorganized] is the disk after
    [reorganizeProjectStructure]; [reply] is what the Advisor proposed
    ([parseFixesFromAnalysis] of its answer), or [None] when the call or an
    earlier step threw. *)
Definition verifyAndFixStructure (reorganized : S) (reply : option (list Fix))
  (projectDir : list N) : VerifyResult :=
  match reply with
  | None => mkVerifyResult reorganized false [] false []
  | Some proposed =>
      let fixes := dropRsFixes proposed in
      match fixes with
      | [] => mkVerifyResult reorganized true fixes false []
      | _ =>
          let r := applyFixes reorganized projectDir fixes true in
          mkVerifyResult (af_fs r) true fixes (af_success r) (af_applied r)
      end
  end.

End WithFS.
Arguments VerifyResult S : clear implicits.

End Ai.

(** ** The orchestrator (smartBuild.js) *)

Module SmartBuild.
Import Path Docker PostCheck Validator Ai.

Inductive PhaseName := Analyzing | Verifying | Fixing | Building.

Inductive PhaseOutcome := PhSuccess | PhFailed | PhFixed | PhNoFixes | PhCannotFix.

(** An entry of [phases] (time stamp and details left out). *)
Record PhaseRecord := mkPhase {
  phase : PhaseName;
  ph_iteration : nat;
  ph_result : PhaseOutcome;
}.

(** An entry of [aiAnalyses]. *)
Record AiAnalysis := mkAiAnalysis {
  ai_iteration : nat;
  ai_analysis : list N;
  ai_fixes : list Fix;
  ai_cannotFix : bool;
}.

(** An entry of [previousFixes]. *)
Record PreviousFix := mkPreviousFix {
  pf_files : list (list N);
  pf_summary : list N;
}.

(** The value [smartBuild] resolves to. *)
Record SmartBuildResult := mkSmartBuildResult {
  sb_success : bool;
  iterations : nat;
  phases : list PhaseRecord;
  aiAnalyses : list AiAnalysis;
  finalBuild : option BuildResult;
  cannotFix : bool;
  cannotFixReason : option (list N);
}.

(** The calls the orchestrator makes to its collaborators, in order. *)
Inductive Event :=
| EvAnalysis
| EvStructure
| EvAdvisor (iteration : nat) (r : FixResult)
| EvSandbox (iteration : nat)
| EvPause (iteration : nat).

(** The collaborators: the Advisor, the JSON reader, the container runtime
    and the directory walks.  Each is an arbitrary function of what the
    orchestrator hands to it. *)
Record Env (S : Type) := mkEnv {
  (** [deepCodeAnalysis] resolves *)
  env_analysisOk : S → bool;
  (** the project after [reorganizeProjectStructure] *)
  env_reorganize : S → S;
  (** the structure proposals of the Advisor, [None] when the call fails *)
  env_structureReply : S → option (list Fix);
  (** the answer of the Advisor to a failed build, or its error message *)
  env_advisorReply : nat → S → BuildResult → list PreviousFix → list N + list N;
  (** [parseFixesFromAnalysis] *)
  env_parseFixes : list N → list Fix;
  (** the truthy [analysis] field of the fenced JSON block of an answer *)
  env_analysisField : list N → option (list N);
  (** [analysis.replace(/```[\s\S]*?```/g, '').trim()] *)
  env_stripFences : list N → list N;
  (** [extractShortAnalysis] *)
  env_shortAnalysis : list N → list N;
  (** [findAnchorTomlSubdir] *)
  env_anchorSubdir : S → list N;
  (** one container run, and the deploy directory it leaves behind *)
  env_container :
    nat → S → ContainerConfig → ContainerOutcome * option (gmap (list N) (list N));
}.
Arguments env_analysisOk {S}.
Arguments env_reorganize {S}.
Arguments env_structureReply {S}.
Arguments env_advisorReply {S}.
Arguments env_parseFixes {S}.
Arguments env_analysisField {S}.
Arguments env_stripFences {S}.
Arguments env_shortAnalysis {S}.
Arguments env_anchorSubdir {S}.
Arguments env_container {S}.

(** The fixed parameters of one call. *)
Record Params := mkParams {
  MAX_ITERATIONS : nat;
  projectDir : list N;
  hostOutputPath : list N;
  dockerImage : list N;
  limits : DockerLimits;
}.

(** The variables of the loop, the disk and the calls made so far. *)
Record LoopState (S : Type) := mkLoopState {
  ls_fs : S;
  ls_deploy : option (gmap (list N) (list N));
  ls_phases : list PhaseRecord;
  ls_aiAnalyses : list AiAnalysis;
  ls_previousFixes : list PreviousFix;
  lastBuildResult : option BuildResult;
  ls_trace : list Event;
}.
Arguments mkLoopState {S}.
Arguments ls_fs {S}.
Arguments ls_deploy {S}.
Arguments ls_phases {S}.
Arguments ls_aiAnalyses {S}.
Arguments ls_previousFixes {S}.
Arguments lastBuildResult {S}.
Arguments ls_trace {S}.

(** How one turn of the loop ends. *)
Inductive Turn (S : Type) :=
| Return (r : SmartBuildResult) (st : LoopState S)
| Continue (st : LoopState S)
| Throw (st : LoopState S).
Arguments Return {S}.
Arguments Continue {S}.
Arguments Throw {S}.

(** How the phase before the build ends. *)
Inductive Prepared (S : Type) :=
| Proceed (st : LoopState S)
| Skip (st : LoopState S)
| Stop (r : SmartBuildResult) (st : LoopState S)
| Fail (st : LoopState S).
Arguments Proceed {S}.
Arguments Skip {S}.
Arguments Stop {S}.
Arguments Fail {S}.

Definition EXHAUSTED : list N :=
  js "Exhausted all retry attempts without successful compilation".

Definition CANNOT_FIX_DEFAULT : list N :=
  js "AI determined this issue cannot be fixed without simplifying the code".

Section WithEnv.
Context {S : Type} `{FileSystem S}.
Variable env : Env S.
Variable params : Params.

(** [extractCannotFixReason(analysis)] *)
Definition extractCannotFixReason (analysis : list N) : list N :=
  match env_analysisField env analysis with
  | Some a => a
  | None =>
      match take 200 (env_stripFences env analysis) with
      | [] => CANNOT_FIX_DEFAULT
      | clean => clean
      end
  end.

(** Line 116: the summary recorded for later turns. *)
Definition fixSummary (analysis : list N) (applied0 : list Fix) : list N :=
  match env_shortAnalysis env analysis with
  | [] => join_sep (js ", ") ((λ f, fix_action f ++ js " " ++ fix_path f) <$> applied0)
  | short => short
  end.

Definition pushPhase (st : LoopState S) (p : PhaseName) (iteration : nat)
  (r : PhaseOutcome) : LoopState S :=
  mkLoopState (ls_fs st) (ls_deploy st) (ls_phases st ++ [mkPhase p iteration r])
    (ls_aiAnalyses st) (ls_previousFixes st) (lastBuildResult st) (ls_trace st).

Definition pushAnalysis (st : LoopState S) (a : AiAnalysis) : LoopState S :=
  mkLoopState (ls_fs st) (ls_deploy st) (ls_phases st)
    (ls_aiAnalyses st ++ [a]) (ls_previousFixes st) (lastBuildResult st) (ls_trace st).

Definition pushEvent (st : LoopState S) (e : Event) : LoopState S :=
  mkLoopState (ls_fs st) (ls_deploy st) (ls_phases st)
    (ls_aiAnalyses st) (ls_previousFixes st) (lastBuildResult st) (ls_trace st ++ [e]).

Definition withFs (st : LoopState S) (fs : S) : LoopState S :=
  mkLoopState fs (ls_deploy st) (ls_phases st)
    (ls_aiAnalyses st) (ls_previousFixes st) (lastBuildResult st) (ls_trace st).

(** Lines 38-66: the first turn analyses the code and asks for the
    missing configuration files. *)
Definition structurePhase (st : LoopState S) : LoopState S :=
  let st := pushEvent st EvAnalysis in
  let st := pushPhase st Analyzing 0
              (if env_analysisOk env (ls_fs st) then PhSuccess else PhFailed) in
  let st := pushEvent st EvStructure in
  let fs1 := env_reorganize env (ls_fs st) in
  let v := verifyAndFixStructure fs1 (env_structureReply env fs1) (projectDir params) in
  pushPhase (withFs st (vr_fs v)) Verifying 0
    (if vr_success v then PhFixed else PhFailed).

(** Lines 67-123: later turns ask the Advisor to repair the last failure.
    The entry of [aiAnalyses] lists the proposals as the Advisor gave them;
    in the source it shares its objects with [applySafeFixes], so that a
    [create] coerced there reads [update] in the entry as well. *)
Definition fixPhase (iteration : nat) (st : LoopState S) : Prepared S :=
  match lastBuildResult st with
  | None => Fail st
  | Some last =>
      let fixResult :=
        analyzeAndFixBuildFailure (env_parseFixes env)
          (env_advisorReply env iteration (ls_fs st) last (ls_previousFixes st)) in
      let st := pushEvent st (EvAdvisor iteration fixResult) in
      if negb (fr_success fixResult) then
        Skip (pushPhase st Fixing iteration PhFailed)
      else if fr_cannotFix fixResult then
        let reason := extractCannotFixReason (fr_analysis fixResult) in
        let st := pushPhase st Fixing iteration PhCannotFix in
        let st := pushAnalysis st
                    (mkAiAnalysis iteration (fr_analysis fixResult) [] true) in
        Stop (mkSmartBuildResult false (iteration + 1) (ls_phases st) (ls_aiAnalyses st)
                (lastBuildResult st) true (Some reason)) st
      else
        match fr_fixes fixResult with
        | [] =>
            let st := pushPhase st Fixing iteration PhNoFixes in
            Proceed (pushAnalysis st
                       (mkAiAnalysis iteration (fr_analysis fixResult) [] false))
        | fixes =>
            let safeResult := applySafeFixes (ls_fs st) (projectDir params) fixes iteration in
            let st := pushPhase (withFs st (st_fs safeResult)) Fixing iteration PhFixed in
            let st := pushAnalysis st
                        (mkAiAnalysis iteration (fr_analysis fixResult) fixes false) in
            Proceed
              (mkLoopState (ls_fs st) (ls_deploy st) (ls_phases st) (ls_aiAnalyses st)
                 (ls_previousFixes st
                  ++ [mkPreviousFix (fix_path <$> applied safeResult)
                        (fixSummary (fr_analysis fixResult) (applied safeResult))])
                 (lastBuildResult st) (ls_trace st))
        end
  end.

(** Lines 125-198: run the sandbox, check its result, return or go on.
    The [fs.mkdir] of the output directory cannot fail the turn (its
    exception is swallowed at line 132); the directory is part of what the
    container run leaves behind. *)
Definition buildPhase (iteration : nat) (st : LoopState S) : Turn S :=
  let anchorSubdir := env_anchorSubdir env (ls_fs st) in
  let '(raw, deploy) :=
    executeAnchorBuild (env_container env iteration (ls_fs st))
      (limits params) (dockerImage params) (hostOutputPath params) anchorSubdir in
  let st := pushEvent st (EvSandbox iteration) in
  let st := pushPhase st Building iteration (if success raw then PhSuccess else PhFailed) in
  let checked := postCheck raw deploy in
  let st := mkLoopState (ls_fs st) deploy (ls_phases st) (ls_aiAnalyses st)
              (ls_previousFixes st) (Some checked) (ls_trace st) in
  if success checked then
    Return (mkSmartBuildResult true (iteration + 1) (ls_phases st) (ls_aiAnalyses st)
              (Some checked) false None) st
  else if iteration + 1 <? MAX_ITERATIONS params then Continue (pushEvent st (EvPause iteration))
  else Continue st.

(** The body of the [for] loop. *)
Definition turn (iteration : nat) (st : LoopState S) : Turn S :=
  match iteration with
  | 0 => buildPhase 0 (structurePhase st)
  | _ =>
      match fixPhase iteration st with
      | Proceed st' => buildPhase iteration st'
      | Skip st' => Continue st'
      | Stop r st' => Return r st'
      | Fail st' => Throw st'
      end
  end.

(** Lines 201-216: every turn has been used. *)
Definition exhausted (st : LoopState S) : SmartBuildResult :=
  mkSmartBuildResult false (MAX_ITERATIONS params) (ls_phases st) (ls_aiAnalyses st)
    (lastBuildResult st) true (Some EXHAUSTED).

(** The [for] loop from [iteration] on, with [remaining] turns left:
    [None] when the promise is rejected. *)
Fixpoint loop (remaining : nat) (iteration : nat) (st : LoopState S)
  : option SmartBuildResult * LoopState S :=
  match remaining with
  | 0 => (Some (exhausted st), st)
  | Datatypes.S remaining' =>
      match turn iteration st with
      | Return r st' => (Some r, st')
      | Continue st' => loop remaining' (iteration + 1) st'
      | Throw st' => (None, st')
      end
  end.

Definition initial (fs : S) (deploy : option (gmap (list N) (list N))) : LoopState S :=
  mkLoopState fs deploy [] [] [] None [].

(** [smartBuild(buildId, projectDir, outputDir, onProgress)] *)
Definition smartBuild (fs : S) (deploy : option (gmap (list N) (list N)))
  : option SmartBuildResult * LoopState S :=
  loop (MAX_ITERATIONS params) 0 (initial fs deploy).

End WithEnv.


End SmartBuild.

(** ** Keypair delivery (routes/agentApi.js) *)

Module AgentApi.
Import SmartBuild.

(** An entry of the [keypairs] field of a response. *)
Record Keypair := mkKeypair {
  kp_name : list N;
  kp_filename : list N;
  kp_pubkey : list N;
  kp_secret : list Z;
}.

(** [s.replace(pat, '')] for a string pattern: the first occurrence. *)
Fixpoint removeFirst (s pat : list N) : list N :=
  if startsWith s pat then drop (length pat) s
  else match s with
       | [] => []
       | c :: s' => c :: removeFirst s' pat
       end.

Definition KEYPAIR_SUFFIX : list N := js "-keypair.json".

(** What the caller of [POST /build] receives (the fields the claims are
    about), and the calls the handler makes once the build is over. *)
Record Response := mkResponse {
  resp_success : bool;
  resp_iterations : nat;
  resp_keypairs : option (list Keypair);
  resp_error : option (list N);
}.


Section WithParser.
(** Lines 149-150 and 154: [JSON.parse] of the file, then
    [Keypair.fromSecretKey]; the public key in base 58 and the parsed
    array, or [None] when either throws. *)
Variable parseKeypair : list N → option (list N * list Z).

(** The body of the loop of [extractKeypairs] for one directory entry. *)
Definition keypairOf (entry : list N * list N) : option Keypair :=
  let '(file, content) := entry in
  if endsWith file KEYPAIR_SUFFIX then
    match parseKeypair content with
    | Some (pubkey, raw) =>
        Some (mkKeypair (removeFirst file KEYPAIR_SUFFIX) file pubkey raw)
    | None => None
    end
  else None.

(** [extractKeypairs(outputDir)] *)
Definition extractKeypairs (deployDir : option (gmap (list N) (list N))) : list Keypair :=
  match deployDir with
  | Some dir => omap keypairOf (map_to_list dir)
  | None => []
  end.

(** [deleteKeypairFiles(outputDir, keypairs)]: a failed [unlink] is
    ignored. *)
Definition deleteKeypairFiles (deployDir : option (gmap (list N) (list N)))
  (keypairs : list Keypair) : option (gmap (list N) (list N)) :=
  (λ dir : gmap (list N) (list N),
     foldl (λ d kp, (fs_unlink d (kp_filename kp)).1) dir keypairs) <$> deployDir.


End WithParser.


End AgentApi.

(** ** One build at a time per agent (routes/agentApi.js)

    Node runs one handler at a time and switches only at an [await].  A
    request is therefore a small state machine whose transitions are the
    pieces of the handler between two awaits, and the server interleaves
    the transitions of its pending requests in any order. *)

Module Guard.

(** [getActiveAgentBuild], [setActiveAgentBuild], [clearActiveAgentBuild]:
    the map holds the build id and its start time. *)
Definition getActiveAgentBuild (m : gmap nat (nat * nat)) (agentId : nat) : option (nat * nat) :=
  m !! agentId.

Definition setActiveAgentBuild (m : gmap nat (nat * nat)) (agentId buildId now : nat)
  : gmap nat (nat * nat) :=
  <[agentId := (buildId, now)]> m.

Definition clearActiveAgentBuild (m : gmap nat (nat * nat)) (agentId : nat)
  : gmap nat (nat * nat) :=
  delete agentId m.

Inductive Route :=
| OneShot                      (* POST /build *)
| Existing (buildId : nat).    (* POST /project/:buildId/build *)

(** Where a request stands. *)
Inductive Pc :=
| Received                     (* not started *)
| Creating                     (* awaiting [createProjectFromFiles] or the clone *)
| Running (buildId : nat)      (* the build is in flight: awaiting [smartBuild]
                                  or [executeAnchorBuild] *)
| Responded (status : nat).

Record Request := mkRequest {
  agent : nat;
  route : Route;
  pc : Pc;
}.

Record Server := mkServer {
  activeAgentBuilds : gmap nat (nat * nat);
  requests : list Request;
}.

(** What the event loop does next: it resumes request [who]; [refused] is
    the status replied by the first check on the request that fails, if
    any (400, 404, or 409 for a project marked as running), [created] the
    build id the awaited creation resolves to ([None] when it throws),
    [now] the clock. *)
Record Resume := mkResume {
  who : nat;
  refused : option nat;
  created : option nat;
  now : nat;
}.

(** The piece of handler run when a request is resumed. *)
Definition resume (m : gmap nat (nat * nat)) (r : Request) (c : Resume)
  : gmap nat (nat * nat) * Pc :=
  match pc r, route r with
  | Received, OneShot =>
      (* lines 404-468: check, validate, start creating the project *)
      match getActiveAgentBuild m (agent r) with
      | Some _ => (m, Responded 409)
      | None =>
          match refused c with
          | None => (m, Creating)
          | Some status => (m, Responded status)
          end
      end
  | Creating, _ =>
      (* lines 471-480, or the [catch] of lines 577-582 *)
      match created c with
      | Some buildId => (setActiveAgentBuild m (agent r) buildId (now c), Running buildId)
      | None => (clearActiveAgentBuild m (agent r), Responded 500)
      end
  | Received, Existing buildId =>
      (* lines 598-634: check, look the project up, lock, start building *)
      match getActiveAgentBuild m (agent r) with
      | Some _ => (m, Responded 409)
      | None =>
          match refused c with
          | None => (setActiveAgentBuild m (agent r) buildId (now c), Running buildId)
          | Some status => (m, Responded status)
          end
      end
  | Running _, _ =>
      (* the build is over: the [finally] of lines 487-490 (641-643 on the
         other route) releases the lock, then the response is sent; a throw
         in between ends in the [catch], which releases it again *)
      (clearActiveAgentBuild m (agent r), Responded 200)
  | Responded _, _ => (m, pc r)
  end.

Definition step (s : Server) (c : Resume) : Server :=
  match requests s !! who c with
  | Some r =>
      let '(m, pc') := resume (activeAgentBuilds s) r c in
      mkServer m (<[who c := mkRequest (agent r) (route r) pc']> (requests s))
  | None => s
  end.

Definition run (s : Server) (schedule : list Resume) : Server :=
  foldl step s schedule.

Definition isRunning (agentId : nat) (r : Request) : bool :=
  (agent r =? agentId) &&
  match pc r with
  | Running _ => true
  | _ => false
  end.

(** The builds of an agent that are running. *)
Definition runningBuilds (s : Server) (agentId : nat) : nat :=
  length (List.filter (isRunning agentId) (requests s)).

Definition usesExisting (r : Request) : Prop :=
  match route r with
  | Existing _ => True
  | OneShot => False
  end.

End Guard.

(** ** Invariants used in the proofs about paths *)

Module PathInvariants.
Import Path.

(** Segments kept as they are: neither empty, nor [.], nor [..]. *)
Definition cleanSegs (segs : list (list N)) : list (list N) :=
  List.filter (λ seg, negb (bool_decide (seg = [] ∨ seg = [DOT]))) segs.

(** On the stack of a relative path the [..] segments sit at the bottom. *)
Definition stackOk (st : list (list N)) : Prop :=
  ∃ k rest, st = rest ++ replicate k DOTDOT ∧ DOTDOT ∉ rest.

(** The [..] segments of a string come first. *)
Definition parentsLead (s : list N) : Prop :=
  ∃ k rest, split_on SLASH s = replicate k DOTDOT ++ rest ∧ DOTDOT ∉ rest.

End PathInvariants.

(** ** Invariants used in the proofs about the fix validator *)

Module ValidatorInvariants.
Import Path Validator.



End ValidatorInvariants.

(** ** Invariants used in the proofs about the orchestrator *)

Module LoopInvariants.
Import Ai SmartBuild.

(** The calls made before turn [n]. *)
Definition evBelow (n : nat) (e : Event) : Prop :=
  match e with
  | EvAnalysis | EvStructure => True
  | EvAdvisor j _ | EvSandbox j | EvPause j => j < n
  end.




End LoopInvariants.

(** ** Collaborators for the worked examples

    An in-memory project, a container runtime that always ends the same
    way, and an Advisor that always gives the same answer. *)

Module Scenario.
Import Docker Ai SmartBuild.

Definition scriptedEnv (outcome : ContainerOutcome)
  (deploy : option (gmap (list N) (list N))) (reply : list N + list N)
  : Env (gmap (list N) (list N)) := {|
  env_analysisOk := λ _, true;
  env_reorganize := λ fs, fs;
  env_structureReply := λ _, Some [];
  env_advisorReply := λ _ _ _ _, reply;
  env_parseFixes := λ _, [];
  env_analysisField := λ _, None;
  env_stripFences := λ analysis, analysis;
  env_shortAnalysis := λ _, [];
  env_anchorSubdir := λ _, [];
  env_container := λ _ _ _, (outcome, deploy);
|}.

Definition scriptedParams (maxIterations : nat) : Params := {|
  MAX_ITERATIONS := maxIterations;
  projectDir := js "uploads/id";
  hostOutputPath := js "/srv/builds/id";
  dockerImage := js "anchor-builder:latest";
  limits := config_docker;
|}.

(** The answer [{"cannotFix": true}]. *)
Definition declineReply : list N :=
  js "{" ++ [34%N] ++ js "cannotFix" ++ [34%N] ++ js ": true}".

Definition failingRun : ContainerOutcome :=
  Exited 101 (mkLogs (js "error: could not compile") []).

End Scenario.

(** ** Keypair files the libraries accept *)

Module KeypairSpec.
Import AgentApi.


(** What the libraries answer on a few file contents; on any other
    content [JSON.parse] or [Keypair.fromSecretKey] throws. *)
Definition tableParser (known : gmap (list N) (list N * list Z))
  (content : list N) : option (list N * list Z) :=
  known !! content.

End KeypairSpec.

(** ** The invariant of the per-agent lock *)

Module GuardInvariants.
Import Guard.

(** At most one running build per agent, and none for an agent that holds
    no lock. *)
Definition SingleFlight (s : Server) : Prop :=
  ∀ agentId,
    runningBuilds s agentId ≤ 1
    ∧ (activeAgentBuilds s !! agentId = None → runningBuilds s agentId = 0).

(** The requests all go through [POST /project/:buildId/build]. *)
Definition onlyExisting (s : Server) : Prop :=
  Forall (λ r, usesExisting r ∧ pc r ≠ Creating) (requests s).

End GuardInvariants.

(** ** Measures on the history of a run *)

Module LoopMeasures.
Import Ai SmartBuild LoopInvariants.

Definition isSandbox (e : Event) : bool :=
  match e with
  | EvSandbox _ => true
  | _ => false
  end.

Definition isAdvisor (e : Event) : bool :=
  match e with
  | EvAdvisor _ _ => true
  | _ => false
  end.

(** The container runs and the repair requests of a history. *)
Definition sandboxRuns (trace : list Event) : nat := length (List.filter isSandbox trace).
Definition advisorCalls (trace : list Event) : nat := length (List.filter isAdvisor trace).

(** The history before turn [n]: every call belongs to an earlier turn,
    there is at most one container run per turn and one repair request
    per turn after the first, a turn whose repair request failed has
    neither a run nor a pause, and a run of a later turn follows a usable
    answer of the same turn. *)
Definition Tidy {S : Type} (n : nat) (st : LoopState S) : Prop :=
  Forall (evBelow n) (ls_trace st)
  ∧ sandboxRuns (ls_trace st) ≤ n
  ∧ advisorCalls (ls_trace st) ≤ n - 1
  ∧ (∀ i fr, EvAdvisor i fr ∈ ls_trace st → fr_success fr = false →
       (EvSandbox i ∉ ls_trace st) ∧ (EvPause i ∉ ls_trace st))
  ∧ (∀ i, 1 ≤ i → EvSandbox i ∈ ls_trace st →
       ∃ fr, EvAdvisor i fr ∈ ls_trace st
             ∧ fr_success fr = true ∧ fr_cannotFix fr = false)
  ∧ (n = 0 ∨ lastBuildResult st ≠ None).

(** What holds of a successful result and of the state it comes with. *)
Definition backed {S : Type} (r : SmartBuildResult) (final : LoopState S) : Prop :=
  ∃ b, finalBuild r = Some b ∧ lastBuildResult final = Some b
       ∧ Docker.success b = true ∧ Docker.exitCode b = Some 0%Z ∧ Docker.error b = None
       ∧ PostCheck.verifyBuildArtifacts (ls_deploy final) = true
       ∧ PostCheck.detectBuildErrorsInLogs (Docker.logs b) = false
       ∧ last (ls_trace final) = Some (EvSandbox (iterations r - 1))
       ∧ cannotFix r = false ∧ cannotFixReason r = None.

End LoopMeasures.

Module LoopShapes.
Import Ai SmartBuild.

(** The pause that follows a failed attempt, unless it was the last. *)
Definition pauseAfter (it : nat) (p : list Event) : Prop := p = [] ∨ p = [EvPause it].

(** The calls one turn of the loop can add to the history. *)
Definition turnEvents (it : nat) (es : list Event) : Prop :=
  (it = 0 ∧ ∃ p, es = [EvAnalysis; EvStructure; EvSandbox 0] ++ p ∧ pauseAfter 0 p)
  ∨ (1 ≤ it ∧ ∃ fr,
       es = [EvAdvisor it fr]
       ∨ (fr_success fr = true ∧ fr_cannotFix fr = false
          ∧ ∃ p, es = [EvAdvisor it fr; EvSandbox it] ++ p ∧ pauseAfter it p)).

End LoopShapes.

(** ** The lock and the builds in flight *)

Module LockInvariants.
Import Guard.

(** The lock of an agent is held exactly while one of its builds runs. *)
Definition LockExact (s : Server) : Prop :=
  ∀ agentId,
    (activeAgentBuilds s !! agentId = None ∧ runningBuilds s agentId = 0)
    ∨ (is_Some (activeAgentBuilds s !! agentId) ∧ runningBuilds s agentId = 1).

End LockInvariants.

(** ** The file routes (routes/agentApi.js, server.js)

    [GET], [POST] and [DELETE /project/:buildId/file], and their
    counterparts [/compile/:buildId/file] of server.js, compute the
    location they work on in the same way. *)

Module FileRoutes.
Import Path BuildManager.




Section WithFS.
Context {S : Type} `{FileSystem S}.


End WithFS.

End FileRoutes.

(** ** The claim page (server.js) *)

Module ClaimPage.

(** [s.replace(/c/g, by)] for a pattern of one literal character. *)
Definition replaceAllChar (c : N) (by_ : list N) (s : list N) : list N :=
  flat_map (λ d, if (d =? c)%N then by_ else [d]) s.

Definition AMP : N := 38.
Definition LT : N := 60.
Definition GT : N := 62.
Definition QUOT : N := 34.
Definition APOS : N := 39.

(** [escapeHtml(str)], lines 111-115; a missing value is the empty
    string, which is returned as it is. *)
Definition escapeHtml (str : list N) : list N :=
  match str with
  | [] => []
  | _ =>
      replaceAllChar APOS (js "&#039;")
        (replaceAllChar QUOT (js "&quot;")
           (replaceAllChar GT (js "&gt;")
              (replaceAllChar LT (js "&lt;")
                 (replaceAllChar AMP (js "&amp;") str))))
  end.

(** What becomes of one character. *)
Definition escapeChar (c : N) : list N :=
  if (c =? AMP)%N then js "&amp;"
  else if (c =? LT)%N then js "&lt;"
  else if (c =? GT)%N then js "&gt;"
  else if (c =? QUOT)%N then js "&quot;"
  else if (c =? APOS)%N then js "&#039;"
  else [c].

End ClaimPage.

(** ** Build records and artifacts (buildManager.js, server.js) *)

Module Artifacts.
Import Path.

(** [BuildStatus], and the [ready] of a project that was not built yet. *)
Inductive Status := Ready | Pending | Running | Success | Failed.

(** A record of the [builds] map, with the fields the artifact routes
    read. *)
Record Build := mkBuild {
  status : Status;
  outputDir : list N;
}.

(** An entry of the lists [scanArtifacts] returns. *)
Record Artifact := mkArtifact {
  art_name : list N;
  art_path : list N;
  art_type : list N;
}.

Record ArtifactSet := mkArtifactSet {
  programs : list Artifact;
  idl : list Artifact;
  types : list Artifact;
  deploy : list Artifact;
}.

(** The three directories under [<outputDir>/target] that are scanned;
    [None] for a directory [fs.readdir] fails on. *)
Record TargetDirs := mkTargetDirs {
  deployFiles : option (gmap (list N) (list N));
  idlFiles : option (gmap (list N) (list N));
  typesFiles : option (gmap (list N) (list N));
}.

(** The entries of a directory, none when it cannot be read. *)
Definition entries (dir : option (gmap (list N) (list N))) : list (list N) :=
  default [] (Output.readdir dir).

Definition artifactOf (dir : list N) (type : list N) (file : list N) : Artifact :=
  mkArtifact file (join [dir; file]) type.

(** The body of the loop over [target/deploy], lines 221-235. *)
Definition scanDeployFile (deployDir : list N) (found : list Artifact * list Artifact)
  (file : list N) : list Artifact * list Artifact :=
  if endsWith file (js ".so")
  then (found.1 ++ [artifactOf deployDir (js "program") file], found.2)
  else if endsWith file (js ".json")
  then (found.1, found.2 ++ [artifactOf deployDir (js "deploy") file])
  else found.

(** The body of the loops over [target/idl] and [target/types]. *)
Definition scanFile (dir type ext : list N) (found : list Artifact) (file : list N)
  : list Artifact :=
  if endsWith file ext then found ++ [artifactOf dir type file] else found.

(** [scanArtifacts(outputDir)], lines 205-277. *)
Definition scanArtifacts (outputDir : list N) (t : TargetDirs) : ArtifactSet :=
  let targetDir := join [outputDir; js "target"] in
  let deployDir := join [targetDir; js "deploy"] in
  let idlDir := join [targetDir; js "idl"] in
  let typesDir := join [targetDir; js "types"] in
  let fromDeploy := foldl (scanDeployFile deployDir) ([], []) (entries (deployFiles t)) in
  {|
    programs := fromDeploy.1;
    deploy := fromDeploy.2;
    idl := foldl (scanFile idlDir (js "idl") (js ".json")) [] (entries (idlFiles t));
    types := foldl (scanFile typesDir (js "types") (js ".ts")) [] (entries (typesFiles t));
  |}.

Inductive ArtifactError :=
| BuildNotFound
| BuildNotSuccessful (s : Status).

(** [getBuildArtifacts(buildId)], lines 191-203: [build] is
    [builds.get(buildId)], [disk] what lies under an output directory. *)
Definition getBuildArtifacts (build : option Build) (disk : list N → TargetDirs)
  : ArtifactSet + ArtifactError :=
  match build with
  | None => inr BuildNotFound
  | Some b =>
      match status b with
      | Success => inl (scanArtifacts (outputDir b) (disk (outputDir b)))
      | s => inr (BuildNotSuccessful s)
      end
  end.

(** [GET /compile/:buildId/artifacts/download/:type/:filename] of
    server.js, lines 307-340: the status replied and the file handed to
    [res.download]. *)
Definition download (build : option Build) (disk : list N → TargetDirs)
  (type filename : list N) : nat * option (list N) :=
  match build with
  | None => (404, None)
  | Some b =>
      match status b with
      | Success =>
          match getBuildArtifacts build disk with
          | inr _ => (500, None)
          | inl artifacts =>
              let allArtifacts :=
                programs artifacts ++ idl artifacts ++ types artifacts ++ deploy artifacts in
              match List.find
                      (λ artifact, bool_decide (art_name artifact = filename)
                                   && bool_decide (art_type artifact = type))
                      allArtifacts with
              | Some artifact => (200, Some (art_path artifact))
              | None => (404, None)
              end
          end
      | _ => (400, None)
      end
  end.

(** The directory of [<outputDir>/target] an artifact class is read from. *)
Definition classDir (outputDir type : list N) : option (list N) :=
  let targetDir := join [outputDir; js "target"] in
  if bool_decide (type = js "program") || bool_decide (type = js "deploy")
  then Some (join [targetDir; js "deploy"])
  else if bool_decide (type = js "idl") then Some (join [targetDir; js "idl"])
  else if bool_decide (type = js "types") then Some (join [targetDir; js "types"])
  else None.

(** The listing an artifact class is read from. *)
Definition classFiles (t : TargetDirs) (type : list N) : list (list N) :=
  if bool_decide (type = js "program") || bool_decide (type = js "deploy")
  then entries (deployFiles t)
  else if bool_decide (type = js "idl") then entries (idlFiles t)
  else if bool_decide (type = js "types") then entries (typesFiles t)
  else [].

(** What lies under the output directory once the keypair files sent in
    a response have been deleted. *)
Definition afterPurge (parseKeypair : list N → option (list N * list Z))
  (t : TargetDirs) : TargetDirs :=
  mkTargetDirs
    (AgentApi.deleteKeypairFiles (deployFiles t)
       (AgentApi.extractKeypairs parseKeypair (deployFiles t)))
    (idlFiles t) (typesFiles t).

End Artifacts.

(** ** Compilation errors for the caller (routes/agentApi.js) *)

Module ErrorReport.
Import Regex Docker.

(** [s.trim()]: white space and line terminators are dropped at both ends. *)
Fixpoint trimStart (s : list N) : list N :=
  match s with
  | c :: s' => if space c then trimStart s' else s
  | [] => []
  end.

Definition trim (s : list N) : list N := rev (trimStart (rev (trimStart s))).

(** [re.test(s)] for a regex that begins with [^] and has no [m] flag:
    the match can only start at the first unit. *)
Definition testAtStart (r : regex) (s : list N) : bool :=
  match matchHere r None s with
  | Some _ => true
  | None => false
  end.

(** [/^error\[E\d+\]/] and [/^error:/], the [^] left to [testAtStart]. *)
Definition reErrorCodeLine : regex := seqOf [Lit "error[E"; Plus (Cls digit); Lit "]"].
Definition reErrorLine : regex := Lit "error:".

Definition METADATA_FAILED : list N := js "Failed to obtain package metadata".
Definition NO_LIBRARY : list N := js "can't find library".

Definition isErrorLine (line : list N) : bool :=
  testAtStart reErrorCodeLine line || testAtStart reErrorLine line.

Definition isContext (next : list N) : bool :=
  startsWith next (js "-->") || startsWith next (js "|") || startsWith next (js "=").

(** Lines 112-120: up to [budget] following lines, as long as each is a
    location, a gutter or a note. *)
Fixpoint contextOf (budget : nat) (following : list (list N)) : list (list N) :=
  match budget, following with
  | S budget', raw :: rest =>
      let next := trim raw in
      if isContext next then next :: contextOf budget' rest else []
  | _, _ => []
  end.

Definition blockOf (line : list N) (following : list (list N)) : list N :=
  join_sep [NEWLINE] (line :: contextOf 4 following).

(** The loop over the lines, lines 107-126: what is pushed on [errors]. *)
Fixpoint collectErrors (lines : list (list N)) : list (list N) :=
  match lines with
  | [] => []
  | raw :: rest =>
      let line := trim raw in
      (if isErrorLine line then [blockOf line rest] else [])
      ++ (if includes line METADATA_FAILED then [line] else [])
      ++ (if includes line NO_LIBRARY then [line] else [])
      ++ collectErrors rest
  end.

(** [[...new Set(errors)]]: the first occurrence of each value, in order. *)
Fixpoint uniqueFrom (seen : list (list N)) (errors : list (list N)) : list (list N) :=
  match errors with
  | [] => []
  | e :: rest =>
      if bool_decide (e ∈ seen) then uniqueFrom seen rest
      else e :: uniqueFrom (e :: seen) rest
  end.

(** [extractCompilationErrors(logs)], lines 99-130. *)
Definition extractCompilationErrors (logs : option Logs) : list (list N) :=
  match logs with
  | None => []
  | Some l =>
      let combined := stdout l ++ [NEWLINE] ++ stderr l in
      let lines := split_on NEWLINE combined in
      take 20 (uniqueFrom [] (collectErrors lines))
  end.

End ErrorReport.

(** ** The final logs of a container (docker.js) *)

Module DockerLogs.

(** [buf.readUInt32BE(offset)] on the four bytes it reads. *)
Definition readUInt32BE (b0 b1 b2 b3 : Byte.byte) : N :=
  (Byte.to_N b0 * 2 ^ 24 + Byte.to_N b1 * 2 ^ 16 + Byte.to_N b2 * 2 ^ 8 + Byte.to_N b3)%N.

(** How the loop of lines 239-252 ends: with the messages of the two
    streams, or with the [RangeError] of a header that is cut short. *)
Inductive Parsed :=
| Lines (stdoutLines stderrLines : list (list N))
| OutOfRange.

Section WithDecoder.
(** [buf.toString('utf8')] *)
Variable utf8 : list Byte.byte → list N.

(** The loop, on what is left of the buffer from [offset] on.  Every turn
    moves [offset] by 8 bytes at least: [fuel] bounds the turns. *)
Fixpoint parseFrames (fuel : nat) (rest : list Byte.byte)
  (stdoutLines stderrLines : list (list N)) : Parsed :=
  match rest with
  | [] => Lines stdoutLines stderrLines
  | streamType :: _ =>
      match fuel with
      | 0 => Lines stdoutLines stderrLines
      | S fuel' =>
          match drop 4 rest with
          | b0 :: b1 :: b2 :: b3 :: body =>
              let size := N.to_nat (readUInt32BE b0 b1 b2 b3) in
              let message := utf8 (take size body) in
              if (Byte.to_N streamType =? 1)%N then
                parseFrames fuel' (drop size body) (stdoutLines ++ [message]) stderrLines
              else if (Byte.to_N streamType =? 2)%N then
                parseFrames fuel' (drop size body) stdoutLines (stderrLines ++ [message])
              else parseFrames fuel' (drop size body) stdoutLines stderrLines
          | _ => OutOfRange
          end
      end
  end.

(** Lines 234-252 on the buffer [container.logs] resolves to. *)
Definition parseLogBuffer (logBuffer : list Byte.byte) : Parsed :=
  parseFrames (length logBuffer) logBuffer [] [].

(** Lines 254-255 and the [catch] of lines 258-261: what is pushed on
    [logs.stdout] and on [logs.stderr]; [message] is the text of the
    [RangeError]. *)
Definition finalLogs (message : list N) (logBuffer : list Byte.byte)
  : option (list N) * list N :=
  match parseLogBuffer logBuffer with
  | Lines stdoutLines stderrLines => (Some (concat stdoutLines), concat stderrLines)
  | OutOfRange => (None, js "Log parsing error: " ++ message)
  end.

End WithDecoder.

(** The frames as the Docker daemon writes them:
    [[stream_type, 0, 0, 0, size (4 bytes, big endian), message]]. *)
Definition byteOf (n : N) : Byte.byte := default Byte.x00 (Byte.of_N (n mod 256)).

Definition be32 (n : N) : list Byte.byte :=
  [byteOf (n / 2 ^ 24); byteOf (n / 2 ^ 16); byteOf (n / 2 ^ 8); byteOf n].

Definition frame (f : Byte.byte * list Byte.byte) : list Byte.byte :=
  [f.1; Byte.x00; Byte.x00; Byte.x00] ++ be32 (N.of_nat (length f.2)) ++ f.2.

Definition frames (fs : list (Byte.byte * list Byte.byte)) : list Byte.byte :=
  flat_map frame fs.

(** The messages of one stream, decoded. *)
Definition messagesOf (utf8 : list Byte.byte → list N) (stream : N)
  (fs : list (Byte.byte * list Byte.byte)) : list (list N) :=
  (λ f, utf8 f.2) <$> List.filter (λ f, (Byte.to_N f.1 =? stream)%N) fs.

End DockerLogs.

(** ** Asking the Advisor for a repair (ai.js)

    [analyzeAndFixBuildFailure] talks to the model in a loop: the model
    may ask for tools before it answers, and a request that is refused for
    its rate is made again after a pause. *)

Module Advisor.
Import Regex Validator Ai.

Record ToolCall := mkToolCall {
  call_id : list N;
  call_name : list N;
  call_input : list N;
}.

(** An element of [response.content]. *)
Inductive Block :=
| TextBlock (text : list N)
| ToolUseBlock (call : ToolCall)
| OtherBlock.

Record Response := mkResponse {
  stop_reason : list N;
  content : list Block;
}.

(** What [anthropic.messages.create] throws: [err_retryAfter] is the
    integer [parseInt] reads from the [retry-after] header, when there is
    such a header and it starts with digits. *)
Record ApiError := mkApiError {
  err_status : option Z;
  err_message : list N;
  err_retryAfter : option Z;
}.

Inductive Message :=
| User (prompt : list N)
| Assistant (content : list Block)
| ToolResults (results : list (list N * list N)).

(** What the function does to the outside world. *)
Inductive Event :=
| EvCreate (messages : list Message)
| EvTool (call : ToolCall)
| EvSleep (ms : Z).

(** The outside world: the API and the tools, each answering on what
    happened so far.  [executeTool] catches its own exceptions. *)
Record World := mkWorld {
  create : list Event → list Message → Response + ApiError;
  executeTool : list Event → ToolCall → list N;
}.

Definition MAX_RETRIES : nat := 5.
Definition MAX_TOOL_ROUNDS : nat := 8.

Inductive Outcome :=
| Done (response : Response)
| Thrown (e : ApiError)
| Diverges.

(** What [analyzeAndFixBuildFailure] comes to: a value, [undefined] when
    the [for] loop is left without a [return], or no value at all. *)
Inductive Final :=
| Resolved (r : FixResult)
| Undefined
| Hangs.

Definition toolUseBlocks (content : list Block) : list ToolCall :=
  omap (λ b, match b with ToolUseBlock call => Some call | _ => None end) content.

(** [response.content.find(c => c.type === 'text')], then its text. *)
Definition analysisOf (response : Response) : list N :=
  match List.find (λ b, match b with TextBlock _ => true | _ => false end)
          (content response) with
  | Some (TextBlock text) => text
  | _ => []
  end.

(** Line 747. *)
Definition isRateLimit (e : ApiError) : bool :=
  bool_decide (err_status e = Some 429%Z) || includes (err_message e) (js "429").

(** Lines 751-754. *)
Definition waitSec (e : ApiError) : Z :=
  match err_retryAfter e with
  | Some n => Z.max (if (n =? 0)%Z then 65 else n) 65
  | None => 65
  end.

Section WithWorld.
Variable w : World.
Variable parseFixes : list N → list Fix.

(** Lines 694-713: the tools one answer asks for, in order. *)
Fixpoint runTools (calls : list ToolCall) (trace : list Event)
  (toolResults : list (list N * list N)) : list Event * list (list N * list N) :=
  match calls with
  | [] => (trace, toolResults)
  | call :: rest =>
      let result := executeTool w trace call in
      runTools rest (trace ++ [EvTool call]) (toolResults ++ [(call_id call, result)])
  end.

(** Lines 693-728: the [while] loop; [fuel] bounds its turns. *)
Fixpoint toolLoop (fuel : nat) (response : Response) (messages : list Message)
  (totalToolCalls : nat) (trace : list Event) : Outcome * list Event :=
  if bool_decide (stop_reason response = js "tool_use")
     && (totalToolCalls <? MAX_TOOL_ROUNDS)
  then
    match fuel with
    | 0 => (Diverges, trace)
    | S fuel' =>
        let calls := toolUseBlocks (content response) in
        let '(trace1, toolResults) := runTools calls trace [] in
        let messages' :=
          messages ++ [Assistant (content response); ToolResults toolResults] in
        let trace2 := trace1 ++ [EvSleep 2000] in
        match create w trace2 messages' with
        | inl response' =>
            toolLoop fuel' response' messages' (totalToolCalls + length calls)
              (trace2 ++ [EvCreate messages'])
        | inr e => (Thrown e, trace2 ++ [EvCreate messages'])
        end
    end
  else (Done response, trace).

(** Lines 682-744: the body of the [try]. *)
Definition oneAttempt (fuel : nat) (prompt : list N) (trace : list Event)
  : Outcome * list Event :=
  let messages := [User prompt] in
  match create w trace messages with
  | inl response => toolLoop fuel response messages 0 (trace ++ [EvCreate messages])
  | inr e => (Thrown e, trace ++ [EvCreate messages])
  end.

(** Lines 677-772: the [for] loop from [attempt] on, [remaining] turns
    being left. *)
Fixpoint attemptsFrom (fuel : nat) (prompt : list N) (remaining attempt : nat)
  (trace : list Event) : Final * list Event :=
  match remaining with
  | 0 => (Undefined, trace)
  | S remaining' =>
      match oneAttempt fuel prompt trace with
      | (Done response, trace1) =>
          (Resolved (Ai.analyzeAndFixBuildFailure parseFixes (inl (analysisOf response))),
           trace1)
      | (Thrown e, trace1) =>
          if isRateLimit e && (attempt <? MAX_RETRIES - 1) then
            attemptsFrom fuel prompt remaining' (attempt + 1)
              (trace1 ++ [EvSleep (waitSec e * 1000)])
          else
            (Resolved (Ai.analyzeAndFixBuildFailure parseFixes (inr (err_message e))),
             trace1)
      | (Diverges, trace1) => (Hangs, trace1)
      end
  end.

(** [analyzeAndFixBuildFailure], with the prompt built at lines 670-671. *)
Definition analyzeAndFixBuildFailure (fuel : nat) (prompt : list N) : Final * list Event :=
  attemptsFrom fuel prompt MAX_RETRIES 0 [].

End WithWorld.

(** Measures on what was done. *)
Definition isCreate (e : Event) : bool :=
  match e with
  | EvCreate _ => true
  | _ => false
  end.

Definition apiCalls (trace : list Event) : nat := length (List.filter isCreate trace).






End Advisor.

(** ** Worlds for the worked examples *)

Module AdvisorScenario.
Import Advisor.

(** The API answers a fixed text at once. *)
Definition answering (text : list N) : World := {|
  create := λ _ _, inl (mkResponse (js "end_turn") [TextBlock text]);
  executeTool := λ _ _, [];
|}.

(** The API refuses every request for its rate. *)
Definition rateLimited : World := {|
  create := λ _ _, inr (mkApiError (Some 429%Z) (js "rate_limit_error") (Some 10%Z));
  executeTool := λ _ _, [];
|}.

(** The API asks for one tool, then answers. *)
Definition researching (call : ToolCall) (text : list N) : World := {|
  create := λ trace _,
    if bool_decide (apiCalls trace = 0)
    then inl (mkResponse (js "tool_use") [ToolUseBlock call])
    else inl (mkResponse (js "end_turn") [TextBlock text]);
  executeTool := λ _ _, js "{}";
|}.

End AdvisorScenario.

(** ** The registry of agents (agentAuth.js, db.js)

    The [agents] table is a list of rows; the statements of agentAuth.js
    are written as functions on it, with the constraints the table is
    created with in db.js: [agent_id] is the primary key, [api_key],
    [verification_code] and [x_handle] carry a unique index (which, as in
    SQLite, does not compare missing values). *)

Module AgentAuth.
Import Regex.

Inductive ClaimStatus := PendingClaim | Claimed.

(** A row of [agents], with the columns agentAuth.js reads or writes. *)
Record Agent := mkAgent {
  agent_id : list N;
  api_key : list N;
  name : list N;
  x_handle : option (list N);
  verification_code : option (list N);
  claim_status : ClaimStatus;
  is_active : bool;
}.













Section WithLowerCase.
(** [s.toLowerCase()] *)
Variable toLowerCase : list N → list N.







End WithLowerCase.

(** [revokeAgent(agentId)]: the rows after the [UPDATE], and whether one
    was changed. *)
Definition revokeAgent (db : list Agent) (agentId : list N) : bool * list Agent :=
  (existsb (λ a, bool_decide (agent_id a = agentId)) db,
   (λ a, if bool_decide (agent_id a = agentId)
         then mkAgent (agent_id a) (api_key a) (name a) (x_handle a)
                (verification_code a) (claim_status a) false
         else a) <$> db).

(** [SELECT * FROM agents WHERE api_key = ? AND is_active = 1], the row
    [verifyAgentKey] returns (the counters it updates are left out). *)
Definition verifyAgentKey (db : list Agent) (apiKey : list N) : option Agent :=
  List.find (λ a, bool_decide (api_key a = apiKey) && is_active a) db.


End AgentAuth.

(** A table of two agents: one claimed by [bob], one waiting for its
    owner. *)
Module AgentAuthScenario.
Import Regex AgentAuth.


Definition bob : Agent :=
  mkAgent (js "id-1") (js "ocsvc_01") (js "builder") (Some (js "bob"))
    (Some (js "oc-00ff")) Claimed true.

Definition waiting : Agent :=
  mkAgent (js "id-2") (js "ocsvc_02") (js "helper") None
    (Some (js "oc-a1b2")) PendingClaim true.

Definition table : list Agent := [bob; waiting].

End AgentAuthScenario.

(** ** Walks over the project directory (smartBuild.js, ai.js)

    The directory a walk starts from is a tree: what [fs.readdir(dir,
    { withFileTypes: true })] resolves to at each directory, in the order
    it lists the entries, and what [fs.readFile] resolves to at each
    file. *)

Module ProjectTree.
Import JsString Path.

#[warnings="-register-all"]
Inductive Node :=
| File (content : option (list N))     (* [isFile()]; [None] when it cannot be read *)
| Other                                 (* neither [isFile()] nor [isDirectory()] *)
| Dir (entries : option (list (list N * Node))).
                                        (* [isDirectory()]; [None] when [readdir] rejects *)

Definition ANCHOR_TOML : list N := js "Anchor.toml".

(** [['node_modules', 'target', '.git'].includes(name)] *)
Definition IGNORED : list (list N) := [js "node_modules"; js "target"; js ".git"].

Definition ignored (name : list N) : bool := bool_decide (name ∈ IGNORED).

Definition isDirectory (node : Node) : bool :=
  match node with
  | Dir _ => true
  | _ => false
  end.

(** *** [findAnchorTomlSubdir] (smartBuild.js) *)

(** The [for] loop of [search], with the recursive call as an argument. *)
Definition searchEntries (search : Node → list N → option (list N))
  (relativePath : list N) : list (list N * Node) → option (list N) :=
  fix loop entries :=
    match entries with
    | [] => None
    | (name, node) :: rest =>
        if bool_decide (name = ANCHOR_TOML) then Some relativePath
        else if isDirectory node && negb (ignored name) then
          match search node (join [relativePath; name]) with
          | Some found => Some found
          | None => loop rest
          end
        else loop rest
    end.

Fixpoint search (dir : Node) (relativePath : list N) : option (list N) :=
  match dir with
  | Dir (Some entries) => searchEntries search relativePath entries
  | _ => None
  end.

(** [(await search(projectDir, '')) || ''] *)
Definition findAnchorTomlSubdir (projectDir : Node) : list N :=
  match search projectDir [] with
  | Some found => found
  | None => []
  end.

(** *** [getFileTree] (ai.js) *)

#[warnings="-register-all"]
Inductive Item :=
| FileItem (name path : list N)                          (* [type: 'file'] *)
| DirItem (name path : list N) (children : list Item).   (* [type: 'directory'] *)

(** The [for] loop of [getFileTree]; [None] when a [readdir] below
    rejects, which rejects the whole call. *)
Definition treeEntries (getFileTree : Node → list N → option (list Item))
  (relativePath : list N) : list (list N * Node) → list Item → option (list Item) :=
  fix loop entries tree :=
    match entries with
    | [] => Some tree
    | (name, node) :: rest =>
        let relPath := join [relativePath; name] in
        if ignored name then loop rest tree
        else if isDirectory node then
          match getFileTree node relPath with
          | Some children => loop rest (tree ++ [DirItem name relPath children])
          | None => None
          end
        else loop rest (tree ++ [FileItem name relPath])
    end.

Fixpoint getFileTree (dir : Node) (relativePath : list N) : option (list Item) :=
  match dir with
  | Dir (Some entries) => treeEntries getFileTree relativePath entries []
  | _ => None
  end.

(** *** [readAllSourceFiles] (ai.js) *)

(** [name.endsWith('.rs') || name.endsWith('.toml') || name.endsWith('.json')] *)
Definition isSource (name : list N) : bool :=
  endsWith name (js ".rs") || endsWith name (js ".toml") || endsWith name (js ".json").

(** The [for] loop of [readRecursive] on the object [files]. *)
Definition readEntries
  (readRecursive : Node → list N → gmap (list N) (list N) → option (gmap (list N) (list N)))
  (relativePath : list N)
  : list (list N * Node) → gmap (list N) (list N) → option (gmap (list N) (list N)) :=
  fix loop entries files :=
    match entries with
    | [] => Some files
    | (name, node) :: rest =>
        let relPath := join [relativePath; name] in
        if ignored name then loop rest files
        else
          match node with
          | Dir _ =>
              match readRecursive node relPath files with
              | Some files' => loop rest files'
              | None => None
              end
          | File content =>
              if isSource name then
                match content with
                | Some text => loop rest (<[relPath := text]> files)
                | None => loop rest files
                end
              else loop rest files
          | Other => loop rest files
          end
    end.

Fixpoint readRecursive (dir : Node) (relativePath : list N)
  (files : gmap (list N) (list N)) : option (gmap (list N) (list N)) :=
  match dir with
  | Dir (Some entries) => readEntries readRecursive relativePath entries files
  | _ => None
  end.

Definition readAllSourceFiles (projectDir : Node) : option (gmap (list N) (list N)) :=
  readRecursive projectDir [] ∅.

(** *** Places of a tree *)

(** [relOf rel names]: the relative path built on the way down. *)
Definition relOf (relativePath : list N) (names : list (list N)) : list N :=
  foldl (λ rel name, join [rel; name]) relativePath names.

(** [Holds dir names]: going down from [dir] by [names], through
    directories that can be listed and that the walks do not skip, leads
    to a directory that has an entry called [Anchor.toml]. *)
Inductive Holds : Node → list (list N) → Prop :=
| holds_here entries node :
    (ANCHOR_TOML, node) ∈ entries →
    Holds (Dir (Some entries)) []
| holds_below entries name child names :
    (name, child) ∈ entries →
    ignored name = false →
    Holds child names →
    Holds (Dir (Some entries)) (name :: names).

(** [Walked dir]: every directory the walks of ai.js enter can be
    listed. *)
Inductive Walked : Node → Prop :=
| walked entries :
    (∀ name child, (name, child) ∈ entries → ignored name = false →
                   isDirectory child = true → Walked child) →
    Walked (Dir (Some entries)).

(** [SourceAt dir names text]: [names] leads from [dir], through
    directories, to a readable file holding [text], with a source
    extension, and no name on the way is one the walks skip. *)
Inductive SourceAt : Node → list (list N) → list N → Prop :=
| source_here entries name text :
    (name, File (Some text)) ∈ entries →
    ignored name = false →
    isSource name = true →
    SourceAt (Dir (Some entries)) [name] text
| source_below entries name child names text :
    (name, child) ∈ entries →
    ignored name = false →
    SourceAt child names text →
    SourceAt (Dir (Some entries)) (name :: names) text.

(** The directories a walk of ai.js enters. *)
Definition Entered (es : list (list N * Node)) : Prop :=
  ∀ name child, (name, child) ∈ es → ignored name = false →
                isDirectory child = true → Walked child.

(** What a walk of [readRecursive] from [dir] adds to [files]: it keeps
    the keys, and the texts it adds are those of the source files below
    [dir], all of them. *)
Definition ReadSpec (dir : Node) (rel : list N) (files files' : gmap (list N) (list N)) : Prop :=
  (∀ p, is_Some (files !! p) → is_Some (files' !! p))
  ∧ (∀ p text, files' !! p = Some text →
       files !! p = Some text ∨ ∃ names, SourceAt dir names text ∧ p = relOf rel names)
  ∧ (∀ names text, SourceAt dir names text → is_Some (files' !! relOf rel names)).

(** The items of a listing, at any depth. *)
Fixpoint itemsOf (item : Item) : list Item :=
  match item with
  | FileItem _ _ => [item]
  | DirItem _ _ children => item :: flat_map itemsOf children
  end.

Definition deep (items : list Item) : list Item := flat_map itemsOf items.

Definition itemName (item : Item) : list N :=
  match item with
  | FileItem name _ => name
  | DirItem name _ _ => name
  end.

Definition itemPath (item : Item) : list N :=
  match item with
  | FileItem _ path => path
  | DirItem _ path _ => path
  end.

(** What a listing of [getFileTree] from [dir] holds: no item carries a
    skipped name, and every source file below [dir] is listed as a file
    under its relative path. *)
Definition TreeSpec (dir : Node) (rel : list N) (items : list Item) : Prop :=
  (∀ item, item ∈ deep items → ignored (itemName item) = false)
  ∧ (∀ names text, SourceAt dir names text →
       ∃ name, FileItem name (relOf rel names) ∈ deep items ∧ isSource name = true).

(** Induction on a tree, with the hypothesis on the entries of a
    directory. *)
Fixpoint Node_walk (P : Node → Prop)
  (HFile : ∀ content, P (File content)) (HOther : P Other) (HNone : P (Dir None))
  (HDir : ∀ entries, Forall (λ entry, P entry.2) entries → P (Dir (Some entries)))
  (node : Node) : P node :=
  match node with
  | File content => HFile content
  | Other => HOther
  | Dir listing =>
      match listing return P (Dir listing) with
      | None => HNone
      | Some entries =>
          HDir entries
            ((fix all (es : list (list N * Node)) : Forall (λ entry, P entry.2) es :=
                match es return Forall (λ entry, P entry.2) es with
                | [] => List.Forall_nil _
                | entry :: es' =>
                    @List.Forall_cons _ (λ entry, P entry.2) entry es'
                      (match entry return P entry.2 with
                       | (_, child) => Node_walk P HFile HOther HNone HDir child
                       end)
                      (all es')
                end) entries)
      end
  end.

End ProjectTree.

(** A project whose manifest lies in [app], listed after [docs] and
    before a second manifest at the top. *)
Module ProjectTreeScenario.
Import JsString ProjectTree.

Definition docs : Node :=
  Dir (Some [(js "guide.md", File (Some (js "# guide")))]).

Definition app : Node :=
  Dir (Some [(js "programs", Dir (Some [(js "lib.rs", File (Some (js "use anchor_lang;")))]));
             (ANCHOR_TOML, File (Some (js "[programs.localnet]")))]).

Definition listedAfter : list (list N * Node) :=
  [(ANCHOR_TOML, File (Some (js "[workspace]"))); (js "target", Dir None)].

Definition project : Node :=
  Dir (Some ([(js "docs", docs)] ++ (js "app", app) :: listedAfter)).

End ProjectTreeScenario.

Module RegexExamples.
Import Regex.

Example count_1 :
  countMatches (Seq (Lit "fn") (Seq (Plus (Cls space)) (Plus (Cls word))))
    (js "pub fn a() {} fn  bcd() {} defn x") = 3.
Proof. vm_compute. reflexivity. Qed.

Example test_1 : test (Seq (Lit "a") (Seq (LazyStar (Cls anything)) (Lit "c"))) (js "xxabbbcc") = true.
Proof. vm_compute. reflexivity. Qed.

Example test_2 : test (Seq Bol (Lit "b")) (js "ab") = false.
Proof. vm_compute. reflexivity. Qed.

End RegexExamples.
(** ** Quick checks of the path model against Node's documented results *)

Module PathExamples.
Import Path.

Example normalize_1 :
  normalize (js "/foo/bar//baz/asdf/quux/..") = js "/foo/bar/baz/asdf".
Proof. reflexivity. Qed.

Example normalize_2 : normalize (js "a/../../x/") = js "../x/".
Proof. reflexivity. Qed.

Example normalize_3 : normalize (js "./") = js "./".
Proof. reflexivity. Qed.

Example join_1 :
  join [js "/foo"; js "bar"; js "baz/asdf"; js "quux"; js ".."]
  = js "/foo/bar/baz/asdf".
Proof. reflexivity. Qed.

Example join_2 : join [js "uploads/id"; js "src/lib.rs/."] = js "uploads/id/src/lib.rs".
Proof. reflexivity. Qed.

Example dirname_1 : dirname (js "/foo/bar/baz/asdf/quux") = js "/foo/bar/baz/asdf".
Proof. reflexivity. Qed.

Example dirname_2 : dirname (js "a") = js ".".
Proof. reflexivity. Qed.

Example extname_1 : extname (js "index.coffee.md") = js ".md".
Proof. reflexivity. Qed.

Example extname_2 : extname (js ".index") = js "".
Proof. reflexivity. Qed.

Example extname_3 : extname (js "index.") = js ".".
Proof. reflexivity. Qed.

Example extname_4 : extname (js "programs/x/src/lib.rs") = js ".rs".
Proof. reflexivity. Qed.

Example extname_5 : extname (js "src/lib.rs/") = js ".rs".
Proof. reflexivity. Qed.

Example extname_6 : extname (js "..") = js "".
Proof. reflexivity. Qed.

End PathExamples.

Module BuildManagerExamples.
Import Path BuildManager.

Example sanitize_1 :
  sanitize (js "uploads/id") (js "../../etc/passwd") = Some (js "uploads/id/etc/passwd").
Proof. reflexivity. Qed.

Example sanitize_2 : sanitize (js "uploads/id") (js "/etc/passwd") = None.
Proof. reflexivity. Qed.

Example sanitize_3 : safePathOf (js "..\../x") = js "x".
Proof. reflexivity. Qed.

Example sanitize_4 : sanitize (js "uploads/id") (js "..\/etc/passwd") = None.
Proof. reflexivity. Qed.

Example sanitize_5 : sanitize (js "uploads/id") (js "..") = Some (js "uploads/id").
Proof. reflexivity. Qed.

End BuildManagerExamples.

(** ** The model at work on small inputs *)

Module ModelExamples.
Import Path Regex Validator Docker PostCheck Ai SmartBuild AgentApi.

Example log_error_code :
  detectBuildErrorsInLogs (mkLogs (js "error[E0432]: unresolved import `foo`") (js "")) = true.
Proof. vm_compute. reflexivity. Qed.

Example log_aborting :
  detectBuildErrorsInLogs
    (mkLogs (js "   Compiling x v0.1.0" ++ [NEWLINE]
             ++ js "error: could not compile `x`; aborting due to 2 previous errors") (js ""))
  = true.
Proof. vm_compute. reflexivity. Qed.

Example log_aborting_not_at_line_start :
  detectBuildErrorsInLogs (mkLogs (js "note: aborting due to user request") (js "")) = false.
Proof. vm_compute. reflexivity. Qed.

Example log_clean :
  detectBuildErrorsInLogs (mkLogs (js "    Finished release [optimized] target(s)") (js "")) = false.
Proof. vm_compute. reflexivity. Qed.

Example count_functions :
  countPattern (js "pub fn a() {}" ++ [NEWLINE] ++ js "pub async fn b() {}" ++ [NEWLINE]
                ++ js "impl X { fn c(&self) {} }") reFn = 3.
Proof. vm_compute. reflexivity. Qed.

Example count_impls :
  countPattern (js "impl X {}" ++ [NEWLINE] ++ js "impl<T> Y for Z {}") reImpl = 1.
Proof. vm_compute. reflexivity. Qed.

Example lines_of_text : lineCount (js "a" ++ [NEWLINE] ++ js "b" ++ [NEWLINE]) = 3.
Proof. reflexivity. Qed.

(** [3 * 0.7] is [2.0999999999999996]: below 2.1, above 2. *)
Example double_three :
  Double.ltScaled 2 (Double.times07 3) = true ∧ Double.ltScaled 3 (Double.times07 3) = false.
Proof. split; reflexivity. Qed.

(** [10 * 0.7] is exactly [7]. *)
Example double_ten :
  Double.ltScaled 6 (Double.times07 10) = true ∧ Double.ltScaled 7 (Double.times07 10) = false.
Proof. split; reflexivity. Qed.

Example refusal_detected :
  fr_cannotFix (analyzeAndFixBuildFailure (λ _, []) (inl Scenario.declineReply)) = true.
Proof. vm_compute. reflexivity. Qed.

Example config_file_at_iteration_0 :
  let r := applySafeFixes (∅ : gmap (list N) (list N)) (js "uploads/id")
             [mkFix (js "create") (js "Anchor.toml") (js "[toolchain]") (js "missing");
              mkFix (js "update") (js "src/lib.rs") (js "fn f() {}") (js "fix")] 0 in
  fix_path <$> applied r = [js "Anchor.toml"]
  ∧ (λ x, fix_path x.1) <$> rejected r = [js "src/lib.rs"]
  ∧ st_fs r !! js "uploads/id/Anchor.toml" = Some (js "[toolchain]").
Proof. vm_compute. done. Qed.

Example keypair_name :
  removeFirst (js "prog-keypair.json") KEYPAIR_SUFFIX = js "prog".
Proof. vm_compute. reflexivity. Qed.

(** A project that compiles at once: one sandbox run, no call to the
    Advisor for a repair. *)
Example first_run_succeeds :
  let env := Scenario.scriptedEnv (Exited 0 (mkLogs (js "Finished") (js "")))
               (Some {[ js "prog.so" := js "ELF" ]}) (inr (js "unused")) in
  let run := smartBuild env (Scenario.scriptedParams 8) ∅ None in
  (sb_success <$> run.1) = Some true
  ∧ (iterations <$> run.1) = Some 1
  ∧ ls_trace run.2 = [EvAnalysis; EvStructure; EvSandbox 0]
  ∧ ls_previousFixes run.2 = [].
Proof. vm_compute. done. Qed.

(** The Advisor is out of reach: no rebuild on the later turns, but every
    turn is used. *)
Example advisor_unreachable :
  let env := Scenario.scriptedEnv Scenario.failingRun None (inr (js "429")) in
  let run := smartBuild env (Scenario.scriptedParams 3) ∅ None in
  (iterations <$> run.1) = Some 3
  ∧ List.filter (λ e, match e with EvSandbox _ => true | _ => false end) (ls_trace run.2)
    = [EvSandbox 0].
Proof. vm_compute. done. Qed.

End ModelExamples.

(** ** Facts about splitting and joining *)

Section SplitFacts.
Variable sep : N.

Lemma split_on_nonempty s : split_on sep s ≠ [].
Proof. destruct s as [|c s]; simpl; [done|]. destruct (c =? sep)%N; [done|]. by destruct (split_on sep s). Qed.

Lemma split_on_cons_ne c s :
  c ≠ sep →
  ∃ seg segs, split_on sep s = seg :: segs ∧ split_on sep (c :: s) = (c :: seg) :: segs.
Proof.
  intros Hc. simpl. destruct (N.eqb_spec c sep); [done|].
  destruct (split_on sep s) as [|seg segs] eqn:E; [by apply split_on_nonempty in E|].
  eauto.
Qed.

Lemma split_on_cons_eq s : split_on sep (sep :: s) = [] :: split_on sep s.
Proof. simpl. by rewrite N.eqb_refl. Qed.

Lemma split_on_app a b :
  split_on sep (a ++ sep :: b) = split_on sep a ++ split_on sep b.
Proof.
  induction a as [|c a IH]; simpl.
  - by rewrite N.eqb_refl.
  - destruct (c =? sep)%N; [by rewrite IH|].
    rewrite IH. destruct (split_on sep a) as [|seg segs] eqn:E; [by apply split_on_nonempty in E|].
    done.
Qed.

Lemma split_on_snoc a : split_on sep (a ++ [sep]) = split_on sep a ++ [[]].
Proof. apply split_on_app. Qed.

Lemma split_on_sepfree s : sep ∉ s → split_on sep s = [s].
Proof.
  induction s as [|c s IH]; intros Hs; simpl; [done|].
  destruct (N.eqb_spec c sep) as [->|Hne]; [set_solver|].
  rewrite IH; [done|set_solver].
Qed.

Lemma split_on_segs_sepfree s seg : seg ∈ split_on sep s → sep ∉ seg.
Proof.
  revert seg. induction s as [|c s IH]; simpl; intros seg Hin.
  - apply list_elem_of_singleton in Hin as ->. set_solver.
  - destruct (N.eqb_spec c sep) as [->|Hne].
    + apply elem_of_cons in Hin as [->|Hin]; [set_solver|by apply IH].
    + destruct (split_on sep s) as [|seg0 segs] eqn:E; [by apply split_on_nonempty in E|].
      apply elem_of_cons in Hin as [->|Hin].
      * intros [?|Hc]%elem_of_cons; [done|]. apply (IH seg0); [left|done].
      * apply IH. by right.
Qed.

Lemma split_on_join segs :
  segs ≠ [] → Forall (λ seg, sep ∉ seg) segs →
  split_on sep (join_with sep segs) = segs.
Proof.
  induction segs as [|seg segs IH]; [done|]. intros _ Hall.
  apply Forall_cons in Hall as [Hseg Hall].
  destruct segs as [|seg' segs].
  - simpl. by apply split_on_sepfree.
  - change (join_with sep (seg :: seg' :: segs))
      with (seg ++ sep :: join_with sep (seg' :: segs)).
    rewrite split_on_app, IH by done. by rewrite split_on_sepfree.
Qed.

(** The first segment determines how the string starts. *)
Lemma split_on_head s seg tl :
  split_on sep s = seg :: tl →
  (tl = [] ∧ s = seg) ∨ (∃ s', s = seg ++ sep :: s' ∧ split_on sep s' = tl).
Proof.
  revert seg tl. induction s as [|c s IH]; simpl; intros seg tl Heq.
  - injection Heq as <- <-. by left.
  - destruct (N.eqb_spec c sep) as [->|Hne].
    + injection Heq as <- <-. right. by exists s.
    + destruct (split_on sep s) as [|seg0 segs] eqn:E; [by apply split_on_nonempty in E|].
      injection Heq as <- <-.
      destruct (IH seg0 segs eq_refl) as [[-> ->]|(s' & -> & Hs')]; [by left|].
      right. by exists s'.
Qed.

End SplitFacts.

(** ** Facts about path normalisation *)

Module PathFacts.
Import Path PathInvariants.

Lemma elem_of_rev {A} (x : A) (l : list A) : x ∈ rev l ↔ x ∈ l.
Proof. rewrite !list_elem_of_In. symmetry. apply in_rev. Qed.

Lemma parent_not_single seg : seg ≠ DOTDOT → DOTDOT ∉ [seg].
Proof. intros Hne Hin. apply list_elem_of_singleton in Hin. congruence. Qed.

Lemma normStack_app a st xs ys :
  normStack a st (xs ++ ys) = normStack a (normStack a st xs) ys.
Proof.
  revert st. induction xs as [|x xs IH]; intros st; simpl; [done|].
  repeat case_decide; try apply IH. destruct st as [|top st]; [apply IH|].
  case_decide; apply IH.
Qed.

Lemma normStack_no_parent a st ys :
  DOTDOT ∉ ys → normStack a st ys = rev (cleanSegs ys) ++ st.
Proof.
  revert st. induction ys as [|y ys IH]; intros st Hys; simpl; [done|].
  apply not_elem_of_cons in Hys as [Hy Hys].
  case_decide as Hskip.
  - rewrite bool_decide_true by done. simpl. by apply IH.
  - rewrite bool_decide_false by done. simpl.
    case_decide; [done|]. rewrite IH by done. by rewrite <- app_assoc.
Qed.

Lemma cleanSegs_no_parent ys : DOTDOT ∉ ys → DOTDOT ∉ cleanSegs ys.
Proof.
  intros Hys Hin. apply Hys. unfold cleanSegs in Hin.
  apply list_elem_of_In, filter_In in Hin as [Hin _]. by apply list_elem_of_In.
Qed.

Lemma stackOk_nil : stackOk [].
Proof. exists 0, []. split; [done|set_solver]. Qed.

Lemma normStack_stackOk st segs :
  stackOk st → stackOk (normStack true st segs).
Proof.
  revert st. induction segs as [|seg segs IH]; intros st Hst; simpl; [done|].
  case_decide; [by apply IH|].
  destruct Hst as (k & rest & -> & Hrest).
  case_decide as Hdd.
  - destruct rest as [|top rest]; simpl.
    + destruct k as [|k]; simpl.
      * apply IH. exists 1, []. split; [done|set_solver].
      * apply IH. exists (S (S k)), []. split; [done|set_solver].
    + apply not_elem_of_cons in Hrest as [Htop Hrest].
      rewrite decide_False by done. apply IH. by exists k, rest.
  - apply IH. exists k, (seg :: rest). split; [done|].
    apply not_elem_of_cons. by split.
Qed.

Lemma normStack_segs_ok a st segs seg :
  seg ∈ normStack a st segs → seg ∈ st ∨ (seg ∈ segs ∧ seg ≠ []).
Proof.
  revert st. induction segs as [|x segs IH]; intros st Hin; simpl in Hin; [by left|].
  case_decide as Hskip.
  { destruct (IH _ Hin) as [?|[? ?]]; [by left|right; split; [by right|done]]. }
  case_decide as Hdd.
  - assert (x ≠ []) by (by subst x).
    destruct st as [|top st].
    + destruct (IH _ Hin) as [Hst|[? ?]]; [|right; split; [by right|done]].
      destruct a; [|by left].
      apply list_elem_of_singleton in Hst as ->. right. split; [rewrite Hdd; by left|done].
    + case_decide.
      * destruct (IH _ Hin) as [Hst|[? ?]]; [|right; split; [by right|done]].
        destruct a; [|by left].
        apply elem_of_cons in Hst as [->|Hst]; [|by left].
        right. split; [rewrite Hdd; by left|done].
      * destruct (IH _ Hin) as [Hst|[? ?]]; [left; by right|right; split; [by right|done]].
  - destruct (IH _ Hin) as [Hst|[? ?]]; [|right; split; [by right|done]].
    apply elem_of_cons in Hst as [->|Hst]; [|by left].
    right. split; [by left|]. tauto.
Qed.

Lemma normSegments_ok p seg :
  seg ∈ normSegments p → seg ≠ [] ∧ SLASH ∉ seg.
Proof.
  unfold normSegments. rewrite elem_of_rev. intros Hin.
  apply normStack_segs_ok in Hin as [Hin|[Hin Hne]]; [set_solver|].
  split; [done|]. by eapply split_on_segs_sepfree.
Qed.

End PathFacts.

(** ** Sanitised paths stay inside the project directory *)

Module SanitizeFacts.
Import Path BuildManager PathInvariants PathFacts.

Lemma strip_cases s :
  (∃ s', s = DOT :: DOT :: SLASH :: s' ∧ stripLeadingParents s = stripLeadingParents s')
  ∨ (∃ s', s = DOT :: DOT :: BACKSLASH :: s' ∧ stripLeadingParents s = stripLeadingParents s')
  ∨ (s = DOTDOT ∧ stripLeadingParents s = [])
  ∨ (stripLeadingParents s = s ∧ s ≠ DOTDOT ∧ ∀ s', s ≠ DOT :: DOT :: SLASH :: s').
Proof.
  assert (Hother : ∀ s0, stripLeadingParents s0 = s0 → s0 ≠ DOTDOT →
            (∀ s', s0 ≠ DOT :: DOT :: SLASH :: s') →
            stripLeadingParents s0 = s0 ∧ s0 ≠ DOTDOT ∧
            ∀ s', s0 ≠ DOT :: DOT :: SLASH :: s') by done.
  destruct s as [|a [|b [|c rest]]].
  - do 3 right. by apply Hother.
  - do 3 right. by apply Hother.
  - destruct (decide (a = DOT)) as [->|Ha], (decide (b = DOT)) as [->|Hb].
    + right; right; left. done.
    + do 3 right. apply Hother; [|unfold DOTDOT; congruence|done].
      simpl. apply N.eqb_neq in Hb. by rewrite Hb.
    + do 3 right. apply Hother; [|unfold DOTDOT; congruence|done].
      simpl. apply N.eqb_neq in Ha. by rewrite Ha.
    + do 3 right. apply Hother; [|unfold DOTDOT; congruence|done].
      simpl. apply N.eqb_neq in Ha. by rewrite Ha.
  - destruct (decide (a = DOT)) as [->|Ha].
    2:{ do 3 right. apply Hother; [|done|intros; congruence].
        simpl. apply N.eqb_neq in Ha. by rewrite Ha. }
    destruct (decide (b = DOT)) as [->|Hb].
    2:{ do 3 right. apply Hother; [|done|intros; congruence].
        simpl. apply N.eqb_neq in Hb. by rewrite Hb. }
    destruct (decide (c = SLASH)) as [->|Hc]; [left; by exists rest|].
    destruct (decide (c = BACKSLASH)) as [->|Hc']; [right; left; by exists rest|].
    do 3 right. apply Hother; [|done|intros; congruence].
    simpl. apply N.eqb_neq in Hc, Hc'. by rewrite Hc, Hc'.
Qed.

Lemma split_parent_slash s :
  split_on SLASH (DOT :: DOT :: SLASH :: s) = DOTDOT :: split_on SLASH s.
Proof.
  change (DOT :: DOT :: SLASH :: s) with (DOTDOT ++ SLASH :: s).
  by rewrite split_on_app.
Qed.

Lemma split_parent_backslash s :
  ∃ seg segs, split_on SLASH s = seg :: segs ∧
    split_on SLASH (DOT :: DOT :: BACKSLASH :: s) = (DOT :: DOT :: BACKSLASH :: seg) :: segs.
Proof.
  destruct (split_on SLASH s) as [|seg segs] eqn:E; [by apply split_on_nonempty in E|].
  exists seg, segs. split; [done|]. simpl. by rewrite E.
Qed.

Lemma parentsLead_head_parent s tl :
  split_on SLASH s = DOTDOT :: tl →
  s = DOTDOT ∨ ∃ s', s = DOT :: DOT :: SLASH :: s'.
Proof.
  intros Hs. apply split_on_head in Hs as [[? ->]|(s' & -> & ?)]; [by left|right; by exists s'].
Qed.

Lemma strip_no_parent_len n s :
  length s ≤ n → parentsLead s → DOTDOT ∉ split_on SLASH (stripLeadingParents s).
Proof.
  revert s. induction n as [|n IH]; intros s Hlen HQ.
  { destruct s; [|simpl in Hlen; lia]. simpl. by apply parent_not_single. }
  destruct (strip_cases s) as [(s' & -> & ->)|[(s' & -> & ->)|[[-> ->]|(-> & Hne & Hns)]]].
  - apply IH; [simpl in Hlen; lia|].
    destruct HQ as (k & rest & Hsplit & Hrest).
    rewrite split_parent_slash in Hsplit.
    destruct k as [|k]; simpl in Hsplit.
    + subst rest. set_solver.
    + injection Hsplit as Hsplit. by exists k, rest.
  - apply IH; [simpl in Hlen; lia|].
    destruct HQ as (k & rest & Hsplit & Hrest).
    destruct (split_parent_backslash s') as (seg & segs & Hs' & Hfull).
    rewrite Hfull in Hsplit.
    destruct k as [|k]; simpl in Hsplit; [|done].
    subst rest. apply not_elem_of_cons in Hrest as [_ Hsegs].
    unfold parentsLead. rewrite Hs'. destruct (decide (seg = DOTDOT)) as [->|Hseg].
    + by exists 1, segs.
    + exists 0, (seg :: segs). split; [done|]. apply not_elem_of_cons. by split.
  - simpl. by apply parent_not_single.
  - destruct HQ as (k & rest & Hsplit & Hrest).
    destruct k as [|k]; simpl in Hsplit; [by rewrite Hsplit|].
    apply parentsLead_head_parent in Hsplit as [?|[s' ?]]; [done|by destruct (Hns s')].
Qed.

Lemma strip_no_parent s :
  parentsLead s → DOTDOT ∉ split_on SLASH (stripLeadingParents s).
Proof. by apply (strip_no_parent_len (length s)). Qed.

(** What [path.normalize] returns, seen through its segments. *)
Lemma normalize_split p :
  p ≠ [] →
  ∃ pre post,
    split_on SLASH (normalize p) = pre ++ (normSegments p ++ post)
    ∧ Forall (λ seg, seg = []) pre
    ∧ Forall (λ seg, seg = [] ∨ seg = [DOT]) post
    ∧ (isAbsolute p = false → pre = []).
Proof.
  intros Hp. destruct p as [|c p]; [done|]. unfold normalize.
  set (q := c :: p).
  destruct (normSegments q) as [|seg segs] eqn:Hsegs.
  - destruct (isAbsolute q) eqn:Habs; [|destruct (trailingSeparator q)].
    + exists [[]], [[]]. repeat split; auto. done.
    + exists [], [[DOT]; []]. repeat split; auto.
    + exists [], [[DOT]]. repeat split; auto.
  - assert (Hfree : Forall (λ s, SLASH ∉ s) (seg :: segs)).
    { apply Forall_forall. intros s Hs. rewrite <- Hsegs in Hs.
      by apply normSegments_ok in Hs as [_ ?]. }
    assert (Hjoin : split_on SLASH (join_with SLASH (seg :: segs)) = seg :: segs)
      by (by apply split_on_join).
    destruct (isAbsolute q) eqn:Habs, (trailingSeparator q).
    + exists [[]], [[]]. rewrite split_on_cons_eq, split_on_snoc, Hjoin.
      repeat split; auto. done.
    + exists [[]], []. rewrite split_on_cons_eq, Hjoin, app_nil_r.
      repeat split; auto. done.
    + exists [], [[]]. rewrite split_on_snoc, Hjoin. repeat split; auto.
    + exists [], []. rewrite Hjoin, app_nil_r. repeat split; auto.
Qed.

Lemma normalize_isAbsolute p : p ≠ [] → isAbsolute (normalize p) = isAbsolute p.
Proof.
  intros Hp. destruct p as [|c p]; [done|]. unfold normalize.
  set (q := c :: p).
  destruct (normSegments q) as [|seg segs] eqn:Hsegs.
  - destruct (isAbsolute q); [done|]. by destruct (trailingSeparator q).
  - destruct (isAbsolute q) eqn:Habs; [done|].
    assert (Hseg : seg ≠ [] ∧ SLASH ∉ seg).
    { apply (normSegments_ok q). rewrite Hsegs. by left. }
    destruct Hseg as [Hne Hfree]. destruct seg as [|d seg]; [done|].
    assert (d ≠ SLASH) by set_solver.
    assert (Hd : (d =? SLASH)%N = false) by (by apply N.eqb_neq).
    destruct (trailingSeparator q), segs; simpl; by rewrite Hd.
Qed.

(** A relative path is normalised with its [..] segments in front. *)
Lemma normalize_parentsLead p : isAbsolute p = false → parentsLead (normalize p).
Proof.
  intros Habs. destruct (decide (p = [])) as [->|Hp].
  { exists 0, [[DOT]]. split; [done|]. by apply parent_not_single. }
  destruct (normalize_split p Hp) as (pre & post & Hsplit & _ & Hpost & Hpre).
  rewrite (Hpre Habs) in Hsplit. simpl in Hsplit.
  assert (Hok : stackOk (normStack true [] (split_on SLASH p)))
    by apply normStack_stackOk, stackOk_nil.
  destruct Hok as (k & rest & Hst & Hrest).
  exists k, (rev rest ++ post). split.
  - rewrite Hsplit. unfold normSegments. rewrite Habs. simpl. rewrite Hst.
    rewrite rev_app_distr, <- app_assoc. f_equal.
    clear. induction k as [|k IH]; [done|]. simpl. rewrite IH.
    clear. induction k as [|k IH]; [done|]. simpl. by rewrite <- IH.
  - rewrite not_elem_of_app, elem_of_rev. split; [done|].
    intros Hin. eapply Forall_forall in Hpost; [|exact Hin].
    by destruct Hpost.
Qed.

Lemma safePath_no_parent filePath :
  isAbsolute filePath = false → DOTDOT ∉ split_on SLASH (safePathOf filePath).
Proof. intros Habs. by apply strip_no_parent, normalize_parentsLead. Qed.

End SanitizeFacts.

Module ContainFacts.
Import Path BuildManager PathInvariants PathFacts SanitizeFacts.

Lemma startsWith_slash s : startsWith s [SLASH] = isAbsolute s.
Proof.
  destruct s as [|c s]; [done|].
  change (startsWith (c :: s) [SLASH]) with ((SLASH =? c)%N && startsWith s []).
  rewrite N.eqb_sym. unfold isAbsolute. destruct (c =? SLASH)%N; [|done]. by destruct s.
Qed.

Lemma strip_absolute s : isAbsolute s = true → stripLeadingParents s = s.
Proof.
  destruct s as [|a [|b [|c rest]]]; simpl; try done.
  - intros ->%N.eqb_eq. done.
  - intros ->%N.eqb_eq. done.
Qed.

Lemma segments_app xs ys :
  List.filter (λ seg : list N, negb (bool_decide (seg = []))) (xs ++ ys)
  = List.filter (λ seg, negb (bool_decide (seg = []))) xs
    ++ List.filter (λ seg, negb (bool_decide (seg = []))) ys.
Proof. apply List.filter_app. Qed.

Lemma filter_all_empty (xs : list (list N)) :
  Forall (λ seg, seg = []) xs →
  List.filter (λ seg, negb (bool_decide (seg = []))) xs = [].
Proof.
  induction 1 as [|x xs -> _ IH]; [done|]. simpl. by rewrite IH.
Qed.

Lemma filter_all_nonempty (xs : list (list N)) :
  Forall (λ seg, seg ≠ []) xs →
  List.filter (λ seg, negb (bool_decide (seg = []))) xs = xs.
Proof.
  induction 1 as [|x xs Hx _ IH]; [done|]. simpl.
  rewrite bool_decide_false by done. simpl. by rewrite IH.
Qed.

(** The segments of a normalised path are those the normalisation kept,
    possibly followed by the [.] that stands for an empty result. *)
Lemma segments_normalize p :
  p ≠ [] →
  ∃ extra, segments (normalize p) = normSegments p ++ extra ∧ DOTDOT ∉ extra.
Proof.
  intros Hp. destruct (normalize_split p Hp) as (pre & post & Hsplit & Hpre & Hpost & _).
  exists (List.filter (λ seg, negb (bool_decide (seg = []))) post). split.
  - unfold segments. rewrite Hsplit, !segments_app.
    rewrite (filter_all_empty pre Hpre). simpl. f_equal.
    apply filter_all_nonempty, Forall_forall. intros seg Hin.
    by apply normSegments_ok in Hin as [? _].
  - intros Hin. apply list_elem_of_In, filter_In in Hin as [Hin _].
    apply list_elem_of_In in Hin.
    eapply Forall_forall in Hpost; [|exact Hin]. by destruct Hpost.
Qed.

Lemma normSegments_nil : normSegments [] = [].
Proof. reflexivity. Qed.

Lemma normSegments_relative_clean safe :
  isAbsolute safe = false → DOTDOT ∉ split_on SLASH safe →
  normSegments safe = cleanSegs (split_on SLASH safe).
Proof.
  intros Habs Hno. unfold normSegments.
  rewrite normStack_no_parent by done.
  by rewrite app_nil_r, rev_involutive.
Qed.

Lemma normSegments_under dir safe :
  dir ≠ [] → DOTDOT ∉ split_on SLASH safe →
  normSegments (dir ++ SLASH :: safe)
  = normSegments dir ++ cleanSegs (split_on SLASH safe).
Proof.
  intros Hdir Hno. unfold normSegments.
  assert (Habs : isAbsolute (dir ++ SLASH :: safe) = isAbsolute dir)
    by (by destruct dir).
  rewrite Habs, split_on_app, normStack_app, (normStack_no_parent _ _ _ Hno).
  by rewrite rev_app_distr, rev_involutive.
Qed.

Lemma join_inside dir safe :
  isAbsolute safe = false → DOTDOT ∉ split_on SLASH safe →
  insideDir dir (join [dir; safe]).
Proof.
  intros Habs Hno. unfold insideDir.
  destruct dir as [|d dir], safe as [|c safe].
  - split; [done|]. exists [[DOT]]. split; [done|]. by apply parent_not_single.
  - change (join [[]; c :: safe]) with (normalize (c :: safe)).
    rewrite normalize_isAbsolute by done. split; [done|].
    destruct (segments_normalize (c :: safe)) as (extra & -> & Hextra); [done|].
    rewrite normSegments_relative_clean by done.
    exists (cleanSegs (split_on SLASH (c :: safe)) ++ extra). split; [done|].
    apply not_elem_of_app. split; [by apply cleanSegs_no_parent|done].
  - change (join [d :: dir; []]) with (normalize (d :: dir)).
    rewrite normalize_isAbsolute by done. split; [done|].
    destruct (segments_normalize (d :: dir)) as (extra & -> & Hextra); [done|].
    by exists extra.
  - change (join [d :: dir; c :: safe])
      with (normalize ((d :: dir) ++ SLASH :: c :: safe)).
    rewrite normalize_isAbsolute by done. split; [done|].
    destruct (segments_normalize ((d :: dir) ++ SLASH :: c :: safe))
      as (extra & -> & Hextra); [done|].
    rewrite normSegments_under by done.
    exists (cleanSegs (split_on SLASH (c :: safe)) ++ extra).
    split; [by rewrite app_assoc|].
    apply not_elem_of_app. split; [by apply cleanSegs_no_parent|done].
Qed.

Lemma sanitize_relative projectDir filePath fullPath :
  sanitize projectDir filePath = Some fullPath → isAbsolute filePath = false.
Proof.
  unfold sanitize, safePathOf. intros Hs.
  destruct (isAbsolute filePath) eqn:Habs; [|done].
  assert (filePath ≠ []) as Hne by (by destruct filePath).
  pose proof (normalize_isAbsolute filePath Hne) as Hn. rewrite Habs in Hn.
  rewrite (strip_absolute _ Hn), startsWith_slash, Hn in Hs. done.
Qed.

Lemma sanitize_inside projectDir filePath fullPath :
  sanitize projectDir filePath = Some fullPath → insideDir projectDir fullPath.
Proof.
  intros Hs. pose proof (sanitize_relative _ _ _ Hs) as Hrel.
  unfold sanitize in Hs.
  destruct (startsWith (safePathOf filePath) [SLASH]) eqn:Hstart; [done|].
  destruct (includes (safePathOf filePath) [NUL]); [done|].
  injection Hs as <-. apply join_inside.
  - by rewrite <- startsWith_slash.
  - by apply safePath_no_parent.
Qed.

Lemma sanitize_absolute projectDir filePath :
  isAbsolute filePath = true → sanitize projectDir filePath = None.
Proof.
  intros Habs. destruct (sanitize projectDir filePath) eqn:Hs; [|done].
  apply sanitize_relative in Hs. congruence.
Qed.

End ContainFacts.

(** ** [createProjectFromFiles] writes inside the project directory *)

Module CreateProjectFacts.
Import Path BuildManager PathInvariants PathFacts SanitizeFacts ContainFacts.

Section WithFS.
Context {S : Type} `{FileSystem S}.

Lemma writeEntries_inside projectDir entries (fs : S) written :
  Forall (insideDir projectDir) written →
  Forall (insideDir projectDir) (wr_written (writeEntries projectDir entries fs written)).
Proof.
  revert fs written. induction entries as [|[filePath content] rest IH];
    intros fs written Hw; simpl; [done|].
  destruct (sanitize projectDir filePath) as [fullPath|] eqn:Hs; [|done].
  destruct (fs_mkdir fs (dirname fullPath)) as [fs1 [|]]; [|done].
  destruct (fs_writeFile fs1 fullPath content) as [fs2 [|]]; [|done].
  apply IH. apply Forall_app. split; [done|].
  apply Forall_singleton. by eapply sanitize_inside.
Qed.

Lemma writeEntries_written_grows projectDir entries (fs : S) written :
  length written ≤ length (wr_written (writeEntries projectDir entries fs written))
  ≤ length written + length entries.
Proof.
  revert fs written. induction entries as [|[filePath content] rest IH];
    intros fs written; simpl; [lia|].
  destruct (sanitize projectDir filePath) as [fullPath|]; [|simpl; lia].
  destruct (fs_mkdir fs (dirname fullPath)) as [fs1 [|]]; [|simpl; lia].
  destruct (fs_writeFile fs1 fullPath content) as [fs2 [|]]; [|simpl; lia].
  specialize (IH fs2 (written ++ [fullPath])). rewrite length_app in IH. simpl in IH. lia.
Qed.

(** An entry that does not pass the check stops the loop: it throws, and
    neither that entry nor a later one is written. *)
Lemma writeEntries_invalid projectDir pre filePath content post (fs : S) written :
  sanitize projectDir filePath = None →
  let r := writeEntries projectDir (pre ++ (filePath, content) :: post) fs written in
  wr_thrown r ≠ None ∧ length (wr_written r) ≤ length written + length pre.
Proof.
  intros Hbad. revert fs written. induction pre as [|[p c] pre IH]; intros fs written; simpl.
  - rewrite Hbad. simpl. split; [done|lia].
  - destruct (sanitize projectDir p) as [fullPath|]; [|simpl; split; [done|lia]].
    destruct (fs_mkdir fs (dirname fullPath)) as [fs1 [|]]; [|simpl; split; [done|lia]].
    destruct (fs_writeFile fs1 fullPath c) as [fs2 [|]]; [|simpl; split; [done|lia]].
    destruct (IH fs2 (written ++ [fullPath])) as [Hthrown Hlen].
    split; [done|]. rewrite length_app in Hlen. simpl in Hlen. lia.
Qed.

(** When the loop reaches the entry, the exception names it. *)
Lemma writeEntries_invalid_here projectDir filePath content post (fs : S) written :
  sanitize projectDir filePath = None →
  writeEntries projectDir ((filePath, content) :: post) fs written
  = mkWriteResult fs written (Some (InvalidFilePath filePath)).
Proof. intros Hbad. simpl. by rewrite Hbad. Qed.

End WithFS.

Lemma sanitize_rejects projectDir filePath :
  isAbsolute filePath = true ∨ includes (safePathOf filePath) [NUL] = true →
  sanitize projectDir filePath = None.
Proof.
  intros [Habs|Hnul]; [by apply sanitize_absolute|].
  unfold sanitize. rewrite Hnul. by rewrite orb_true_r.
Qed.

End CreateProjectFacts.

Module C10.
Import Path BuildManager ContainFacts CreateProjectFacts.

(** C10, as stated, fails: a path holding a NUL byte in a segment that
    [..] cancels is accepted, no error is raised, and the file is written
    (inside the project directory). *)
Lemma createProject_nul_counterexample :
  let filePath := js "a" ++ [NUL] ++ js "/../b.txt" in
  let r := createProjectFromFiles (js "uploads/id") (js "builds/id")
             [(filePath, js "x")] (∅ : gmap (list N) (list N)) in
  includes filePath [NUL] = true
  ∧ wr_thrown r = None
  ∧ wr_written r = [js "uploads/id/b.txt"].
Proof. vm_compute. done. Qed.

(** C10, amended: every location handed to [fs.writeFile] and written lies
    inside the project directory; an entry whose path is absolute, or whose
    normalised and stripped path holds a NUL byte, makes the call throw, and
    neither it nor a later entry is written. *)
Theorem createProject_contained {S : Type} `{FileSystem S}
  (projectDir outputDir : list N) (files : list (list N * list N)) (fs : S) :
  let r := createProjectFromFiles projectDir outputDir files fs in
  Forall (insideDir projectDir) (wr_written r)
  ∧ ∀ pre filePath content post,
      files = pre ++ (filePath, content) :: post →
      isAbsolute filePath = true ∨ includes (safePathOf filePath) [NUL] = true →
      wr_thrown r ≠ None ∧ length (wr_written r) ≤ length pre.
Proof.
  unfold createProjectFromFiles.
  destruct (fs_mkdir fs projectDir) as [fs1 [|]]; simpl.
  2:{ split; [done|]. intros. split; [done|lia]. }
  destruct (fs_mkdir fs1 outputDir) as [fs2 [|]]; simpl.
  2:{ split; [done|]. intros. split; [done|lia]. }
  split; [by apply writeEntries_inside|].
  intros pre filePath content post -> Hbad.
  apply (writeEntries_invalid projectDir pre filePath content post fs2 []).
  by apply sanitize_rejects.
Qed.

Lemma createProject_contained_witness :
  let files := [(js "Cargo.toml", js "[workspace]"); (js "/etc/passwd", js "x"); (js "late.rs", js "")] in
  let r := createProjectFromFiles (js "uploads/id") (js "builds/id") files
             (∅ : gmap (list N) (list N)) in
  wr_thrown r ≠ None ∧ length (wr_written r) ≤ 1.
Proof.
  apply (createProject_contained (js "uploads/id") (js "builds/id") _ ∅)
    with (pre := [(js "Cargo.toml", js "[workspace]")]) (filePath := js "/etc/passwd")
         (content := js "x") (post := [(js "late.rs", js "")]).
  - reflexivity.
  - left. reflexivity.
Defined.

End C10.

(** ** The double-precision product agrees with the exact comparison *)

Module DoubleFacts.
Import Double.
Local Open Scope Z_scope.

Lemma M07_spec : 10 * M07 = 7 * 2 ^ 53 - 4.
Proof. reflexivity. Qed.

(** The rounded value is a multiple of [2^e] next to the exact one. *)
Lemma round53_bounds n :
  2 ^ 53 <= n →
  let e := Z.log2 n - 52 in
  ∃ q', round53 n = q' * 2 ^ e
        ∧ n - 2 ^ e < q' * 2 ^ e
        ∧ (∀ t, n <= t * 2 ^ e → q' <= t)
        ∧ 0 < e ∧ 2 ^ e * 2 ^ 52 <= n.
Proof.
  intros Hn e.
  assert (Hlog : 53 <= Z.log2 n) by (apply Z.log2_le_pow2; lia).
  assert (He : 0 < e) by (unfold e; lia).
  assert (Hpow : 2 ^ e * 2 ^ 52 <= n).
  { rewrite <- Z.pow_add_r by lia. replace (e + 52) with (Z.log2 n) by (unfold e; lia).
    apply Z.log2_spec. lia. }
  assert (HP : 0 < 2 ^ e) by (apply Z.pow_pos_nonneg; lia).
  unfold round53. fold e. destruct (Z.leb_spec e 0) as [?|_]; [lia|].
  rewrite Z.shiftr_div_pow2, !Z.shiftl_mul_pow2 by lia.
  set (q := n / 2 ^ e). set (r := n - q * 2 ^ e).
  assert (Hdiv : n = 2 ^ e * q + n mod 2 ^ e) by (apply Z.div_mod; lia).
  assert (Hmod : 0 <= n mod 2 ^ e < 2 ^ e) by (apply Z.mod_pos_bound; lia).
  assert (Hr : r = n mod 2 ^ e) by (unfold r; lia).
  assert (Hhalf : 1 * 2 ^ (e - 1) * 2 = 2 ^ e).
  { replace e with ((e - 1) + 1) at 2 by lia. rewrite Z.pow_add_r by lia. lia. }
  set (h := 1 * 2 ^ (e - 1)) in *.
  destruct ((h <? r) || ((r =? h) && Z.odd q)) eqn:Hup.
  - exists (q + 1). split; [done|].
    assert (0 < r).
    { apply orb_true_iff in Hup as [Hlt|Heq].
      - apply Z.ltb_lt in Hlt. lia.
      - apply andb_true_iff in Heq as [Heq _]. apply Z.eqb_eq in Heq. lia. }
    split; [nia|]. split; [|done].
    intros t Ht. assert (q * 2 ^ e < t * 2 ^ e) by lia. nia.
  - exists q. split; [done|]. split; [nia|]. split; [|done].
    intros t Ht. assert (q * 2 ^ e <= t * 2 ^ e) by lia. nia.
Qed.

(** For line counts (array lengths, below [2^32]) the test
    [newLines < existingLines * 0.7] of the source is the exact comparison
    [10 * newLines < 7 * existingLines]. *)
Lemma ltScaled_times07 (existingLines newLines : nat) :
  Z.of_nat existingLines < 2 ^ 32 →
  ltScaled newLines (times07 existingLines) = true
  ↔ 10 * Z.of_nat newLines < 7 * Z.of_nat existingLines.
Proof.
  intros Hbound. unfold ltScaled, times07.
  set (L := Z.of_nat existingLines) in *. set (L' := Z.of_nat newLines).
  assert (0 <= L) by (unfold L; lia). assert (0 <= L') by (unfold L'; lia).
  pose proof M07_spec as HM. set (n := L * M07).
  rewrite Z.ltb_lt.
  destruct (Z.lt_ge_cases n (2 ^ 53)) as [Hsmall|Hbig].
  - assert (Hid : round53 n = n).
    { unfold round53. destruct (Z.leb_spec (Z.log2 n - 52) 0) as [|Hgt]; [done|].
      assert (53 <= Z.log2 n) by lia.
      assert (0 < n) by (destruct (Z.le_gt_cases n 0) as [Hle|]; [|done];
                         rewrite (Z.log2_nonpos n Hle) in *; lia).
      assert (2 ^ 53 <= n); [|lia].
      transitivity (2 ^ Z.log2 n); [apply Z.pow_le_mono_r; lia|apply Z.log2_spec; lia]. }
    rewrite Hid. unfold n. change (2 ^ 53) with 9007199254740992 in *.
    change (2 ^ 32) with 4294967296 in *. unfold M07 in *. lia.
  - destruct (round53_bounds n Hbig) as (q' & -> & Hlow & Hup & He & Hpow).
    set (e := Z.log2 n - 52) in *.
    assert (Hn85 : n < 2 ^ 85).
    { unfold n, M07. change (2 ^ 85) with (2 ^ 32 * 2 ^ 53).
      change (2 ^ 53) with 9007199254740992 in *. nia. }
    assert (He33 : e <= 32).
    { assert (Z.log2 n < 85); [|unfold e; lia]. apply Z.log2_lt_pow2; lia. }
    assert (HP : 0 < 2 ^ e) by (apply Z.pow_pos_nonneg; lia).
    assert (HK : 2 ^ 53 = 2 ^ (53 - e) * 2 ^ e).
    { rewrite <- Z.pow_add_r by lia. f_equal. lia. }
    assert (HPL : 2 ^ e < 2 * L).
    { assert (n < L * 2 ^ 53 + 1) by (unfold n, M07; change (2 ^ 53) with 9007199254740992; lia).
      change (2 ^ 53) with (2 * 2 ^ 52) in *. change (2 ^ 52) with 4503599627370496 in *. nia. }
    split.
    + intros Hlt. destruct (Z.lt_ge_cases (10 * L') (7 * L)) as [|Hge]; [done|exfalso].
      assert (Hnle : n <= L' * 2 ^ 53).
      { unfold n. change (2 ^ 53) with 9007199254740992 in *. unfold M07 in *. lia. }
      rewrite HK, Z.mul_assoc in Hnle.
      specialize (Hup _ Hnle).
      assert (q' * 2 ^ e <= L' * 2 ^ (53 - e) * 2 ^ e) by nia.
      rewrite <- Z.mul_assoc, <- HK in *. lia.
    + intros Hlt.
      assert (10 * (L' * 2 ^ 53) <= 10 * n + 4 * L - 2 ^ 53).
      { unfold n. change (2 ^ 53) with 9007199254740992 in *. unfold M07 in *. lia. }
      change (2 ^ 32) with 4294967296 in *.
      change (2 ^ 53) with 9007199254740992 in *. lia.
Qed.

End DoubleFacts.

(** ** The regression guard and the phase rules of [applySafeFixes] *)

Module ValidatorFacts.
Import Path Regex Validator Ai ValidatorInvariants.


Section WithFS.
Context {S : Type} `{FileSystem S}.













End WithFS.
End ValidatorFacts.

Module C9.
Import Path Validator.

(** C9: when the existing file cannot be read, [validateRsFixSafety]
    answers [{ safe: true, reason: null }]: neither the construct counts
    nor the line counts are compared. *)
Theorem unreadable_file_passes {S : Type} `{FileSystem S}
  (fs : S) (projectDir : list N) (fx : Fix) :
  fs_readFile fs (join [projectDir; fix_path fx]) = None →
  validateRsFixSafety fs projectDir fx = mkValidation true None.
Proof. intros Hread. unfold validateRsFixSafety. by rewrite Hread. Qed.

Lemma unreadable_file_passes_witness :
  validateRsFixSafety (∅ : gmap (list N) (list N)) (js "uploads/id")
    (mkFix (js "update") (js "src/lib.rs") (js "") (js "empty it"))
  = mkValidation true None.
Proof. apply unreadable_file_passes. reflexivity. Defined.

End C9.

Module C3.
Import Path Regex Validator DoubleFacts.

Lemma compareContents_spec existingContent newContent :
  (Z.of_nat (lineCount existingContent) < 2 ^ 32)%Z →
  safe (compareContents existingContent newContent) = false
  ↔ (countPattern newContent reFn < countPattern existingContent reFn
     ∨ countPattern newContent reStruct < countPattern existingContent reStruct
     ∨ countPattern newContent reEnum < countPattern existingContent reEnum
     ∨ countPattern newContent reImpl < countPattern existingContent reImpl
     ∨ (10 < lineCount existingContent
        ∧ 10 * lineCount newContent < 7 * lineCount existingContent)).
Proof.
  intros Hbound. unfold compareContents.
  destruct (Nat.ltb_spec (countPattern newContent reFn) (countPattern existingContent reFn));
    [simpl; tauto|].
  destruct (Nat.ltb_spec (countPattern newContent reStruct) (countPattern existingContent reStruct));
    [simpl; tauto|].
  destruct (Nat.ltb_spec (countPattern newContent reEnum) (countPattern existingContent reEnum));
    [simpl; tauto|].
  destruct (Nat.ltb_spec (countPattern newContent reImpl) (countPattern existingContent reImpl));
    [simpl; tauto|].
  destruct (Nat.ltb_spec 10 (lineCount existingContent)) as [Hlong|Hshort]; simpl.
  - destruct (Double.ltScaled _ _) eqn:Hlt; simpl.
    + split; [|done]. intros _. do 4 right. split; [done|].
      apply (ltScaled_times07 _ _ Hbound) in Hlt. lia.
    + split; [done|]. intros [?|[?|[?|[?|[_ Hshrink]]]]]; try lia.
      assert (Double.ltScaled (lineCount newContent)
                (Double.times07 (lineCount existingContent)) = true) as Hyes
        by (apply (ltScaled_times07 _ _ Hbound); lia).
      congruence.
  - split; [done|]. intros [?|[?|[?|[?|[? _]]]]]; lia.
Qed.

(** C3: for an existing file with counts (F, S, E, I) and L lines, and a
    replacement with counts (F', S', E', I') and L' lines, the guard
    rejects exactly when one of F' < F, S' < S, E' < E, I' < I holds, or
    L > 10 and L' < 0.7 L; every other replacement is accepted.  (The
    number of lines is the length of an array, hence below [2^32].) *)
Theorem regression_guard {S : Type} `{FileSystem S}
  (fs : S) (projectDir : list N) (fx : Fix) (existingContent : list N) :
  fs_readFile fs (join [projectDir; fix_path fx]) = Some existingContent →
  (Z.of_nat (lineCount existingContent) < 2 ^ 32)%Z →
  let newContent := fix_content fx in
  safe (validateRsFixSafety fs projectDir fx) = false
  ↔ (countPattern newContent reFn < countPattern existingContent reFn
     ∨ countPattern newContent reStruct < countPattern existingContent reStruct
     ∨ countPattern newContent reEnum < countPattern existingContent reEnum
     ∨ countPattern newContent reImpl < countPattern existingContent reImpl
     ∨ (10 < lineCount existingContent
        ∧ 10 * lineCount newContent < 7 * lineCount existingContent)).
Proof.
  intros Hread Hbound newContent. unfold validateRsFixSafety. rewrite Hread.
  by apply compareContents_spec.
Qed.

Lemma regression_guard_witness :
  let existing := js "pub fn a() {}" ++ [NEWLINE] ++ js "fn b() {}" in
  let fs : gmap (list N) (list N) := {[ js "uploads/id/src/lib.rs" := existing ]} in
  let fx := mkFix (js "update") (js "src/lib.rs") (js "pub fn a() {}") (js "simplify") in
  safe (validateRsFixSafety fs (js "uploads/id") fx) = false.
Proof.
  intros existing fs fx.
  apply (regression_guard fs (js "uploads/id") fx existing).
  - vm_compute. reflexivity.
  - vm_compute. reflexivity.
  - left. vm_compute. lia.
Defined.

End C3.

Module C2.
Import Path Validator Ai ValidatorInvariants ValidatorFacts.



End C2.

(** ** The orchestrator loop *)

Module LoopFacts.
Import Path Docker PostCheck Validator Ai SmartBuild LoopInvariants.

Lemma evBelow_mono n m e : n ≤ m → evBelow n e → evBelow m e.
Proof. destruct e; simpl; lia. Qed.

Section WithEnv.
Context {S : Type} `{FileSystem S}.
Variable env : Env S.
Variable params : Params.








End WithEnv.
End LoopFacts.

(** ** The sandbox configuration and the check after a build *)

Module C4.
Import Docker.

(** C4, as stated, fails: with the limits of config.js the container is
    created with the default network, not with [none]. *)
Lemma sandbox_network_counterexample :
  let c := containerConfig config_docker (js "anchor-builder:latest")
             (js "/srv/builds/id") (js "") in
  NetworkMode (Host c) = js "default" ∧ NetworkMode (Host c) ≠ js "none".
Proof. split; [reflexivity|]. vm_compute. discriminate. Qed.

(** C4, amended: the configuration that [executeAnchorBuild] hands to the
    container runtime disables networking exactly when
    [config.docker.networkDisabled] is set; the limits of config.js leave
    it unset, so the builds run on the default network. *)
Theorem sandbox_network_follows_config
  (limits : DockerLimits) (dockerImage hostOutputPath anchorSubdir : list N)
  (outcome : ContainerOutcome) :
  let handed :=
    (executeAnchorBuild (λ c, (outcome, c)) limits dockerImage hostOutputPath anchorSubdir).2 in
  handed = containerConfig limits dockerImage hostOutputPath anchorSubdir
  ∧ (NetworkMode (Host handed) = js "none" ↔ networkDisabled limits = true)
  ∧ NetworkMode (Host (containerConfig config_docker dockerImage hostOutputPath anchorSubdir))
    = js "default".
Proof.
  assert ((executeAnchorBuild (λ c, (outcome, c)) limits dockerImage hostOutputPath
             anchorSubdir).2
          = containerConfig limits dockerImage hostOutputPath anchorSubdir) as ->.
  { unfold executeAnchorBuild. by destruct outcome. }
  split_and!; [reflexivity| |reflexivity]. simpl. destruct (networkDisabled limits); [done|].
  split; [|done]. vm_compute. discriminate.
Qed.

End C4.

Module PostCheckFacts.
Import Regex Docker PostCheck.

Lemma verifyBuildArtifacts_spec deployDir :
  verifyBuildArtifacts deployDir = true
  ↔ ∃ (dir : gmap (list N) (list N)) file content,
      deployDir = Some dir ∧ dir !! file = Some content
      ∧ endsWith file (js ".so") = true.
Proof.
  unfold verifyBuildArtifacts, Output.readdir. destruct deployDir as [dir|]; simpl.
  - rewrite existsb_exists. split.
    + intros (file & Hin & Hso). apply list_elem_of_In, list_elem_of_fmap in Hin
        as ([file' content] & -> & Hin).
      apply elem_of_map_to_list in Hin. by exists dir, file', content.
    + intros (dir' & file & content & [= <-] & Hlook & Hso).
      exists file. split; [|done]. apply list_elem_of_In, list_elem_of_fmap.
      exists (file, content). split; [done|]. by apply elem_of_map_to_list.
  - split; [done|]. by intros (? & ? & ? & ? & _).
Qed.

Lemma detectBuildErrorsInLogs_spec l :
  detectBuildErrorsInLogs l = false
  ↔ ∀ re, re ∈ knownErrorPatterns → test re (stdout l ++ [NEWLINE] ++ stderr l) = false.
Proof.
  unfold detectBuildErrorsInLogs, knownErrorPatterns.
  set (combined := stdout l ++ [NEWLINE] ++ stderr l). split.
  - intros Hd re Hin.
    destruct (test reErrorCode combined) eqn:H1; [done|].
    destruct (test reAborting combined) eqn:H2; [done|].
    destruct (test reCargoBuild combined) eqn:H3; [done|].
    destruct (test reMetadata combined) eqn:H4; [done|].
    destruct (test reNoLibrary combined) eqn:H5; [done|].
    repeat (apply elem_of_cons in Hin as [->|Hin]; [done|]).
    by apply not_elem_of_nil in Hin.
  - intros Hall.
    rewrite !Hall; [done|..]; repeat constructor.
Qed.

End PostCheckFacts.

Module C7.
Import Regex Docker PostCheck SmartBuild PostCheckFacts.

(** C7: when the container exits with code zero, the attempt counts as a
    success only if the deploy directory holds a [.so] file and the
    combined log matches none of the known error patterns; then the loop
    returns a success with [iterations = i + 1].  Otherwise the result kept
    in [lastBuildResult] has [success = false] although its exit code is
    zero, and the loop goes on to the next turn. *)
Theorem zero_exit_is_checked {S : Type} `{FileSystem S}
  (env : Env S) (params : Params) (iteration : nat) (st : LoopState S)
  (l : Logs) (deploy : option (gmap (list N) (list N))) :
  let artifactFound :=
    ∃ (dir : gmap (list N) (list N)) file content,
      deploy = Some dir ∧ dir !! file = Some content ∧ endsWith file (js ".so") = true in
  let logClean :=
    ∀ re, re ∈ knownErrorPatterns → test re (stdout l ++ [NEWLINE] ++ stderr l) = false in
  env_container env iteration (ls_fs st)
    (containerConfig (limits params) (dockerImage params) (hostOutputPath params)
       (env_anchorSubdir env (ls_fs st)))
  = (Exited 0 l, deploy) →
  (artifactFound ∧ logClean →
     ∃ r st', buildPhase env params iteration st = Return r st'
              ∧ sb_success r = true ∧ iterations r = iteration + 1)
  ∧ (¬ (artifactFound ∧ logClean) →
     ∃ st' b, buildPhase env params iteration st = Continue st'
              ∧ lastBuildResult st' = Some b
              ∧ success b = false ∧ exitCode b = Some 0%Z).
Proof.
  intros artifactFound logClean Hrun.
  assert (Hart : verifyBuildArtifacts deploy = true ↔ artifactFound)
    by apply verifyBuildArtifacts_spec.
  assert (Hlog : detectBuildErrorsInLogs l = false ↔ logClean)
    by apply detectBuildErrorsInLogs_spec.
  unfold buildPhase, executeAnchorBuild. rewrite Hrun. simpl.
  unfold postCheck. simpl.
  destruct (verifyBuildArtifacts deploy) eqn:Hv, (detectBuildErrorsInLogs l) eqn:Hd; simpl.
  - split.
    + intros [_ Hc]. apply Hlog in Hc. done.
    + intros _. destruct (iteration + 1 <? MAX_ITERATIONS params); by eexists _, _.
  - split.
    + intros _. by eexists _, _.
    + intros Hno. destruct Hno. split; [by apply Hart|by apply Hlog].
  - split.
    + intros [Ha _]. apply Hart in Ha. done.
    + intros _. destruct (iteration + 1 <? MAX_ITERATIONS params); by eexists _, _.
  - split.
    + intros [Ha _]. apply Hart in Ha. done.
    + intros _. destruct (iteration + 1 <? MAX_ITERATIONS params); by eexists _, _.
Qed.

Lemma zero_exit_is_checked_witness :
  let l := mkLogs (js "error[E0432]: unresolved import") [] in
  let deploy : option (gmap (list N) (list N)) := Some {[ js "prog.so" := [] ]} in
  let env := Scenario.scriptedEnv (Exited 0 l) deploy (inr []) in
  ∃ st' b, buildPhase env (Scenario.scriptedParams 8) 0 (initial ∅ None) = Continue st'
           ∧ lastBuildResult st' = Some b
           ∧ success b = false ∧ exitCode b = Some 0%Z.
Proof.
  intros l deploy env.
  apply (zero_exit_is_checked env (Scenario.scriptedParams 8) 0 (initial ∅ None) l deploy).
  - reflexivity.
  - intros [_ Hclean]. specialize (Hclean reErrorCode).
    assert (test reErrorCode (stdout l ++ [NEWLINE] ++ stderr l) = true) as Hhit
      by (vm_compute; reflexivity).
    rewrite Hclean in Hhit; [discriminate|]. unfold knownErrorPatterns. left.
Defined.

End C7.

(** ** How the orchestrator ends *)

Module LoopClaims.
Import Docker Ai SmartBuild LoopInvariants LoopFacts.

Section WithEnv.
Context {S : Type} `{FileSystem S}.
Variable env : Env S.
Variable params : Params.





End WithEnv.
End LoopClaims.

Module C6.
Import Docker Ai SmartBuild LoopInvariants LoopFacts LoopClaims.



End C6.

Module C8.
Import Docker Ai SmartBuild LoopInvariants LoopFacts LoopClaims.



End C8.

(** ** Keypairs: delivered in the response, then purged *)

Module KeypairFacts.
Import SmartBuild AgentApi KeypairSpec.

Section WithParser.
Variable parseKeypair : list N → option (list N * list Z).

Lemma keypairOf_filename entry kp :
  keypairOf parseKeypair entry = Some kp → kp_filename kp = entry.1.
Proof.
  destruct entry as [file content]. unfold keypairOf.
  destruct (endsWith file KEYPAIR_SUFFIX); [|done].
  destruct (parseKeypair content) as [[pubkey raw]|]; [|done].
  by intros [= <-].
Qed.





Lemma purge_keeps_absent (keypairs : list Keypair) (dir : gmap (list N) (list N)) name :
  dir !! name = None →
  foldl (λ d kp, (fs_unlink d (kp_filename kp)).1) dir keypairs !! name = None.
Proof.
  revert dir. induction keypairs as [|kp keypairs IH]; intros dir Hnone; [done|].
  simpl. apply IH. destruct (decide (kp_filename kp = name)) as [->|Hne].
  - apply lookup_delete_eq.
  - by rewrite lookup_delete_ne.
Qed.

Lemma purge_removes (keypairs : list Keypair) (dir : gmap (list N) (list N)) kp :
  kp ∈ keypairs →
  foldl (λ d kp, (fs_unlink d (kp_filename kp)).1) dir keypairs !! kp_filename kp = None.
Proof.
  revert dir. induction keypairs as [|kp0 keypairs IH]; intros dir Hin.
  - by apply not_elem_of_nil in Hin.
  - simpl. apply elem_of_cons in Hin as [->|Hin]; [|by apply IH].
    apply purge_keeps_absent. apply lookup_delete_eq.
Qed.

End WithParser.
End KeypairFacts.

Module C5.
Import SmartBuild AgentApi KeypairSpec KeypairFacts.




End C5.

(** ** One build at a time per agent *)

Module GuardFacts.
Import Guard GuardInvariants.

Lemma filter_length_insert {A} (P : A → bool) (l : list A) i x y :
  l !! i = Some x →
  length (List.filter P (<[i := y]> l)) + (if P x then 1 else 0)
  = length (List.filter P l) + (if P y then 1 else 0).
Proof.
  revert i. induction l as [|z l IH]; intros i Hi; [done|].
  destruct i as [|i]; simpl in *.
  - injection Hi as ->. destruct (P x), (P y); simpl; lia.
  - specialize (IH i Hi). destruct (P z); simpl; lia.
Qed.

Lemma runningBuilds_step (s : Server) i r m' pc' agentId :
  requests s !! i = Some r →
  runningBuilds (mkServer m' (<[i := mkRequest (agent r) (route r) pc']> (requests s))) agentId
  + (if isRunning agentId r then 1 else 0)
  = runningBuilds s agentId
    + (if isRunning agentId (mkRequest (agent r) (route r) pc') then 1 else 0).
Proof. intros Hi. unfold runningBuilds. simpl. by apply filter_length_insert. Qed.

Lemma isRunning_other agentId r :
  agent r ≠ agentId → isRunning agentId r = false.
Proof. intros Hne. unfold isRunning. by apply Nat.eqb_neq in Hne as ->. Qed.

Lemma isRunning_responded agentId ag rt status :
  isRunning agentId (mkRequest ag rt (Responded status)) = false.
Proof. unfold isRunning. simpl. apply andb_false_r. Qed.

(** The handler of [POST /project/:buildId/build] checks and locks in one
    piece: the lock is respected. *)
Lemma step_SingleFlight (s : Server) (c : Resume) :
  onlyExisting s → SingleFlight s → onlyExisting (step s c) ∧ SingleFlight (step s c).
Proof.
  intros Hall Hinv. unfold step.
  destruct (requests s !! who c) as [r|] eqn:Hr; [|done].
  assert (Hr' : usesExisting r ∧ pc r ≠ Creating).
  { eapply Forall_forall in Hall; [exact Hall|]. by eapply list_elem_of_lookup_2. }
  destruct Hr' as [Hroute Hpc].
  destruct (resume (activeAgentBuilds s) r c) as [m' pc'] eqn:Hres.
  assert (Hpc' : pc' ≠ Creating).
  { unfold resume in Hres. unfold usesExisting in Hroute.
    destruct (route r); [done|].
    destruct (pc r); [|done|..]; repeat case_match; simplify_eq; done. }
  split.
  { unfold onlyExisting. simpl. apply Forall_insert; [done|]. by split. }
  intros agentId. destruct (Hinv agentId) as [Hle Hzero].
  pose proof (runningBuilds_step s (who c) r m' pc' agentId Hr) as Hcount.
  unfold resume in Hres. unfold usesExisting in Hroute.
  destruct (route r) as [|buildId] eqn:Hrt; [done|].
  destruct (pc r) as [| |running|status] eqn:Hpcr; [| done | |].
  - (* Received *)
    assert (isRunning agentId r = false) as Hnot
      by (unfold isRunning; rewrite Hpcr; apply andb_false_r).
    rewrite Hnot in Hcount.
    unfold getActiveAgentBuild in Hres.
    destruct (activeAgentBuilds s !! agent r) as [held|] eqn:Hheld.
    + injection Hres as <- <-. rewrite isRunning_responded in Hcount. simpl.
      split; [lia|]. intros Hnone. specialize (Hzero Hnone). lia.
    + destruct (refused c) as [status|].
      * injection Hres as <- <-. rewrite isRunning_responded in Hcount. simpl.
        split; [lia|]. intros Hnone. specialize (Hzero Hnone). lia.
      * injection Hres as <- <-. unfold setActiveAgentBuild in *. simpl.
        destruct (decide (agent r = agentId)) as [Heq|Hne].
        -- subst agentId. specialize (Hzero Hheld).
           split; [|by rewrite lookup_insert_eq].
           match type of Hcount with context [if ?b then _ else _] => destruct b end; lia.
        -- rewrite (isRunning_other agentId (mkRequest _ _ _)) in Hcount by done.
           rewrite lookup_insert_ne by done.
           split; [lia|]. intros Hnone. specialize (Hzero Hnone). lia.
  - (* Running *)
    injection Hres as <- <-. unfold clearActiveAgentBuild in *. simpl.
    rewrite isRunning_responded in Hcount.
    destruct (decide (agent r = agentId)) as [Heq|Hne].
    + subst agentId.
      assert (isRunning (agent r) r = true) as Hwas
        by (unfold isRunning; rewrite Hpcr, Nat.eqb_refl; done).
      rewrite Hwas in Hcount. split; [lia|]. intros _. lia.
    + rewrite (isRunning_other agentId r) in Hcount by done.
      rewrite lookup_delete_ne by done.
      split; [lia|]. intros Hnone. specialize (Hzero Hnone). lia.
  - (* Responded *)
    injection Hres as <- <-. simpl.
    assert (isRunning agentId r = false) as Hnot
      by (unfold isRunning; rewrite Hpcr; apply andb_false_r).
    rewrite Hnot, isRunning_responded in Hcount.
    split; [lia|]. intros Hnone. specialize (Hzero Hnone). lia.
Qed.

Lemma run_SingleFlight (s : Server) (schedule : list Resume) :
  onlyExisting s → SingleFlight s →
  onlyExisting (run s schedule) ∧ SingleFlight (run s schedule).
Proof.
  revert s. induction schedule as [|c schedule IH]; intros s Hall Hinv; [done|].
  simpl. destruct (step_SingleFlight s c Hall Hinv) as [Hall' Hinv']. by apply IH.
Qed.

(** Whatever the interleaving, requests that all use the route of an
    existing project never have two builds of one agent running. *)
Lemma existing_route_single_flight (pending : list Request) (schedule : list Resume) agentId :
  Forall (λ r, usesExisting r ∧ pc r = Received) pending →
  runningBuilds (run (mkServer ∅ pending) schedule) agentId ≤ 1.
Proof.
  intros Hpending.
  assert (Hall : onlyExisting (mkServer ∅ pending)).
  { unfold onlyExisting. simpl. eapply Forall_impl; [exact Hpending|].
    intros r [? Hpc]. split; [done|]. by rewrite Hpc. }
  assert (Hinv : SingleFlight (mkServer ∅ pending)).
  { intros a. assert (runningBuilds (mkServer ∅ pending) a = 0) as ->; [|split; [lia|done]].
    unfold runningBuilds. simpl. clear Hall.
    induction Hpending as [|r l [_ Hpc] _ IH]; [done|]. simpl.
    unfold isRunning at 1. rewrite Hpc, andb_false_r. exact IH. }
  destruct (run_SingleFlight _ schedule Hall Hinv) as [_ Hfinal]. apply Hfinal.
Qed.

End GuardFacts.

Module C1.
Import Guard.

(** C1 on the code: two [POST /build] requests of agent 7.  The first
    passes the check and awaits the creation of its project; the second is
    handled meanwhile and passes the check too, the lock being set only
    after the creation; both builds then run together. *)
Theorem one_shot_race :
  let pending := [mkRequest 7 OneShot Received; mkRequest 7 OneShot Received] in
  let schedule := [mkResume 0 None None 100; mkResume 1 None None 101;
                   mkResume 0 None (Some 1) 102; mkResume 1 None (Some 2) 103] in
  let s := run (mkServer ∅ pending) schedule in
  pc <$> requests (run (mkServer ∅ pending) (take 2 schedule)) = [Creating; Creating]
  ∧ pc <$> requests s = [Running 1; Running 2]
  ∧ runningBuilds s 7 = 2.
Proof. split_and!; reflexivity. Qed.

End C1.

(** ** The orchestrator: how much work a run does *)

Module LoopWork.
Import Path Docker PostCheck Validator Ai SmartBuild LoopInvariants LoopMeasures LoopShapes.

Lemma sandboxRuns_app t1 t2 : sandboxRuns (t1 ++ t2) = sandboxRuns t1 + sandboxRuns t2.
Proof. unfold sandboxRuns. by rewrite List.filter_app, length_app. Qed.

Lemma advisorCalls_app t1 t2 : advisorCalls (t1 ++ t2) = advisorCalls t1 + advisorCalls t2.
Proof. unfold advisorCalls. by rewrite List.filter_app, length_app. Qed.

Lemma turnEvents_below it es : turnEvents it es → Forall (evBelow (it + 1)) es.
Proof.
  intros [(-> & p & -> & [->| ->])|(Hit & fr & [->|(_ & _ & p & -> & [->| ->])])];
    repeat constructor; simpl; lia.
Qed.

Lemma turnEvents_counts it es :
  turnEvents it es →
  sandboxRuns es ≤ 1 ∧ advisorCalls es ≤ (if it is 0 then 0 else 1).
Proof.
  intros [(-> & p & -> & [->| ->])|(Hit & fr & [->|(_ & _ & p & -> & [->| ->])])];
    try (cbn; lia); destruct it; try lia; cbn; lia.
Qed.

(** Membership in the calls of one turn. *)
Lemma turnEvents_sandbox it es i :
  turnEvents it es → EvSandbox i ∈ es →
  i = it ∧ (1 ≤ it → ∃ fr, EvAdvisor it fr ∈ es
                           ∧ fr_success fr = true ∧ fr_cannotFix fr = false).
Proof.
  intros [(-> & p & -> & Hp)|(Hit & fr & [->|(Hs & Hc & p & -> & Hp)])] Hin.
  - assert (i = 0) as ->; [|split; [done|lia]].
    destruct Hp as [->| ->]; simpl in Hin;
      repeat (apply elem_of_cons in Hin as [Hin|Hin]; [congruence|]);
      by apply not_elem_of_nil in Hin.
  - apply list_elem_of_singleton in Hin. done.
  - assert (i = it) as ->.
    { destruct Hp as [->| ->]; simpl in Hin;
        repeat (apply elem_of_cons in Hin as [Hin|Hin]; [congruence|]);
        by apply not_elem_of_nil in Hin. }
    split; [done|]. intros _. exists fr. split; [|done]. simpl. by left.
Qed.

Lemma turnEvents_pause it es i : turnEvents it es → EvPause i ∈ es → i = it.
Proof.
  intros [(-> & p & -> & Hp)|(Hit & fr & [->|(Hs & Hc & p & -> & Hp)])] Hin.
  - destruct Hp as [->| ->]; simpl in Hin;
      repeat (apply elem_of_cons in Hin as [Hin|Hin]; [congruence|]);
      by apply not_elem_of_nil in Hin.
  - apply list_elem_of_singleton in Hin. done.
  - destruct Hp as [->| ->]; simpl in Hin;
      repeat (apply elem_of_cons in Hin as [Hin|Hin]; [congruence|]);
      by apply not_elem_of_nil in Hin.
Qed.

Lemma turnEvents_advisor it es i fr :
  turnEvents it es → EvAdvisor i fr ∈ es →
  i = it ∧ (fr_success fr = false → es = [EvAdvisor it fr]).
Proof.
  intros [(-> & p & -> & Hp)|(Hit & fr0 & [->|(Hs & Hc & p & -> & Hp)])] Hin.
  - destruct Hp as [->| ->]; simpl in Hin;
      repeat (apply elem_of_cons in Hin as [Hin|Hin]; [congruence|]);
      by apply not_elem_of_nil in Hin.
  - apply list_elem_of_singleton in Hin. injection Hin as -> ->. done.
  - assert (i = it ∧ fr = fr0) as [-> ->].
    { destruct Hp as [->| ->]; simpl in Hin;
        (apply elem_of_cons in Hin as [Hin|Hin]; [by injection Hin as -> ->|]);
        repeat (apply elem_of_cons in Hin as [Hin|Hin]; [congruence|]);
        by apply not_elem_of_nil in Hin. }
    split; [done|]. congruence.
Qed.

Section WithEnv.
Context {S : Type} `{FileSystem S}.
Variable env : Env S.
Variable params : Params.

(** Reasoning on the loop by an invariant of its turns. *)
Lemma loop_inv (I : nat → LoopState S → Prop)
  (R : option SmartBuildResult → LoopState S → Prop) :
  (∀ it st, I it st → it < MAX_ITERATIONS params →
     match turn env params it st with
     | Continue st' => I (it + 1) st'
     | Return r st' => R (Some r) st'
     | Throw st' => R None st'
     end) →
  (∀ st, I (MAX_ITERATIONS params) st → R (Some (exhausted params st)) st) →
  ∀ remaining it st, it + remaining = MAX_ITERATIONS params → I it st →
    R (loop env params remaining it st).1 (loop env params remaining it st).2.
Proof.
  intros Hturn Hend. induction remaining as [|remaining IH]; intros it st Hsum HI.
  - simpl. apply Hend. by replace (MAX_ITERATIONS params) with it by lia.
  - simpl. specialize (Hturn it st HI ltac:(lia)).
    destruct (turn env params it st) as [r st'|st'|st']; simpl; try done.
    apply IH; [lia|done].
Qed.

(** A usable history stays usable when the calls of one turn are added. *)
Lemma Tidy_extend it (st st' : LoopState S) es :
  Tidy it st → turnEvents it es →
  ls_trace st' = ls_trace st ++ es → lastBuildResult st' ≠ None →
  Tidy (it + 1) st'.
Proof.
  intros (Hb & Hs & Ha & Hfail & Hpair & _) Hes Htrace Hlast.
  destruct (turnEvents_counts it es Hes) as [Hs' Ha'].
  unfold Tidy. rewrite Htrace. split_and!.
  - apply Forall_app. split; [|by apply turnEvents_below].
    eapply Forall_impl; [exact Hb|]. intros e. apply LoopFacts.evBelow_mono. lia.
  - rewrite sandboxRuns_app. lia.
  - rewrite advisorCalls_app. destruct it; lia.
  - intros i fr Hin Hno.
    assert (Hold : ∀ e, e ∈ ls_trace st → evBelow it e)
      by (intros e He; eapply Forall_forall in Hb; [exact Hb|exact He]).
    apply elem_of_app in Hin as [Hin|Hin].
    + destruct (Hfail i fr Hin Hno) as [Hns Hnp].
      pose proof (Hold _ Hin) as Hi. simpl in Hi.
      split; intros Hx; apply elem_of_app in Hx as [Hx|Hx]; try done.
      * apply (turnEvents_sandbox it es i Hes) in Hx as [-> _]. lia.
      * apply (turnEvents_pause it es i Hes) in Hx as ->. lia.
    + destruct (turnEvents_advisor it es i fr Hes Hin) as [-> Hsingle].
      specialize (Hsingle Hno). subst es.
      split; intros Hx; apply elem_of_app in Hx as [Hx|Hx].
      * pose proof (Hold _ Hx) as Hi. simpl in Hi. lia.
      * by apply list_elem_of_singleton in Hx.
      * pose proof (Hold _ Hx) as Hi. simpl in Hi. lia.
      * by apply list_elem_of_singleton in Hx.
  - intros i Hi Hin. apply elem_of_app in Hin as [Hin|Hin].
    + destruct (Hpair i Hi Hin) as (fr & Hfr & ?). exists fr. split; [|done].
      apply elem_of_app. by left.
    + destruct (turnEvents_sandbox it es i Hes Hin) as [-> Hfr].
      destruct (Hfr Hi) as (fr & Hfr' & ?). exists fr. split; [|done].
      apply elem_of_app. by right.
  - by right.
Qed.

(** What one turn adds to the history. *)
Lemma buildPhase_events it (st : LoopState S) :
  ∃ p, pauseAfter it p ∧
    match buildPhase env params it st with
    | Continue st' =>
        ls_trace st' = ls_trace st ++ [EvSandbox it] ++ p ∧ lastBuildResult st' ≠ None
    | Return r st' =>
        ls_trace st' = ls_trace st ++ [EvSandbox it] ++ p ∧ lastBuildResult st' ≠ None
        ∧ iterations r = it + 1
    | Throw _ => False
    end.
Proof.
  unfold buildPhase. destruct (executeAnchorBuild _ _ _ _ _) as [raw deploy].
  destruct (success (postCheck raw deploy)).
  - exists []. split; [by left|]. simpl. done.
  - destruct (it + 1 <? MAX_ITERATIONS params).
    + exists [EvPause it]. split; [by right|]. simpl. by rewrite <-app_assoc.
    + exists []. split; [by left|]. simpl. done.
Qed.

Lemma structurePhase_events (st : LoopState S) :
  ls_trace (structurePhase env params st) = ls_trace st ++ [EvAnalysis; EvStructure].
Proof. unfold structurePhase. simpl. by rewrite <-app_assoc. Qed.

Lemma fixPhase_events it (st : LoopState S) :
  lastBuildResult st ≠ None →
  ∃ fr,
    match fixPhase env params it st with
    | Proceed st' =>
        ls_trace st' = ls_trace st ++ [EvAdvisor it fr]
        ∧ fr_success fr = true ∧ fr_cannotFix fr = false
    | Skip st' =>
        ls_trace st' = ls_trace st ++ [EvAdvisor it fr] ∧ lastBuildResult st' ≠ None
    | Stop r st' =>
        ls_trace st' = ls_trace st ++ [EvAdvisor it fr] ∧ lastBuildResult st' ≠ None
        ∧ iterations r = it + 1
    | Fail _ => False
    end.
Proof.
  intros Hlast. unfold fixPhase.
  destruct (lastBuildResult st) as [lastResult|] eqn:Hl; [|done].
  set (fr := analyzeAndFixBuildFailure _ _). exists fr.
  destruct (fr_success fr) eqn:Hsucc; simpl; [|by rewrite Hl].
  destruct (fr_cannotFix fr) eqn:Hcf; [simpl; by rewrite Hl|].
  by destruct (fr_fixes fr).
Qed.

Lemma turn_events it (st : LoopState S) :
  it = 0 ∨ lastBuildResult st ≠ None →
  ∃ es, turnEvents it es ∧
    match turn env params it st with
    | Continue st' => ls_trace st' = ls_trace st ++ es ∧ lastBuildResult st' ≠ None
    | Return r st' =>
        ls_trace st' = ls_trace st ++ es ∧ lastBuildResult st' ≠ None
        ∧ iterations r = it + 1
    | Throw _ => False
    end.
Proof.
  intros Hready. unfold turn. destruct it as [|it].
  - destruct (buildPhase_events 0 (structurePhase env params st)) as (p & Hp & Hb).
    exists ([EvAnalysis; EvStructure; EvSandbox 0] ++ p). split.
    { left. split; [done|]. by exists p. }
    rewrite structurePhase_events in Hb.
    destruct (buildPhase env params 0 _) as [r st'|st'|st']; [| |done].
    + destruct Hb as (-> & ? & ?). split_and!; [|done..]. by rewrite <-!app_assoc.
    + destruct Hb as (-> & ?). split; [|done]. by rewrite <-!app_assoc.
  - destruct Hready as [|Hlast]; [done|].
    destruct (fixPhase_events (Datatypes.S it) st Hlast) as (fr & Hf).
    destruct (fixPhase env params (Datatypes.S it) st) as [st1|st1|r st1|st1]; [| | |done].
    + destruct Hf as (Ht1 & Hsucc & Hcf).
      destruct (buildPhase_events (Datatypes.S it) st1) as (p & Hp & Hb).
      exists ([EvAdvisor (Datatypes.S it) fr; EvSandbox (Datatypes.S it)] ++ p). split.
      { right. split; [lia|]. exists fr. right. split_and!; [done..|]. by exists p. }
      rewrite Ht1 in Hb.
      destruct (buildPhase env params (Datatypes.S it) st1) as [r st'|st'|st']; [| |done].
      * destruct Hb as (-> & ? & ?). split_and!; [|done..]. by rewrite <-!app_assoc.
      * destruct Hb as (-> & ?). split; [|done]. by rewrite <-!app_assoc.
    + exists [EvAdvisor (Datatypes.S it) fr]. split; [|done].
      right. split; [lia|]. exists fr. by left.
    + exists [EvAdvisor (Datatypes.S it) fr]. split; [|done].
      right. split; [lia|]. exists fr. by left.
Qed.

Lemma turn_Tidy it (st : LoopState S) :
  Tidy it st →
  match turn env params it st with
  | Continue st' => Tidy (it + 1) st'
  | Return r st' => Tidy (it + 1) st' ∧ iterations r = it + 1
  | Throw _ => False
  end.
Proof.
  intros HT. pose proof HT as (_ & _ & _ & _ & _ & Hready).
  destruct (turn_events it st Hready) as (es & Hes & Hturn).
  destruct (turn env params it st) as [r st'|st'|st']; [| |done].
  - destruct Hturn as (Ht & Hl & Hit). split; [|done]. by eapply Tidy_extend.
  - destruct Hturn as (Ht & Hl). by eapply Tidy_extend.
Qed.

Lemma initial_Tidy (fs : S) deploy : Tidy 0 (initial fs deploy).
Proof.
  unfold Tidy, initial. simpl. split_and!; try done; try (cbn; lia).
  - intros i fr Hin. by apply not_elem_of_nil in Hin.
  - intros i _ Hin. by apply not_elem_of_nil in Hin.
Qed.

(** The history of a whole run. *)
Lemma smartBuild_Tidy (fs : S) deploy :
  let run := smartBuild env params fs deploy in
  ∃ n r, n ≤ MAX_ITERATIONS params ∧ Tidy n run.2
         ∧ run.1 = Some r ∧ iterations r = n
         ∧ (1 ≤ MAX_ITERATIONS params → 1 ≤ n).
Proof.
  intros run. subst run. unfold smartBuild.
  apply (loop_inv (λ it st, Tidy it st)
           (λ res final, ∃ n r, n ≤ MAX_ITERATIONS params ∧ Tidy n final
                                ∧ res = Some r ∧ iterations r = n
                                ∧ (1 ≤ MAX_ITERATIONS params → 1 ≤ n))).
  - intros it st HT Hlt. pose proof (turn_Tidy it st HT) as Hturn.
    destruct (turn env params it st) as [r st'|st'|st']; [|done|done].
    destruct Hturn as [HT' Hit]. exists (it + 1), r. split_and!; [lia|done|done|done|lia].
  - intros st HT. exists (MAX_ITERATIONS params), (exhausted params st).
    split_and!; done.
  - lia.
  - apply initial_Tidy.
Qed.

End WithEnv.
End LoopWork.

(** ** The orchestrator: bounds, skipped rebuilds, what backs a success *)

Module LoopExtras.
Import Path Docker PostCheck Validator Ai SmartBuild LoopInvariants LoopMeasures LoopShapes.
Import LoopWork.

Lemma executeAnchorBuild_success {D : Type} (run : ContainerConfig → ContainerOutcome * D)
  lim img out sub :
  success (executeAnchorBuild run lim img out sub).1 = true →
  exitCode (executeAnchorBuild run lim img out sub).1 = Some 0%Z
  ∧ error (executeAnchorBuild run lim img out sub).1 = None.
Proof.
  unfold executeAnchorBuild. destruct (run _) as [[code l|msg l] d]; simpl; [|done].
  intros ->%Z.eqb_eq. done.
Qed.

Lemma postCheck_success raw deploy :
  success (postCheck raw deploy) = true →
  postCheck raw deploy = raw ∧ success raw = true
  ∧ verifyBuildArtifacts deploy = true ∧ detectBuildErrorsInLogs (logs raw) = false.
Proof.
  unfold postCheck. destruct (success raw) eqn:Hraw; [|by rewrite Hraw].
  destruct (verifyBuildArtifacts deploy), (detectBuildErrorsInLogs (logs raw)); simpl; try done.
Qed.

Section WithEnv.
Context {S : Type} `{FileSystem S}.
Variable env : Env S.
Variable params : Params.

Lemma buildPhase_backed it (st : LoopState S) r st' :
  buildPhase env params it st = Return r st' → sb_success r = true ∧ backed r st'.
Proof.
  unfold buildPhase.
  pose proof (executeAnchorBuild_success (env_container env it (ls_fs st))
                (limits params) (dockerImage params) (hostOutputPath params)
                (env_anchorSubdir env (ls_fs st))) as Hexec.
  destruct (executeAnchorBuild _ _ _ _ _) as [raw deploy]. simpl in Hexec.
  destruct (success (postCheck raw deploy)) eqn:Hok.
  - intros [= <- <-]. split; [done|].
    destruct (postCheck_success raw deploy Hok) as (Heq & Hraw & Hart & Hlog).
    destruct (Hexec Hraw) as [Hcode Herr].
    exists raw. simpl. rewrite Heq. split_and!; try done.
    rewrite last_snoc. by replace (it + 1 - 1) with it by lia.
  - by destruct (it + 1 <? MAX_ITERATIONS params).
Qed.

Lemma fixPhase_stop_fails it (st : LoopState S) r st' :
  fixPhase env params it st = Stop r st' → sb_success r = false.
Proof.
  unfold fixPhase. destruct (lastBuildResult st); [|done].
  set (fr := analyzeAndFixBuildFailure _ _).
  destruct (fr_success fr); simpl; [|done].
  destruct (fr_cannotFix fr); [by intros [= <- <-]|].
  by destruct (fr_fixes fr).
Qed.

Lemma turn_backed it (st : LoopState S) r st' :
  turn env params it st = Return r st' → sb_success r = true → backed r st'.
Proof.
  unfold turn. destruct it as [|it].
  - intros Hb _. by apply buildPhase_backed in Hb as [_ ?].
  - destruct (fixPhase env params (Datatypes.S it) st) as [st1|st1|r1 st1|st1] eqn:Hf.
    + intros Hb _. by apply buildPhase_backed in Hb as [_ ?].
    + done.
    + intros [= <- <-] Hs. apply fixPhase_stop_fails in Hf. congruence.
    + done.
Qed.

End WithEnv.

(** X1: a run of [smartBuild] starts the container at most
    [MAX_ITERATIONS] times and asks the Advisor for a repair at most
    [MAX_ITERATIONS - 1] times; the calls it awaits resolving (the
    Advisor with an answer or with the message of its error), it resolves
    to a result whose [iterations] is at most [MAX_ITERATIONS], at least
    the number of container runs, and at least 1 when a turn is allowed
    at all. *)
Theorem run_work_is_bounded {S : Type} `{FileSystem S}
  (env : Env S) (params : Params) (fs : S) (deploy : option (gmap (list N) (list N))) :
  let run := smartBuild env params fs deploy in
  sandboxRuns (ls_trace run.2) ≤ MAX_ITERATIONS params
  ∧ advisorCalls (ls_trace run.2) ≤ MAX_ITERATIONS params - 1
  ∧ ∃ r, run.1 = Some r
         ∧ iterations r ≤ MAX_ITERATIONS params
         ∧ sandboxRuns (ls_trace run.2) ≤ iterations r
         ∧ (1 ≤ MAX_ITERATIONS params → 1 ≤ iterations r).
Proof.
  intros run. subst run.
  destruct (smartBuild_Tidy env params fs deploy)
    as (n & r & Hn & (_ & Hs & Ha & _) & Hr & Hit & Hone).
  split_and!; [lia|lia|]. exists r. subst n. by split_and!.
Qed.

(** X2: when the request to the Advisor of turn [i] fails (the call
    itself, not a refusal), that turn neither starts the container nor
    pauses: the loop goes straight to the next turn. *)
Theorem failed_advice_skips_rebuild {S : Type} `{FileSystem S}
  (env : Env S) (params : Params) (fs : S) (deploy : option (gmap (list N) (list N)))
  (i : nat) (fr : FixResult) :
  let run := smartBuild env params fs deploy in
  EvAdvisor i fr ∈ ls_trace run.2 →
  fr_success fr = false →
  (EvSandbox i ∉ ls_trace run.2) ∧ (EvPause i ∉ ls_trace run.2).
Proof.
  intros run Hin Hfail. subst run.
  destruct (smartBuild_Tidy env params fs deploy)
    as (n & r & _ & (_ & _ & _ & Hskip & _) & _).
  by apply (Hskip i fr).
Qed.

Lemma failed_advice_skips_rebuild_witness :
  let env := Scenario.scriptedEnv Scenario.failingRun None (inr (js "429")) in
  let run := smartBuild env (Scenario.scriptedParams 3) ∅ None in
  EvSandbox 0 ∈ ls_trace run.2
  ∧ (EvSandbox 1 ∉ ls_trace run.2) ∧ (EvPause 1 ∉ ls_trace run.2).
Proof.
  intros env run. split.
  - apply list_elem_of_In. vm_compute. tauto.
  - apply (failed_advice_skips_rebuild env (Scenario.scriptedParams 3) ∅ None 1
             (analyzeAndFixBuildFailure (env_parseFixes env) (inr (js "429")))).
    + apply list_elem_of_In. vm_compute. tauto.
    + reflexivity.
Defined.

(** X3: every container run of a turn after the first follows an answer
    of the Advisor of the same turn that was obtained and was not a
    refusal. *)
Theorem rebuild_follows_usable_advice {S : Type} `{FileSystem S}
  (env : Env S) (params : Params) (fs : S) (deploy : option (gmap (list N) (list N)))
  (i : nat) :
  let run := smartBuild env params fs deploy in
  1 ≤ i →
  EvSandbox i ∈ ls_trace run.2 →
  ∃ fr, EvAdvisor i fr ∈ ls_trace run.2
        ∧ fr_success fr = true ∧ fr_cannotFix fr = false.
Proof.
  intros run Hi Hin. subst run.
  destruct (smartBuild_Tidy env params fs deploy)
    as (n & r & _ & (_ & _ & _ & _ & Hpair & _) & _).
  by apply Hpair.
Qed.

Lemma rebuild_follows_usable_advice_witness :
  let env := Scenario.scriptedEnv Scenario.failingRun None (inl (js "no idea")) in
  let run := smartBuild env (Scenario.scriptedParams 2) ∅ None in
  ∃ fr, EvAdvisor 1 fr ∈ ls_trace run.2
        ∧ fr_success fr = true ∧ fr_cannotFix fr = false.
Proof.
  intros env run.
  apply (rebuild_follows_usable_advice env (Scenario.scriptedParams 2) ∅ None 1).
  - lia.
  - apply list_elem_of_In. vm_compute. tauto.
Defined.

(** X4: a successful result of [smartBuild] is the result of the last
    container run: that run is the last call of the history, it exited
    with code 0 and without error, the deploy directory it left holds a
    [.so] file, its logs match no known error pattern, and the result
    carries neither [cannotFix] nor a reason. *)
Theorem success_is_backed_by_last_run {S : Type} `{FileSystem S}
  (env : Env S) (params : Params) (fs : S) (deploy : option (gmap (list N) (list N)))
  (r : SmartBuildResult) :
  let run := smartBuild env params fs deploy in
  run.1 = Some r →
  sb_success r = true →
  ∃ b, finalBuild r = Some b ∧ lastBuildResult run.2 = Some b
       ∧ success b = true ∧ exitCode b = Some 0%Z ∧ error b = None
       ∧ verifyBuildArtifacts (ls_deploy run.2) = true
       ∧ detectBuildErrorsInLogs (logs b) = false
       ∧ last (ls_trace run.2) = Some (EvSandbox (iterations r - 1))
       ∧ cannotFix r = false ∧ cannotFixReason r = None.
Proof.
  intros run. subst run. unfold smartBuild.
  apply (loop_inv env params (λ _ _, True)
           (λ res final, res = Some r → sb_success r = true → backed r final)).
  - intros it st _ _. destruct (turn env params it st) as [r' st'|st'|st'] eqn:Ht; try done.
    intros [= ->]. by apply (turn_backed env params it st).
  - intros st _ [= <-]. done.
  - lia.
  - done.
Qed.

Lemma success_is_backed_by_last_run_witness :
  let env := Scenario.scriptedEnv (Exited 0 (mkLogs (js "Finished") (js "")))
               (Some {[ js "prog.so" := js "ELF" ]}) (inr (js "unused")) in
  let run := smartBuild env (Scenario.scriptedParams 8) ∅ None in
  ∃ r b, run.1 = Some r ∧ finalBuild r = Some b ∧ exitCode b = Some 0%Z
         ∧ last (ls_trace run.2) = Some (EvSandbox 0).
Proof.
  intros env run.
  destruct (run.1) as [r|] eqn:Hr; [|by vm_compute in Hr].
  assert (sb_success r = true ∧ iterations r = 1) as [Hs Hit].
  { pose proof Hr as Hr'. clear Hr. vm_compute in Hr'. injection Hr' as <-.
    split; reflexivity. }
  destruct (success_is_backed_by_last_run env (Scenario.scriptedParams 8) ∅ None r Hr Hs)
    as (b & Hb & _ & _ & Hcode & _ & _ & _ & Hlast & _).
  exists r, b. rewrite Hit in Hlast. split_and!; [reflexivity|exact Hb|exact Hcode|exact Hlast].
Defined.

End LoopExtras.

(** ** The per-agent lock on the route of an existing project *)

Module GuardExtras.
Import Guard GuardInvariants LockInvariants GuardFacts.

Lemma step_LockExact (s : Server) (c : Resume) :
  onlyExisting s → LockExact s → onlyExisting (step s c) ∧ LockExact (step s c).
Proof.
  intros Hall Hinv. unfold step.
  destruct (requests s !! who c) as [r|] eqn:Hr; [|done].
  assert (Hr' : usesExisting r ∧ pc r ≠ Creating).
  { eapply Forall_forall in Hall; [exact Hall|]. by eapply list_elem_of_lookup_2. }
  destruct Hr' as [Hroute Hpc].
  destruct (resume (activeAgentBuilds s) r c) as [m' pc'] eqn:Hres.
  assert (Hpc' : pc' ≠ Creating).
  { unfold resume in Hres. unfold usesExisting in Hroute.
    destruct (route r); [done|].
    destruct (pc r); [|done|..]; repeat case_match; simplify_eq; done. }
  split.
  { unfold onlyExisting. simpl. apply Forall_insert; [done|]. by split. }
  intros agentId. specialize (Hinv agentId).
  pose proof (runningBuilds_step s (who c) r m' pc' agentId Hr) as Hcount.
  unfold resume in Hres. unfold usesExisting in Hroute.
  destruct (route r) as [|buildId] eqn:Hrt; [done|].
  destruct (pc r) as [| |running|status] eqn:Hpcr; [| done | |].
  - (* Received *)
    assert (isRunning agentId r = false) as Hnot
      by (unfold isRunning; rewrite Hpcr; apply andb_false_r).
    rewrite Hnot in Hcount.
    unfold getActiveAgentBuild in Hres.
    destruct (activeAgentBuilds s !! agent r) as [held|] eqn:Hheld.
    + injection Hres as <- <-. rewrite isRunning_responded in Hcount. simpl.
      destruct Hinv as [[? ?]|[? ?]]; [left|right]; split; [done|lia|done|lia].
    + destruct (refused c) as [status|].
      * injection Hres as <- <-. rewrite isRunning_responded in Hcount. simpl.
        destruct Hinv as [[? ?]|[? ?]]; [left|right]; split; [done|lia|done|lia].
      * injection Hres as <- <-. unfold setActiveAgentBuild in *. simpl.
        destruct (decide (agent r = agentId)) as [Heq|Hne].
        -- subst agentId. right. rewrite lookup_insert_eq. split; [by eexists|].
           destruct Hinv as [[_ Hzero]|[[held Hsome] _]]; [|congruence].
           unfold isRunning in Hcount. simpl in Hcount.
           rewrite Nat.eqb_refl in Hcount. simpl in Hcount. lia.
        -- rewrite (isRunning_other agentId (mkRequest _ _ _)) in Hcount by done.
           rewrite lookup_insert_ne by done.
           destruct Hinv as [[? ?]|[? ?]]; [left|right]; split; [done|lia|done|lia].
  - (* Running *)
    injection Hres as <- <-. unfold clearActiveAgentBuild in *. simpl.
    rewrite isRunning_responded in Hcount.
    destruct (decide (agent r = agentId)) as [Heq|Hne].
    + subst agentId. left. rewrite lookup_delete_eq. split; [done|].
      assert (isRunning (agent r) r = true) as Hwas
        by (unfold isRunning; rewrite Hpcr, Nat.eqb_refl; done).
      rewrite Hwas in Hcount.
      assert (1 ≤ runningBuilds s (agent r)) by lia.
      destruct Hinv as [[_ ?]|[_ ?]]; lia.
    + rewrite (isRunning_other agentId r) in Hcount by done.
      rewrite lookup_delete_ne by done.
      destruct Hinv as [[? ?]|[? ?]]; [left|right]; split; [done|lia|done|lia].
  - (* Responded *)
    injection Hres as <- <-. simpl.
    assert (isRunning agentId r = false) as Hnot
      by (unfold isRunning; rewrite Hpcr; apply andb_false_r).
    rewrite Hnot, isRunning_responded in Hcount.
    destruct Hinv as [[? ?]|[? ?]]; [left|right]; split; [done|lia|done|lia].
Qed.

Lemma run_LockExact (s : Server) (schedule : list Resume) :
  onlyExisting s → LockExact s →
  onlyExisting (run s schedule) ∧ LockExact (run s schedule).
Proof.
  revert s. induction schedule as [|c schedule IH]; intros s Hall Hinv; [done|].
  simpl. destruct (step_LockExact s c Hall Hinv) as [Hall' Hinv']. by apply IH.
Qed.

Lemma pending_LockExact (pending : list Request) :
  Forall (λ r, usesExisting r ∧ pc r = Received) pending →
  onlyExisting (mkServer ∅ pending) ∧ LockExact (mkServer ∅ pending).
Proof.
  intros Hpending. split.
  - unfold onlyExisting. simpl. eapply Forall_impl; [exact Hpending|].
    intros r [? Hpc]. split; [done|]. by rewrite Hpc.
  - intros a. left. split; [done|].
    unfold runningBuilds. simpl.
    induction Hpending as [|r l [_ Hpc] _ IH]; [done|]. simpl.
    unfold isRunning at 1. rewrite Hpc, andb_false_r. exact IH.
Qed.

(** X5: on the route [POST /project/:buildId/build] the lock of an agent
    is held exactly while one of its builds is in flight: whatever the
    interleaving of the requests, the map has an entry for the agent if and
    only if one build of the agent is running, and no entry if and only if
    none is.  In particular no lock outlives its build. *)
Theorem lock_held_exactly_while_running (pending : list Request)
  (schedule : list Resume) (agentId : nat) :
  Forall (λ r, usesExisting r ∧ pc r = Received) pending →
  let s := run (mkServer ∅ pending) schedule in
  (is_Some (activeAgentBuilds s !! agentId) ↔ runningBuilds s agentId = 1)
  ∧ (activeAgentBuilds s !! agentId = None ↔ runningBuilds s agentId = 0).
Proof.
  intros Hpending s. subst s.
  destruct (pending_LockExact pending Hpending) as [Hall Hinv].
  destruct (run_LockExact _ schedule Hall Hinv) as [_ Hfinal].
  destruct (Hfinal agentId) as [[Hnone Hzero]|[Hsome Hone]].
  - rewrite Hnone, Hzero. split; split; try done; by intros [? ?].
  - rewrite Hone. destruct Hsome as [held Hheld]. rewrite Hheld.
    split; split; try done; by eexists.
Qed.

Lemma lock_held_exactly_while_running_witness :
  let pending := [mkRequest 7 (Existing 1) Received; mkRequest 7 (Existing 2) Received] in
  let started := run (mkServer ∅ pending) [mkResume 0 None None 100; mkResume 1 None None 101] in
  let finished := run started [mkResume 0 None None 200] in
  (pc <$> requests started = [Running 1; Responded 409])
  ∧ (is_Some (activeAgentBuilds started !! 7) ↔ runningBuilds started 7 = 1)
  ∧ (activeAgentBuilds finished !! 7 = None ↔ runningBuilds finished 7 = 0).
Proof.
  intros pending started finished. split; [reflexivity|]. split.
  - apply (lock_held_exactly_while_running pending
             [mkResume 0 None None 100; mkResume 1 None None 101] 7).
    repeat constructor.
  - apply (lock_held_exactly_while_running pending
             [mkResume 0 None None 100; mkResume 1 None None 101; mkResume 0 None None 200] 7).
    repeat constructor.
Defined.

End GuardExtras.

(** ** [applyFixes] and the files that are already there *)

Module ApplyFixesExtras.
Import Path Validator Ai.

Lemma applyFixesLoop_keeps projectDir (fixes : list Fix) :
  ∀ (fs : gmap (list N) (list N)) applied0 skipped p c,
    fs !! p = Some c →
    (∀ fx, fx ∈ fixes → join [projectDir; fix_path fx] = p →
       fix_action fx ≠ js "update" ∧ fix_action fx ≠ js "delete") →
    af_fs (applyFixesLoop projectDir true fixes fs applied0 skipped) !! p = Some c.
Proof.
  induction fixes as [|fx rest IH]; intros fs applied0 skipped p c Hp Hsafe; [done|].
  assert (Hrest : ∀ g, g ∈ rest → join [projectDir; fix_path g] = p →
                       fix_action g ≠ js "update" ∧ fix_action g ≠ js "delete").
  { intros g Hg. apply Hsafe. by right. }
  specialize (Hsafe fx ltac:(by left)).
  cbn [applyFixesLoop].
  destruct (bool_decide (fix_action fx = js "create")) eqn:Hcreate.
  - cbn [orb andb]. cbn [fs_access fs_mkdir fs_writeFile MemFS].
    destruct (bool_decide (is_Some (fs !! join [projectDir; fix_path fx]))) eqn:Hex.
    + by apply IH.
    + apply IH; [|done]. rewrite lookup_insert_ne; [done|].
      intros Heq. rewrite Heq, Hp in Hex.
      apply bool_decide_eq_false in Hex. apply Hex. by eexists.
  - cbn [orb andb].
    destruct (bool_decide (fix_action fx = js "update")) eqn:Hupdate.
    + cbn [fs_access fs_mkdir fs_writeFile MemFS].
      apply IH; [|done]. rewrite lookup_insert_ne; [done|].
      intros Heq. apply bool_decide_eq_true in Hupdate. by destruct (Hsafe Heq).
    + destruct (bool_decide (fix_action fx = js "delete")) eqn:Hdelete.
      * cbn [fs_unlink MemFS].
        assert (join [projectDir; fix_path fx] ≠ p) as Hne.
        { intros Heq. apply bool_decide_eq_true in Hdelete. by destruct (Hsafe Heq). }
        destruct (bool_decide (is_Some (fs !! join [projectDir; fix_path fx]))).
        -- apply IH; [|done]. by rewrite lookup_delete_ne.
        -- cbn [af_fs]. by rewrite lookup_delete_ne.
      * by apply IH.
Qed.

(** X6: with [skipExisting] set, [applyFixes] leaves the content of every
    file that exists untouched unless a proposal of the batch asks for an
    [update] or a [delete] of that very file: a [create] never overwrites.
    The same holds of [verifyAndFixStructure], which applies its proposals
    this way. *)
Theorem create_never_overwrites (fs : gmap (list N) (list N)) (projectDir : list N)
  (fixes : list Fix) (p c : list N) :
  fs !! p = Some c →
  (∀ fx, fx ∈ fixes → join [projectDir; fix_path fx] = p →
     fix_action fx ≠ js "update" ∧ fix_action fx ≠ js "delete") →
  af_fs (applyFixes fs projectDir fixes true) !! p = Some c
  ∧ vr_fs (verifyAndFixStructure fs (Some fixes) projectDir) !! p = Some c.
Proof.
  intros Hp Hsafe. split.
  - by apply applyFixesLoop_keeps.
  - unfold verifyAndFixStructure.
    destruct (dropRsFixes fixes) as [|fx kept] eqn:Hkept; [done|].
    cbn [vr_fs]. rewrite <-Hkept. apply applyFixesLoop_keeps; [done|].
    intros g Hg. apply Hsafe. unfold dropRsFixes in Hg.
    apply list_elem_of_In, filter_In in Hg as [Hg _]. by apply list_elem_of_In.
Qed.

Lemma create_never_overwrites_witness :
  let fs : gmap (list N) (list N) := {[ js "uploads/id/Cargo.toml" := js "[package]" ]} in
  let fixes := [mkFix (js "create") (js "Cargo.toml") (js "[workspace]") (js "missing");
                mkFix (js "create") (js "Anchor.toml") (js "[toolchain]") (js "missing")] in
  let after := af_fs (applyFixes fs (js "uploads/id") fixes true) in
  after !! js "uploads/id/Cargo.toml" = Some (js "[package]")
  ∧ after !! js "uploads/id/Anchor.toml" = Some (js "[toolchain]").
Proof.
  intros fs fixes after. split.
  - apply (create_never_overwrites fs (js "uploads/id") fixes
             (js "uploads/id/Cargo.toml") (js "[package]")).
    + reflexivity.
    + intros fx Hin _. apply list_elem_of_In in Hin.
      destruct Hin as [<-|[<-|[]]]; split; vm_compute; discriminate.
  - vm_compute. reflexivity.
Defined.

End ApplyFixesExtras.

(** ** The file routes stay inside the project *)

Module FileRoutesFacts.
Import Path BuildManager PathInvariants PathFacts SanitizeFacts ContainFacts FileRoutes.




Lemma join_under dir safe :
  dir ≠ [] → DOTDOT ∉ split_on SLASH safe → insideDir dir (join [dir; safe]).
Proof.
  intros Hdir Hno. unfold insideDir.
  destruct dir as [|d dir]; [done|]. destruct safe as [|c safe].
  - change (join [d :: dir; []]) with (normalize (d :: dir)).
    rewrite normalize_isAbsolute by done. split; [done|].
    destruct (segments_normalize (d :: dir)) as (extra & -> & Hextra); [done|].
    by exists extra.
  - change (join [d :: dir; c :: safe])
      with (normalize ((d :: dir) ++ SLASH :: c :: safe)).
    rewrite normalize_isAbsolute by done. split; [done|].
    destruct (segments_normalize ((d :: dir) ++ SLASH :: c :: safe))
      as (extra & -> & Hextra); [done|].
    rewrite normSegments_under by done.
    exists (cleanSegs (split_on SLASH (c :: safe)) ++ extra).
    split; [by rewrite app_assoc|].
    apply not_elem_of_app. split; [by apply cleanSegs_no_parent|done].
Qed.


Lemma normalize_nonempty p : normalize p ≠ [].
Proof.
  destruct p as [|c p]; [done|]. unfold normalize.
  destruct (normSegments (c :: p)) as [|seg segs] eqn:Hsegs.
  - destruct (isAbsolute (c :: p)); [done|]. by destruct (trailingSeparator (c :: p)).
  - destruct (isAbsolute (c :: p)); [done|].
    assert (seg ≠ []) as Hseg.
    { apply (normSegments_ok (c :: p)). rewrite Hsegs. by left. }
    assert (join_with SLASH (seg :: segs) ≠ []) as Hbody.
    { destruct seg as [|x seg]; [done|]. simpl. by destruct segs. }
    destruct (trailingSeparator (c :: p)); [|done].
    by destruct (join_with SLASH (seg :: segs)).
Qed.

Lemma join_nonempty args : join args ≠ [].
Proof. unfold join. destruct (nonEmptyArgs args); [done|]. apply normalize_nonempty. Qed.


End FileRoutesFacts.

Module FileRoutesExtras.
Import Path BuildManager FileRoutes FileRoutesFacts.





End FileRoutesExtras.

(** ** Escaping for the claim page *)

Module ClaimPageFacts.
Import ClaimPage.

Lemma replaceAllChar_flat_map c by_ (f : N → list N) s :
  replaceAllChar c by_ (flat_map f s) = flat_map (λ d, replaceAllChar c by_ (f d)) s.
Proof.
  unfold replaceAllChar. induction s as [|d s IH]; [done|].
  simpl. by rewrite flat_map_app, IH.
Qed.

Lemma flat_map_single {A} (s : list A) : flat_map (λ d, [d]) s = s.
Proof. induction s as [|d s IH]; [done|]. simpl. by rewrite IH. Qed.

Lemma flat_map_ext_all {A B} (f g : A → list B) s :
  (∀ x, f x = g x) → flat_map f s = flat_map g s.
Proof. intros Hfg. induction s as [|x s IH]; [done|]. simpl. by rewrite Hfg, IH. Qed.

Lemma replaceAllChar_single c by_ d :
  replaceAllChar c by_ [d] = if (d =? c)%N then by_ else [d].
Proof. unfold replaceAllChar. simpl. by rewrite app_nil_r. Qed.

(** The five replacements in a row act on each character on its own. *)
Lemma escapeHtml_chars s : escapeHtml s = flat_map escapeChar s.
Proof.
  destruct s as [|c0 s0]; [done|]. unfold escapeHtml. set (s := c0 :: s0). clearbody s.
  rewrite <-(flat_map_single s) at 1.
  rewrite !replaceAllChar_flat_map. apply flat_map_ext_all. intros c.
  unfold escapeChar, AMP, LT, GT, QUOT, APOS.
  rewrite (replaceAllChar_single 38). destruct (c =? 38)%N; [reflexivity|].
  rewrite (replaceAllChar_single 60). destruct (c =? 60)%N; [reflexivity|].
  rewrite (replaceAllChar_single 62). destruct (c =? 62)%N; [reflexivity|].
  rewrite (replaceAllChar_single 34). destruct (c =? 34)%N; [reflexivity|].
  rewrite (replaceAllChar_single 39). by destruct (c =? 39)%N.
Qed.

Lemma escapeChar_cases c :
  (c = AMP ∧ escapeChar c = js "&amp;")
  ∨ (c = LT ∧ escapeChar c = js "&lt;")
  ∨ (c = GT ∧ escapeChar c = js "&gt;")
  ∨ (c = QUOT ∧ escapeChar c = js "&quot;")
  ∨ (c = APOS ∧ escapeChar c = js "&#039;")
  ∨ (c ≠ AMP ∧ c ≠ LT ∧ c ≠ GT ∧ c ≠ QUOT ∧ c ≠ APOS ∧ escapeChar c = [c]).
Proof.
  unfold escapeChar.
  destruct (c =? AMP)%N eqn:H1; [apply N.eqb_eq in H1; tauto|].
  destruct (c =? LT)%N eqn:H2; [apply N.eqb_eq in H2; tauto|].
  destruct (c =? GT)%N eqn:H3; [apply N.eqb_eq in H3; tauto|].
  destruct (c =? QUOT)%N eqn:H4; [apply N.eqb_eq in H4; tauto|].
  destruct (c =? APOS)%N eqn:H5; [apply N.eqb_eq in H5; tauto|].
  apply N.eqb_neq in H1, H2, H3, H4, H5. tauto.
Qed.

Lemma escapeChar_clean c d :
  d ∈ escapeChar c → d ≠ LT ∧ d ≠ GT ∧ d ≠ QUOT ∧ d ≠ APOS.
Proof.
  intros Hin.
  destruct (escapeChar_cases c)
    as [[-> E]|[[-> E]|[[-> E]|[[-> E]|[[-> E]|(? & ? & ? & ? & ? & E)]]]]];
    rewrite E in Hin.
  6:{ apply list_elem_of_singleton in Hin as ->. done. }
  all: apply list_elem_of_In in Hin; simpl in Hin;
    repeat (destruct Hin as [<-|Hin]; [by vm_compute|]); done.
Qed.

(** The escaped form of a character tells which character it was, and
    where it ends. *)
Lemma escapeChar_prefix c d xs ys :
  escapeChar c ++ xs = escapeChar d ++ ys → c = d ∧ xs = ys.
Proof.
  intros Heq.
  destruct (escapeChar_cases c)
    as [[-> Ec]|[[-> Ec]|[[-> Ec]|[[-> Ec]|[[-> Ec]|(? & ? & ? & ? & ? & Ec)]]]]];
  destruct (escapeChar_cases d)
    as [[-> Ed]|[[-> Ed]|[[-> Ed]|[[-> Ed]|[[-> Ed]|(? & ? & ? & ? & ? & Ed)]]]]];
  rewrite ?Ec, ?Ed in Heq; vm_compute in Heq; try discriminate Heq;
    try (injection Heq as ?; subst; done);
    try (injection Heq as ? ?; subst; done).
Qed.

End ClaimPageFacts.

Module ClaimPageExtras.
Import ClaimPage ClaimPageFacts.

(** X9: the text [escapeHtml] returns holds none of the characters
    [<], [>], the double quote and the apostrophe, and it is the input
    with each of the five special characters replaced by its entity, the
    ampersands first so that no entity is escaped twice. *)
Theorem escapeHtml_leaves_no_markup (str : list N) :
  escapeHtml str = flat_map escapeChar str
  ∧ ∀ d, d ∈ escapeHtml str → d ≠ LT ∧ d ≠ GT ∧ d ≠ QUOT ∧ d ≠ APOS.
Proof.
  split; [apply escapeHtml_chars|].
  intros d. rewrite escapeHtml_chars. intros Hin.
  apply list_elem_of_In, in_flat_map in Hin as (c & _ & Hin).
  apply (escapeChar_clean c). by apply list_elem_of_In.
Qed.

(** X10: [escapeHtml] loses nothing: two texts with the same escaped
    form are the same text. *)
Theorem escapeHtml_is_injective (s t : list N) :
  escapeHtml s = escapeHtml t → s = t.
Proof.
  rewrite !escapeHtml_chars. revert t.
  induction s as [|c s IH]; intros [|d t] Heq; simpl in Heq.
  - done.
  - destruct (escapeChar_cases d)
      as [[-> E]|[[-> E]|[[-> E]|[[-> E]|[[-> E]|(? & ? & ? & ? & ? & E)]]]]];
      rewrite E in Heq; discriminate Heq.
  - destruct (escapeChar_cases c)
      as [[-> E]|[[-> E]|[[-> E]|[[-> E]|[[-> E]|(? & ? & ? & ? & ? & E)]]]]];
      rewrite E in Heq; discriminate Heq.
  - apply escapeChar_prefix in Heq as [-> Heq]. f_equal. by apply IH.
Qed.

Lemma escapeHtml_is_injective_witness :
  escapeHtml (js "a<b & 'c'") = js "a&lt;b &amp; &#039;c&#039;"
  ∧ (escapeHtml (js "&lt;") = escapeHtml (js "&lt;") → js "&lt;" = js "&lt;").
Proof.
  split; [reflexivity|]. apply (escapeHtml_is_injective (js "&lt;") (js "&lt;")).
Defined.

End ClaimPageExtras.

(** ** Artifacts: what is listed and what is served *)

Module ArtifactsFacts.
Import Path PostCheck Artifacts.

Lemma filter_elem {A} (P : A → bool) (l : list A) x :
  x ∈ List.filter P l ↔ x ∈ l ∧ P x = true.
Proof. rewrite !list_elem_of_In. apply filter_In. Qed.

Lemma filter_nonempty {A} (P : A → bool) (l : list A) :
  List.filter P l ≠ [] ↔ existsb P l = true.
Proof.
  induction l as [|x l IH]; simpl; [done|].
  destruct (P x); simpl; [done|exact IH].
Qed.

Lemma scanDeploy_fold deployDir files found :
  foldl (scanDeployFile deployDir) found files
  = (found.1 ++ (artifactOf deployDir (js "program")
                   <$> List.filter (λ file, endsWith file (js ".so")) files),
     found.2 ++ (artifactOf deployDir (js "deploy")
                   <$> List.filter (λ file, negb (endsWith file (js ".so"))
                                            && endsWith file (js ".json")) files)).
Proof.
  revert found. induction files as [|file files IH]; intros [ps ds]; simpl.
  { by rewrite !app_nil_r. }
  rewrite IH. unfold scanDeployFile. simpl.
  destruct (endsWith file (js ".so")); simpl.
  - by rewrite <-app_assoc.
  - destruct (endsWith file (js ".json")); simpl; [|done]. by rewrite <-app_assoc.
Qed.

Lemma scanFile_fold dir type ext files found :
  foldl (scanFile dir type ext) found files
  = found ++ (artifactOf dir type <$> List.filter (λ file, endsWith file ext) files).
Proof.
  revert found. induction files as [|file files IH]; intros found; simpl.
  { by rewrite app_nil_r. }
  rewrite IH. unfold scanFile. destruct (endsWith file ext); simpl; [|done].
  by rewrite <-app_assoc.
Qed.

(** The four lists of [scanArtifacts]. *)
Lemma scanArtifacts_lists outputDir t :
  let targetDir := join [outputDir; js "target"] in
  let listed := scanArtifacts outputDir t in
  programs listed
  = (artifactOf (join [targetDir; js "deploy"]) (js "program")
       <$> List.filter (λ file, endsWith file (js ".so")) (entries (deployFiles t)))
  ∧ deploy listed
    = (artifactOf (join [targetDir; js "deploy"]) (js "deploy")
         <$> List.filter (λ file, negb (endsWith file (js ".so"))
                                  && endsWith file (js ".json")) (entries (deployFiles t)))
  ∧ idl listed
    = (artifactOf (join [targetDir; js "idl"]) (js "idl")
         <$> List.filter (λ file, endsWith file (js ".json")) (entries (idlFiles t)))
  ∧ types listed
    = (artifactOf (join [targetDir; js "types"]) (js "types")
         <$> List.filter (λ file, endsWith file (js ".ts")) (entries (typesFiles t))).
Proof.
  intros targetDir listed. subst listed. unfold scanArtifacts.
  cbn [programs deploy idl types]. fold targetDir.
  by rewrite scanDeploy_fold, !scanFile_fold.
Qed.

Lemma artifactOf_elem dir type (files : list (list N)) a :
  a ∈ artifactOf dir type <$> files ↔ ∃ file, file ∈ files ∧ a = artifactOf dir type file.
Proof.
  rewrite list_elem_of_fmap. split.
  - intros (file & -> & ?). by exists file.
  - intros (file & ? & ->). by exists file.
Qed.

Lemma startsWith_app s p q : startsWith s (p ++ q) = true → startsWith s p = true.
Proof.
  revert s. induction p as [|c p IH]; intros s; [by destruct s|].
  destruct s as [|d s]; simpl; [done|].
  intros [? ?]%andb_true_iff. apply andb_true_iff. split; [done|]. by apply IH.
Qed.

(** A keypair file is a [.json] file and no [.so] file. *)
Lemma keypair_file_is_json file :
  endsWith file AgentApi.KEYPAIR_SUFFIX = true →
  endsWith file (js ".so") = false ∧ endsWith file (js ".json") = true.
Proof.
  unfold endsWith. intros Hk. split.
  - destruct (rev file) as [|c r]; [done|].
    change (startsWith (c :: r) (rev AgentApi.KEYPAIR_SUFFIX))
      with ((110 =? c)%N && startsWith r (rev (js "-keypair.jso"))) in Hk.
    change (startsWith (c :: r) (rev (js ".so")))
      with ((111 =? c)%N && startsWith r (rev (js ".s"))).
    apply andb_true_iff in Hk as [Hc _]. apply N.eqb_eq in Hc as <-. done.
  - apply (startsWith_app _ (rev (js ".json")) (rev (js "-keypair"))).
    exact Hk.
Qed.

Lemma find_elem {A} (P : A → bool) (l : list A) x :
  List.find P l = Some x → x ∈ l ∧ P x = true.
Proof. intros Hf. apply find_some in Hf as [? ?]. split; [by apply list_elem_of_In|done]. Qed.

Lemma entries_Some (dir : gmap (list N) (list N)) file :
  file ∈ entries (Some dir) ↔ is_Some (dir !! file).
Proof.
  unfold entries, Output.readdir. simpl. rewrite list_elem_of_fmap. split.
  - intros ([f c] & -> & Hin). apply elem_of_map_to_list in Hin. by eexists.
  - intros [c Hc]. exists (file, c). split; [done|]. by apply elem_of_map_to_list.
Qed.

(** What the download route hands out. *)
Lemma download_served (build : option Build) (disk : list N → TargetDirs)
  (type filename path : list N) :
  (download build disk type filename).2 = Some path →
  ∃ b dir,
    build = Some b ∧ status b = Success
    ∧ (download build disk type filename).1 = 200
    ∧ classDir (outputDir b) type = Some dir
    ∧ path = join [dir; filename]
    ∧ filename ∈ classFiles (disk (outputDir b)) type
    ∧ (DOTDOT ∉ split_on SLASH filename → BuildManager.insideDir dir path).
Proof.
  unfold download. destruct build as [b|]; [|done].
  destruct (status b) eqn:Hstatus; try done.
  unfold getBuildArtifacts. rewrite Hstatus.
  destruct (scanArtifacts_lists (outputDir b) (disk (outputDir b))) as (Hp & Hd & Hi & Ht).
  set (listed := scanArtifacts (outputDir b) (disk (outputDir b))) in *.
  destruct (List.find _ _) as [a|] eqn:Hfind; [|done].
  intros [= <-]. apply find_elem in Hfind as [Hin Hmatch].
  apply andb_true_iff in Hmatch as [Hname Htype].
  apply bool_decide_eq_true in Hname, Htype.
  assert (Hcase : ∃ dir, classDir (outputDir b) type = Some dir
                         ∧ art_path a = join [dir; filename]
                         ∧ filename ∈ classFiles (disk (outputDir b)) type).
  { rewrite !elem_of_app in Hin. rewrite Hp, Hd, Hi, Ht in Hin.
    rewrite !artifactOf_elem in Hin.
    destruct Hin as [(file & Hfile & ->)|[(file & Hfile & ->)|[(file & Hfile & ->)
                    |(file & Hfile & ->)]]];
      simpl in Hname, Htype; subst file type;
      apply filter_elem in Hfile as [Hfile _];
      eexists; (split; [reflexivity|]); (split; [reflexivity|]); exact Hfile. }
  destruct Hcase as (dir & Hdir & Hpath & Hfile).
  exists b, dir. split_and!; try done.
  intros Hno. rewrite Hpath. apply FileRoutesFacts.join_under; [|done].
  unfold classDir in Hdir. repeat case_match; simplify_eq; apply FileRoutesFacts.join_nonempty.
Qed.

End ArtifactsFacts.

Module ArtifactsExtras.
Import Path PostCheck Artifacts ArtifactsFacts.

(** X11: the check [smartBuild] makes after a build and the listing of
    artifacts agree: [verifyBuildArtifacts] accepts a deploy directory
    exactly when [scanArtifacts] lists at least one program for it. *)
Theorem verified_build_lists_a_program (outputDir : list N) (t : TargetDirs) :
  verifyBuildArtifacts (deployFiles t) = true ↔ programs (scanArtifacts outputDir t) ≠ [].
Proof.
  destruct (scanArtifacts_lists outputDir t) as (-> & _).
  unfold verifyBuildArtifacts, entries.
  destruct (Output.readdir (deployFiles t)) as [files|]; simpl; [|done].
  rewrite <-filter_nonempty. split.
  - intros Hne Hnil. apply fmap_nil_inv in Hnil. done.
  - intros Hne Hnil. apply Hne. by rewrite Hnil.
Qed.

(** X12: what [scanArtifacts] lists, in the order of the directory
    entries: as programs the files of [target/deploy] whose name ends in
    [.so], as deploy artifacts those that end in [.json] and not in [.so],
    as IDL the [.json] files of [target/idl], as types the [.ts] files of
    [target/types]; a directory that cannot be read gives an empty list.
    Each entry carries the file name, its class and the file of that name
    in its directory. *)
Theorem scanArtifacts_classifies (outputDir : list N) (t : TargetDirs) :
  let targetDir := join [outputDir; js "target"] in
  let listed := scanArtifacts outputDir t in
  programs listed
  = (artifactOf (join [targetDir; js "deploy"]) (js "program")
       <$> List.filter (λ file, endsWith file (js ".so")) (entries (deployFiles t)))
  ∧ deploy listed
    = (artifactOf (join [targetDir; js "deploy"]) (js "deploy")
         <$> List.filter (λ file, negb (endsWith file (js ".so"))
                                  && endsWith file (js ".json")) (entries (deployFiles t)))
  ∧ idl listed
    = (artifactOf (join [targetDir; js "idl"]) (js "idl")
         <$> List.filter (λ file, endsWith file (js ".json")) (entries (idlFiles t)))
  ∧ types listed
    = (artifactOf (join [targetDir; js "types"]) (js "types")
         <$> List.filter (λ file, endsWith file (js ".ts")) (entries (typesFiles t)))
  ∧ scanArtifacts outputDir (mkTargetDirs None None None) = mkArtifactSet [] [] [] [].
Proof.
  intros targetDir listed.
  destruct (scanArtifacts_lists outputDir t) as (Hp & Hd & Hi & Ht).
  by split_and!.
Qed.

(** X13: the download route hands out a file only for a successful
    build, and only a file that [scanArtifacts] lists under the class and
    the name asked for: the file of that name in the directory of the
    class, the name being an entry of that directory.  When the name has
    no [..] segment the file lies inside that directory. *)
Theorem download_serves_listed_files (build : option Build) (disk : list N → TargetDirs)
  (type filename path : list N) :
  (download build disk type filename).2 = Some path →
  ∃ b dir,
    build = Some b ∧ status b = Success
    ∧ (download build disk type filename).1 = 200
    ∧ classDir (outputDir b) type = Some dir
    ∧ path = join [dir; filename]
    ∧ filename ∈ classFiles (disk (outputDir b)) type
    ∧ (DOTDOT ∉ split_on SLASH filename → BuildManager.insideDir dir path).
Proof. apply download_served. Qed.

Lemma download_serves_listed_files_witness :
  let disk := λ _ : list N,
    mkTargetDirs (Some {[ js "prog.so" := js "ELF" ]}) None None in
  let build := Some (mkBuild Success (js "builds/b1")) in
  download build disk (js "program") (js "prog.so")
  = (200, Some (js "builds/b1/target/deploy/prog.so"))
  ∧ download build disk (js "program") (js "../../../../etc/passwd") = (404, None)
  ∧ ∃ dir, classDir (js "builds/b1") (js "program") = Some dir
           ∧ js "prog.so" ∈ classFiles (disk (js "builds/b1")) (js "program").
Proof.
  intros disk build. split; [by vm_compute|]. split; [by vm_compute|].
  destruct (download_serves_listed_files build disk (js "program") (js "prog.so")
              (js "builds/b1/target/deploy/prog.so"))
    as (b & dir & Hb & _ & _ & Hdir & _ & Hfile & _).
  - by vm_compute.
  - injection Hb as <-. by exists dir.
Defined.

(** X14: a keypair file whose secret is sent in a response is also
    listed among the deploy artifacts of the same output directory; once
    the keypair files sent have been deleted it is listed no more, and the
    download route answers 404 for it. *)
Theorem delivered_keypair_is_listed_until_purged
  (parseKeypair : list N → option (list N * list Z))
  (outputDir0 : list N) (t : TargetDirs) (kp : AgentApi.Keypair) :
  kp ∈ AgentApi.extractKeypairs parseKeypair (deployFiles t) →
  (∃ a, a ∈ deploy (scanArtifacts outputDir0 t)
        ∧ art_name a = AgentApi.kp_filename kp ∧ art_type a = js "deploy")
  ∧ (∀ a, a ∈ deploy (scanArtifacts outputDir0 (afterPurge parseKeypair t)) →
          art_name a ≠ AgentApi.kp_filename kp)
  ∧ download (Some (mkBuild Success outputDir0)) (λ _, afterPurge parseKeypair t)
      (js "deploy") (AgentApi.kp_filename kp) = (404, None).
Proof.
  intros Hkp.
  assert (Hfile : ∃ dir content, deployFiles t = Some dir
                    ∧ dir !! AgentApi.kp_filename kp = Some content
                    ∧ endsWith (AgentApi.kp_filename kp) AgentApi.KEYPAIR_SUFFIX = true).
  { unfold AgentApi.extractKeypairs in Hkp. destruct (deployFiles t) as [dir|]; [|by apply not_elem_of_nil in Hkp].
    apply list_elem_of_omap in Hkp as ([file content] & Hin & Hof).
    pose proof (KeypairFacts.keypairOf_filename parseKeypair _ _ Hof) as Hname. simpl in Hname.
    apply elem_of_map_to_list in Hin. exists dir, content. rewrite Hname. split_and!; [done..|].
    unfold AgentApi.keypairOf in Hof. by destruct (endsWith file AgentApi.KEYPAIR_SUFFIX). }
  destruct Hfile as (dir & content & Hdir & Hlook & Hsuffix).
  destruct (keypair_file_is_json _ Hsuffix) as [Hso Hjson].
  assert (Hgone : AgentApi.kp_filename kp ∉ entries (deployFiles (afterPurge parseKeypair t))).
  { unfold afterPurge. cbn [deployFiles]. rewrite Hdir. cbn [AgentApi.deleteKeypairFiles fmap option_fmap option_map].
    rewrite entries_Some. rewrite <-Hdir.
    intros [c Hc]. rewrite Hdir in Hc.
    by rewrite (KeypairFacts.purge_removes _ dir kp) in Hc by (by rewrite <-Hdir). }
  split_and!.
  - destruct (scanArtifacts_lists outputDir0 t) as (_ & -> & _).
    eexists. split.
    + apply artifactOf_elem. exists (AgentApi.kp_filename kp). split; [|reflexivity].
      apply filter_elem. split; [|by rewrite Hso, Hjson].
      rewrite Hdir. apply entries_Some. by eexists.
    + done.
  - intros a Ha Hname.
    destruct (scanArtifacts_lists outputDir0 (afterPurge parseKeypair t)) as (_ & Hd & _).
    rewrite Hd in Ha. apply artifactOf_elem in Ha as (file & Hin & ->).
    apply filter_elem in Hin as [Hin _]. simpl in Hname. subst file. done.
  - destruct (download (Some (mkBuild Success outputDir0)) (λ _, afterPurge parseKeypair t)
                (js "deploy") (AgentApi.kp_filename kp)) as [code served] eqn:Hdl.
    destruct served as [path|].
    + pose proof (download_served (Some (mkBuild Success outputDir0))
                    (λ _, afterPurge parseKeypair t) (js "deploy")
                    (AgentApi.kp_filename kp) path) as Haux.
      assert (Hserved : (download (Some (mkBuild Success outputDir0))
                           (λ _, afterPurge parseKeypair t) (js "deploy")
                           (AgentApi.kp_filename kp)).2 = Some path) by (by rewrite Hdl).
      destruct (Haux Hserved) as (b & d & _ & _ & _ & _ & _ & Hin & _).
      cbv beta in Hin.
      change (classFiles (afterPurge parseKeypair t) (js "deploy"))
        with (entries (deployFiles (afterPurge parseKeypair t))) in Hin.
      done.
    + unfold download in Hdl. cbn [status] in Hdl.
      unfold getBuildArtifacts in Hdl. cbn [status] in Hdl.
      destruct (List.find _ _); [done|]. by injection Hdl as <-.
Qed.

Lemma delivered_keypair_is_listed_until_purged_witness :
  let parse := KeypairSpec.tableParser {[ js "[12,34]" := (js "9xQeWvG816bUx9EP", [12; 34]%Z) ]} in
  let t := mkTargetDirs
             (Some {[ js "prog-keypair.json" := js "[12,34]"; js "prog.so" := js "ELF" ]})
             None None in
  let kp := AgentApi.mkKeypair (js "prog") (js "prog-keypair.json")
              (js "9xQeWvG816bUx9EP") [12; 34]%Z in
  (∃ a, a ∈ deploy (scanArtifacts (js "builds/b1") t)
        ∧ art_name a = js "prog-keypair.json" ∧ art_type a = js "deploy")
  ∧ download (Some (mkBuild Success (js "builds/b1"))) (λ _, afterPurge parse t)
      (js "deploy") (js "prog-keypair.json") = (404, None).
Proof.
  intros parse t kp.
  destruct (delivered_keypair_is_listed_until_purged parse (js "builds/b1") t kp)
    as (Hlisted & _ & Hgone).
  - apply list_elem_of_In. vm_compute. tauto.
  - split; [exact Hlisted|exact Hgone].
Defined.

End ArtifactsExtras.

(** ** The errors reported to the caller *)

Module ErrorReportExamples.
Import Regex Docker ErrorReport.

Example trim_1 : trim (js "   error: x  ") = js "error: x".
Proof. reflexivity. Qed.

Example errors_1 :
  extractCompilationErrors
    (Some (mkLogs (js "   Compiling x" ++ [NEWLINE]
                   ++ js "error[E0432]: unresolved import" ++ [NEWLINE]
                   ++ js "  --> src/lib.rs:1:5" ++ [NEWLINE]
                   ++ js "   |" ++ [NEWLINE]
                   ++ js "1 | use foo;" ++ [NEWLINE]
                   ++ js "error[E0432]: unresolved import" ++ [NEWLINE]
                   ++ js "  --> src/lib.rs:1:5")
                  (js "error: could not compile")))
  = [js "error[E0432]: unresolved import" ++ [NEWLINE] ++ js "--> src/lib.rs:1:5"
       ++ [NEWLINE] ++ js "|";
     js "error[E0432]: unresolved import" ++ [NEWLINE] ++ js "--> src/lib.rs:1:5";
     js "error: could not compile"].
Proof. vm_compute. reflexivity. Qed.

Example errors_not_at_line_start :
  extractCompilationErrors (Some (mkLogs (js "src/lib.rs: error[E0432]: x") [])) = [].
Proof. vm_compute. reflexivity. Qed.

End ErrorReportExamples.

Module ErrorReportFacts.
Import Regex Docker ErrorReport.

Lemma startsWith_spec s p : startsWith s p = true ↔ ∃ post, s = p ++ post.
Proof.
  revert s. induction p as [|c p IH]; intros s.
  - split; [intros _; by exists s|by destruct s].
  - destruct s as [|d s]; simpl.
    + split; [done|]. by intros [post ?].
    + rewrite andb_true_iff, N.eqb_eq, IH. split.
      * intros [-> [post ->]]. by exists post.
      * intros [post [= -> ->]]. split; [done|]. by exists post.
Qed.

Lemma includes_spec s p : includes s p = true ↔ ∃ pre post, s = pre ++ p ++ post.
Proof.
  induction s as [|d s IH].
  - change (includes [] p) with (startsWith [] p || false).
    rewrite orb_false_r, startsWith_spec. split.
    + intros [post ->]. by exists [], post.
    + intros (pre & post & Heq). destruct pre; [by exists post|done].
  - change (includes (d :: s) p) with (startsWith (d :: s) p || includes s p).
    rewrite orb_true_iff, startsWith_spec, IH. split.
    + intros [[post ->]|(pre & post & ->)]; [by exists [], post|by exists (d :: pre), post].
    + intros (pre & post & Heq). destruct pre as [|x pre].
      * left. by exists post.
      * right. injection Heq as -> ->. by exists pre, post.
Qed.

Lemma startsWith_refl s : startsWith s s = true.
Proof. apply startsWith_spec. exists []. by rewrite app_nil_r. Qed.

(** A text without line break that occurs in a log occurs in one of its
    lines. *)
Lemma prefix_of_first_line p post seg s' :
  NEWLINE ∉ p → p ++ post = seg ++ NEWLINE :: s' → ∃ b, seg = p ++ b.
Proof.
  revert seg. induction p as [|c p IH]; intros seg Hp Heq; [by exists seg|].
  apply not_elem_of_cons in Hp as [Hc Hp].
  destruct seg as [|d seg]; simpl in Heq.
  - injection Heq as Heq _. congruence.
  - injection Heq as -> Heq. destruct (IH seg Hp Heq) as [b ->]. by exists b.
Qed.

Lemma occurrence_in_a_line pre p post :
  NEWLINE ∉ p →
  ∃ line a b, line ∈ split_on NEWLINE (pre ++ p ++ post) ∧ line = a ++ p ++ b.
Proof.
  intros Hp. induction pre as [|c pre IH].
  - simpl. destruct (split_on NEWLINE (p ++ post)) as [|seg tl] eqn:Hsplit.
    { by apply split_on_nonempty in Hsplit. }
    destruct (split_on_head NEWLINE _ _ _ Hsplit) as [[_ Heq]|(s' & Heq & _)].
    + exists seg, [], post. split; [by left|done].
    + destruct (prefix_of_first_line p post seg s' Hp Heq) as [b ->].
      exists (p ++ b), [], b. split; [by left|done].
  - destruct IH as (line & a & b & Hin & ->).
    destruct (N.eqb_spec c NEWLINE) as [->|Hne].
    + exists (a ++ p ++ b), a, b. split; [|done].
      change ((NEWLINE :: pre) ++ p ++ post) with (NEWLINE :: (pre ++ p ++ post)).
      rewrite split_on_cons_eq. by right.
    + destruct (split_on_cons_ne NEWLINE c (pre ++ p ++ post) Hne)
        as (seg & segs & Hs & Hs').
      change ((c :: pre) ++ p ++ post) with (c :: (pre ++ p ++ post)).
      rewrite Hs'. rewrite Hs in Hin.
      apply elem_of_cons in Hin as [<-|Hin].
      * exists (c :: a ++ p ++ b), (c :: a), b. split; [by left|done].
      * exists (a ++ p ++ b), a, b. split; [by right|done].
Qed.

(** Trimming keeps what lies between two characters that are no white
    space. *)
Lemma trimStart_keeps a x p b :
  space x = false → ∃ a', trimStart (a ++ x :: p ++ b) = a' ++ x :: p ++ b.
Proof.
  intros Hx. induction a as [|c a IH]; simpl.
  - rewrite Hx. by exists [].
  - destruct (space c); [exact IH|]. by exists (c :: a).
Qed.

Lemma trim_keeps a p b x y mid :
  p = x :: mid ++ [y] → space x = false → space y = false →
  ∃ a' b', trim (a ++ p ++ b) = a' ++ p ++ b'.
Proof.
  intros -> Hx Hy. unfold trim.
  destruct (trimStart_keeps a x (mid ++ [y]) b Hx) as [a' Ha]. simpl app in *.
  rewrite Ha.
  replace (rev (a' ++ x :: (mid ++ [y]) ++ b))
    with (rev b ++ y :: rev mid ++ (x :: rev a')).
  2:{ rewrite rev_app_distr. simpl. rewrite !rev_app_distr. simpl.
      by rewrite <-!app_assoc. }
  destruct (trimStart_keeps (rev b) y (rev mid) (x :: rev a') Hy) as [b' ->].
  exists a', (rev b'). rewrite rev_app_distr. simpl. rewrite !rev_app_distr. simpl.
  rewrite !rev_involutive. by rewrite <-!app_assoc.
Qed.

Lemma uniqueFrom_spec errors : ∀ seen,
  NoDup (uniqueFrom seen errors)
  ∧ ∀ e, e ∈ uniqueFrom seen errors ↔ e ∈ errors ∧ e ∉ seen.
Proof.
  induction errors as [|x errors IH]; intros seen; simpl.
  { split; [constructor|]. intros e. split; [by intros ?%not_elem_of_nil|].
    by intros [?%not_elem_of_nil _]. }
  case_bool_decide as Hseen.
  - destruct (IH seen) as [Hnd Hmem]. split; [done|]. intros e. rewrite Hmem, elem_of_cons.
    split; [tauto|]. intros [[->|?] ?]; tauto.
  - destruct (IH (x :: seen)) as [Hnd Hmem]. split.
    + constructor; [|done]. rewrite Hmem, not_elem_of_cons. tauto.
    + intros e. rewrite !elem_of_cons, Hmem, not_elem_of_cons.
      split; [intros [->|[? [? ?]]]; tauto|].
      intros [[->|?] ?]; [tauto|]. destruct (decide (e = x)); [tauto|]. right. tauto.
Qed.

Lemma uniqueFrom_nonempty errors : errors ≠ [] → uniqueFrom [] errors ≠ [].
Proof.
  destruct errors as [|e errors]; [done|]. intros _. simpl. done.
Qed.

Lemma blockOf_starts line following : startsWith (blockOf line following) line = true.
Proof.
  unfold blockOf. apply startsWith_spec.
  generalize (contextOf 4 following). intros [|next more].
  - exists []. simpl. by rewrite app_nil_r.
  - by eexists.
Qed.

(** Where the entries come from. *)
Lemma collectErrors_origin lines e :
  e ∈ collectErrors lines →
  ∃ raw, raw ∈ lines ∧ startsWith e (trim raw) = true
         ∧ (isErrorLine (trim raw) = true
            ∨ includes (trim raw) METADATA_FAILED = true
            ∨ includes (trim raw) NO_LIBRARY = true).
Proof.
  induction lines as [|raw rest IH]; simpl; [by intros ?%not_elem_of_nil|].
  rewrite !elem_of_app. intros [Hin|[Hin|[Hin|Hin]]].
  - destruct (isErrorLine (trim raw)) eqn:Herr; [|by apply not_elem_of_nil in Hin].
    apply list_elem_of_singleton in Hin as ->. exists raw.
    split_and!; [by left|apply blockOf_starts|by left].
  - destruct (includes (trim raw) METADATA_FAILED) eqn:Hm; [|by apply not_elem_of_nil in Hin].
    apply list_elem_of_singleton in Hin as ->. exists raw.
    split_and!; [by left|apply startsWith_refl|right; by left].
  - destruct (includes (trim raw) NO_LIBRARY) eqn:Hm; [|by apply not_elem_of_nil in Hin].
    apply list_elem_of_singleton in Hin as ->. exists raw.
    split_and!; [by left|apply startsWith_refl|right; by right].
  - destruct (IH Hin) as (raw' & ? & ?). exists raw'. split; [by right|done].
Qed.

Lemma collectErrors_message lines raw :
  raw ∈ lines →
  includes (trim raw) METADATA_FAILED = true ∨ includes (trim raw) NO_LIBRARY = true →
  collectErrors lines ≠ [].
Proof.
  induction lines as [|raw' rest IH]; [by intros ?%not_elem_of_nil|].
  intros Hin Hmsg. simpl. apply elem_of_cons in Hin as [<-|Hin].
  - destruct (isErrorLine (trim raw)); [done|]. simpl.
    destruct Hmsg as [-> | ->]; [done|].
    by destruct (includes (trim raw) METADATA_FAILED).
  - specialize (IH Hin Hmsg).
    destruct (isErrorLine (trim raw')); [done|].
    destruct (includes (trim raw') METADATA_FAILED); [done|].
    by destruct (includes (trim raw') NO_LIBRARY).
Qed.

Lemma message_reaches_a_line combined msg x mid y :
  msg = x :: mid ++ [y] → space x = false → space y = false → NEWLINE ∉ msg →
  includes combined msg = true →
  ∃ raw, raw ∈ split_on NEWLINE combined ∧ includes (trim raw) msg = true.
Proof.
  intros Hmsg Hx Hy Hnl Hinc. apply includes_spec in Hinc as (pre & post & ->).
  destruct (occurrence_in_a_line pre msg post Hnl) as (line & a & b & Hin & ->).
  exists (a ++ msg ++ b). split; [done|].
  destruct (trim_keeps a msg b x y mid Hmsg Hx Hy) as (a' & b' & ->).
  apply includes_spec. by exists a', b'.
Qed.

Lemma last_shift {A} (p : list A) (c c' : A) : List.last (c' :: p) c = List.last p c'.
Proof.
  revert c c'. induction p as [|x p IH]; intros c c'; [done|].
  change (List.last (c' :: x :: p) c) with (List.last (x :: p) c).
  rewrite (IH c x). symmetry. change (List.last (x :: p) c') with
    (match p with [] => x | _ => List.last p c' end).
  destruct p as [|y p]; [done|]. rewrite <-(IH c' x).
  change (List.last (x :: y :: p) c') with (List.last (y :: p) c'). done.
Qed.

(** A regex made of literal characters matches where the text starts
    with them. *)
Lemma rx_literal p : ∀ c prev s k,
  rx (seqOf (Chr <$> (c :: p))) prev s k
  = if startsWith s (c :: p)
    then k (Some (List.last p c)) (drop (length (c :: p)) s)
    else None.
Proof.
  induction p as [|c' p IH]; intros c prev s k.
  - destruct s as [|d s]; [done|].
    change (startsWith (d :: s) [c]) with ((c =? d)%N && startsWith s []).
    cbn [fmap list_fmap seqOf rx]. destruct (N.eqb_spec c d) as [->|Hne]; [|done].
    by destruct s.
  - change (seqOf (Chr <$> (c :: c' :: p)))
      with (Seq (Chr c) (seqOf (Chr <$> (c' :: p)))).
    destruct s as [|d s]; [done|].
    change (startsWith (d :: s) (c :: c' :: p))
      with ((c =? d)%N && startsWith s (c' :: p)).
    cbn [rx]. destruct (c =? d)%N; [|done]. rewrite IH. by rewrite last_shift.
Qed.

Lemma search_literal c p s prev :
  (if search (seqOf (Chr <$> (c :: p))) prev s is Some _ then true else false)
  = includes s (c :: p).
Proof.
  revert prev. induction s as [|d s IH]; intros prev.
  - cbn [search]. unfold matchHere. rewrite rx_literal. done.
  - cbn [search]. unfold matchHere. rewrite rx_literal.
    change (includes (d :: s) (c :: p))
      with (startsWith (d :: s) (c :: p) || includes s (c :: p)).
    destruct (startsWith (d :: s) (c :: p)); [done|]. apply IH.
Qed.

Lemma test_literal c p s : test (seqOf (Chr <$> (c :: p))) s = includes s (c :: p).
Proof. unfold test. apply search_literal. Qed.

End ErrorReportFacts.

Module ErrorReportExtras.
Import Regex Docker ErrorReport ErrorReportFacts.

(** X15: [extractCompilationErrors] returns at most 20 entries and no
    entry twice; without logs it returns none.  Each entry begins with a
    log line, white space trimmed, that starts with [error[E<digits>]] or
    [error:], or that carries one of the two Anchor messages. *)
Theorem reported_errors_are_bounded_and_sourced (logs : option Logs) :
  length (extractCompilationErrors logs) ≤ 20
  ∧ NoDup (extractCompilationErrors logs)
  ∧ extractCompilationErrors None = []
  ∧ ∀ e l, logs = Some l → e ∈ extractCompilationErrors logs →
      ∃ raw, raw ∈ split_on NEWLINE (stdout l ++ [NEWLINE] ++ stderr l)
             ∧ startsWith e (trim raw) = true
             ∧ (isErrorLine (trim raw) = true
                ∨ includes (trim raw) METADATA_FAILED = true
                ∨ includes (trim raw) NO_LIBRARY = true).
Proof.
  destruct logs as [l|]; simpl.
  2:{ split_and!; [lia|constructor|done|done]. }
  set (lines := split_on NEWLINE _).
  destruct (uniqueFrom_spec (collectErrors lines) []) as [Hnd Hmem].
  split_and!.
  - rewrite length_take. lia.
  - eapply sublist_NoDup; [exact Hnd|apply sublist_take].
  - done.
  - intros e l' [= <-] Hin. apply elem_of_take in Hin as (i & Hin & _).
    apply list_elem_of_lookup_2, Hmem in Hin as [Hin _].
    by apply collectErrors_origin.
Qed.

(** X16: when the logs hold [Failed to obtain package metadata] or
    [can't find library], the two patterns on which
    [detectBuildErrorsInLogs] fails a build by a fixed message, the report
    of [extractCompilationErrors] is never empty. *)
Theorem anchor_messages_are_always_reported (l : Logs) :
  test PostCheck.reMetadata (stdout l ++ [NEWLINE] ++ stderr l) = true
  ∨ test PostCheck.reNoLibrary (stdout l ++ [NEWLINE] ++ stderr l) = true →
  PostCheck.detectBuildErrorsInLogs l = true
  ∧ extractCompilationErrors (Some l) ≠ [].
Proof.
  intros Htest. split.
  { unfold PostCheck.detectBuildErrorsInLogs. destruct Htest as [-> | ->];
      repeat case_match; done. }
  assert (Hmsg : includes (stdout l ++ [NEWLINE] ++ stderr l) METADATA_FAILED = true
                 ∨ includes (stdout l ++ [NEWLINE] ++ stderr l) NO_LIBRARY = true).
  { destruct Htest as [Ht|Ht]; [left|right]; rewrite <-Ht; symmetry.
    - apply (test_literal 70 (js "ailed to obtain package metadata")).
    - apply (test_literal 99 (js "an't find library")). }
  clear Htest. unfold extractCompilationErrors.
  set (combined := stdout l ++ [NEWLINE] ++ stderr l) in *.
  assert (Hline : ∃ raw, raw ∈ split_on NEWLINE combined
                    ∧ (includes (trim raw) METADATA_FAILED = true
                       ∨ includes (trim raw) NO_LIBRARY = true)).
  { destruct Hmsg as [Hm|Hm].
    - destruct (message_reaches_a_line combined METADATA_FAILED 70
                  (js "ailed to obtain package metadat") 97) as (raw & ? & ?);
        [reflexivity|reflexivity|reflexivity| |done|by exists raw; split; [|left]].
      intros Hin. apply list_elem_of_In in Hin. vm_compute in Hin.
      repeat (destruct Hin as [Hin|Hin]; [discriminate Hin|]). done.
    - destruct (message_reaches_a_line combined NO_LIBRARY 99
                  (js "an't find librar") 121) as (raw & ? & ?);
        [reflexivity|reflexivity|reflexivity| |done|by exists raw; split; [|right]].
      intros Hin. apply list_elem_of_In in Hin. vm_compute in Hin.
      repeat (destruct Hin as [Hin|Hin]; [discriminate Hin|]). done. }
  destruct Hline as (raw & Hin & Hraw).
  pose proof (collectErrors_message _ raw Hin Hraw) as Hne.
  apply uniqueFrom_nonempty in Hne.
  destruct (uniqueFrom [] _); [done|]. done.
Qed.

Lemma anchor_messages_are_always_reported_witness :
  let l := mkLogs (js "  error: can't find library `prog`, rename file to `src/lib.rs`") [] in
  PostCheck.detectBuildErrorsInLogs l = true ∧ extractCompilationErrors (Some l) ≠ [].
Proof.
  intros l. apply (anchor_messages_are_always_reported l). right. reflexivity.
Defined.

End ErrorReportExtras.

(** ** Reading the frames of the final logs *)

Module DockerLogsExamples.
Import DockerLogs.

(** A decoder for the examples: one code unit per byte. *)
Example parse_two_frames :
  parseLogBuffer (λ bs, Byte.to_N <$> bs)
    (frames [(Byte.x01, [Byte.x68; Byte.x69]); (Byte.x02, [Byte.x21])])
  = Lines [js "hi"] [js "!"].
Proof. vm_compute. reflexivity. Qed.

Example parse_cut_header :
  parseLogBuffer (λ bs, Byte.to_N <$> bs)
    (frames [(Byte.x01, [Byte.x68; Byte.x69])] ++ [Byte.x01; Byte.x00; Byte.x00])
  = OutOfRange.
Proof. vm_compute. reflexivity. Qed.

End DockerLogsExamples.

Module DockerLogsFacts.
Import DockerLogs.

Lemma to_N_byteOf n : Byte.to_N (byteOf n) = (n mod 256)%N.
Proof.
  unfold byteOf. destruct (Byte.of_N (n mod 256)) as [b|] eqn:Hb; simpl.
  - by apply Byte.to_of_N.
  - apply Byte.of_N_None_iff in Hb.
    pose proof (N.mod_upper_bound n 256 ltac:(done)). lia.
Qed.

Lemma readUInt32BE_be32 n :
  (n < 2 ^ 32)%N →
  readUInt32BE (byteOf (n / 2 ^ 24)) (byteOf (n / 2 ^ 16)) (byteOf (n / 2 ^ 8)) (byteOf n) = n.
Proof.
  intros Hn. unfold readUInt32BE. rewrite !to_N_byteOf.
  change (2 ^ 32)%N with 4294967296%N in Hn.
  change (2 ^ 24)%N with 16777216%N. change (2 ^ 16)%N with 65536%N.
  change (2 ^ 8)%N with 256%N.
  zify. Z.to_euclidean_division_equations. lia.
Qed.

Section WithDecoder.
Variable utf8 : list Byte.byte → list N.

(** One whole frame is read in one turn. *)
Lemma parseFrames_frame fuel t payload rest out err :
  (N.of_nat (length payload) < 2 ^ 32)%N →
  parseFrames utf8 (S fuel) (frame (t, payload) ++ rest) out err
  = parseFrames utf8 fuel rest
      (if (Byte.to_N t =? 1)%N then out ++ [utf8 payload] else out)
      (if (Byte.to_N t =? 1)%N then err
       else if (Byte.to_N t =? 2)%N then err ++ [utf8 payload] else err).
Proof.
  intros Hlen. unfold frame, be32. cbn [fst snd app parseFrames drop].
  rewrite readUInt32BE_be32 by done. rewrite Nat2N.id.
  rewrite take_app_length, drop_app_length.
  by destruct (Byte.to_N t =? 1)%N, (Byte.to_N t =? 2)%N.
Qed.

Lemma parseFrames_frames fs : ∀ fuel out err,
  length fs ≤ fuel →
  Forall (λ f, (N.of_nat (length f.2) < 2 ^ 32)%N) fs →
  parseFrames utf8 fuel (frames fs) out err
  = Lines (out ++ messagesOf utf8 1 fs) (err ++ messagesOf utf8 2 fs).
Proof.
  induction fs as [|[t payload] fs IH]; intros fuel out err Hfuel Hall.
  { unfold messagesOf. simpl. rewrite !app_nil_r. by destruct fuel. }
  destruct fuel as [|fuel]; [simpl in Hfuel; lia|].
  apply Forall_cons in Hall as [Hlen Hall]. simpl in Hlen.
  change (frames ((t, payload) :: fs)) with (frame (t, payload) ++ frames fs).
  rewrite parseFrames_frame by done. rewrite IH; [|simpl in Hfuel; lia|done].
  unfold messagesOf. cbn [List.filter fst snd].
  destruct (N.eqb_spec (Byte.to_N t) 1) as [H1|H1].
  - rewrite H1. simpl. by rewrite <-app_assoc.
  - destruct (N.eqb_spec (Byte.to_N t) 2) as [H2|H2]; [|done].
    simpl. by rewrite <-app_assoc.
Qed.

Lemma frames_length fs : 8 * length fs ≤ length (frames fs).
Proof.
  induction fs as [|[t payload] fs IH]; [done|].
  change (frames ((t, payload) :: fs)) with (frame (t, payload) ++ frames fs).
  rewrite length_app. unfold frame, be32. simpl. lia.
Qed.

(** A header that is cut short ends the loop with the error, whatever
    was read before. *)
Lemma parseFrames_cut_header fs : ∀ fuel tail out err,
  length fs < fuel →
  Forall (λ f, (N.of_nat (length f.2) < 2 ^ 32)%N) fs →
  0 < length tail < 8 →
  parseFrames utf8 fuel (frames fs ++ tail) out err = OutOfRange.
Proof.
  induction fs as [|[t payload] fs IH]; intros fuel tail out err Hfuel Hall Htail.
  - destruct fuel as [|fuel]; [lia|]. simpl.
    destruct tail as [|t0 tail]; [simpl in Htail; lia|].
    cbn [parseFrames].
    do 7 (destruct tail as [|? tail]; [reflexivity|]). simpl in Htail. lia.
  - destruct fuel as [|fuel]; [lia|].
    apply Forall_cons in Hall as [Hlen Hall]. simpl in Hlen.
    change (frames ((t, payload) :: fs) ++ tail)
      with ((frame (t, payload) ++ frames fs) ++ tail).
    rewrite <-app_assoc, parseFrames_frame by done.
    apply IH; [simpl in Hfuel; lia|done|done].
Qed.

End WithDecoder.
End DockerLogsFacts.

Module DockerLogsExtras.
Import DockerLogs DockerLogsFacts.

(** X17: the final logs are read back from the frames of the Docker
    stream: for any sequence of frames, each with a message shorter than
    2^32 bytes, the loop returns the messages of stream 1 as [stdout] and
    those of stream 2 as [stderr], each decoded on its own and in order;
    frames of another stream are skipped.  The bound on the turns of the
    model is never reached. *)
Theorem frames_are_read_back (utf8 : list Byte.byte → list N)
  (fs : list (Byte.byte * list Byte.byte)) (extraFuel : nat) :
  Forall (λ f, (N.of_nat (length f.2) < 2 ^ 32)%N) fs →
  parseLogBuffer utf8 (frames fs) = Lines (messagesOf utf8 1 fs) (messagesOf utf8 2 fs)
  ∧ parseFrames utf8 (length (frames fs) + extraFuel) (frames fs) [] []
    = parseLogBuffer utf8 (frames fs)
  ∧ finalLogs utf8 [] (frames fs)
    = (Some (concat (messagesOf utf8 1 fs)), concat (messagesOf utf8 2 fs)).
Proof.
  intros Hall. pose proof (frames_length fs) as Hlen.
  assert (Hparse : parseLogBuffer utf8 (frames fs)
                   = Lines (messagesOf utf8 1 fs) (messagesOf utf8 2 fs)).
  { unfold parseLogBuffer. rewrite parseFrames_frames; [done|lia|done]. }
  split_and!; [done| |].
  - rewrite Hparse. rewrite parseFrames_frames; [done|lia|done].
  - unfold finalLogs. by rewrite Hparse.
Qed.

Lemma frames_are_read_back_witness :
  let utf8 := λ bs : list Byte.byte, Byte.to_N <$> bs in
  let fs := [(Byte.x01, [Byte.x68; Byte.x69]); (Byte.x03, [Byte.x3f]); (Byte.x02, [Byte.x21])] in
  parseLogBuffer utf8 (frames fs) = Lines [js "hi"] [js "!"].
Proof.
  intros utf8 fs.
  destruct (frames_are_read_back utf8 fs 0) as [Hparse _].
  - repeat constructor.
  - exact Hparse.
Defined.

(** X18: when the buffer ends inside a header (1 to 7 bytes after the
    last whole frame) the [RangeError] of [readUInt32BE] ends the loop:
    nothing of what was read is kept for [stdout], and [stderr] only gets
    the parsing error. *)
Theorem cut_header_loses_the_logs (utf8 : list Byte.byte → list N) (message : list N)
  (fs : list (Byte.byte * list Byte.byte)) (tail : list Byte.byte) :
  Forall (λ f, (N.of_nat (length f.2) < 2 ^ 32)%N) fs →
  0 < length tail < 8 →
  parseLogBuffer utf8 (frames fs ++ tail) = OutOfRange
  ∧ finalLogs utf8 message (frames fs ++ tail)
    = (None, js "Log parsing error: " ++ message).
Proof.
  intros Hall Htail. pose proof (frames_length fs) as Hlen.
  assert (Hparse : parseLogBuffer utf8 (frames fs ++ tail) = OutOfRange).
  { unfold parseLogBuffer. apply parseFrames_cut_header; [|done|done].
    rewrite length_app. lia. }
  split; [done|]. unfold finalLogs. by rewrite Hparse.
Qed.

Lemma cut_header_loses_the_logs_witness :
  let utf8 := λ bs : list Byte.byte, Byte.to_N <$> bs in
  parseLogBuffer utf8
    (frames [(Byte.x01, [Byte.x68; Byte.x69])] ++ [Byte.x01; Byte.x00; Byte.x00])
  = OutOfRange.
Proof.
  intros utf8.
  destruct (cut_header_loses_the_logs utf8 [] [(Byte.x01, [Byte.x68; Byte.x69])]
              [Byte.x01; Byte.x00; Byte.x00]) as [Hparse _].
  - repeat constructor.
  - simpl. lia.
  - exact Hparse.
Defined.

End DockerLogsExtras.

(** ** The request to the Advisor *)

Module AdvisorFacts.
Import Regex Validator Advisor.





Section WithWorld.
Variable w : World.
Variable parseFixes : list N → list Fix.













End WithWorld.
End AdvisorFacts.

Module AdvisorExamples.
Import Regex Validator Advisor AdvisorScenario.

Example rate_limited_five_times :
  let run := analyzeAndFixBuildFailure rateLimited (λ _, []) 8 (js "fix it") in
  (Ai.fr_success <$> (match run.1 with Resolved r => Some r | _ => None end)) = Some false
  ∧ apiCalls run.2 = 5
  ∧ List.filter (λ e, match e with EvSleep _ => true | _ => false end) run.2
    = [EvSleep 65000; EvSleep 65000; EvSleep 65000; EvSleep 65000].
Proof. vm_compute. done. Qed.

Example one_round_of_tools :
  let call := mkToolCall (js "t1") (js "lookup_crate") (js "{}") in
  let run := analyzeAndFixBuildFailure (researching call (js "done")) (λ _, []) 8 (js "fix it") in
  run.1 = Resolved (Ai.mkFixResult true None (js "done") [] false)
  ∧ run.2 = [EvCreate [User (js "fix it")]; EvTool call; EvSleep 2000;
             EvCreate [User (js "fix it"); Assistant [ToolUseBlock call];
                       ToolResults [(js "t1", js "{}")]]].
Proof. vm_compute. done. Qed.

End AdvisorExamples.

Module AdvisorExtras.
Import Regex Validator Advisor AdvisorFacts.




End AdvisorExtras.

(** ** The registry of agents *)

Module AgentAuthFacts.
Import Regex AgentAuth.

Lemma find_none_iff {A} (P : A → bool) (l : list A) :
  List.find P l = None ↔ ∀ x, x ∈ l → P x = false.
Proof.
  split.
  - intros Hf x Hin. apply list_elem_of_In in Hin. by eapply find_none in Hf.
  - intros Hall. induction l as [|y l IH]; [done|]. simpl.
    rewrite (Hall y) by (by left). apply IH. intros x Hx. apply Hall. by right.
Qed.







(** A key that no row of the revoked agent holds is looked up as before. *)
Lemma revoke_keeps_other_keys db agentId key :
  (∀ b, b ∈ db → api_key b = key → agent_id b ≠ agentId) →
  verifyAgentKey (revokeAgent db agentId).2 key = verifyAgentKey db key.
Proof.
  unfold verifyAgentKey, revokeAgent. cbn [snd].
  induction db as [|a db IH]; intros Hother; [done|].
  cbn [fmap list_fmap List.find].
  change (list_fmap _ _ ?g db) with (g <$> db).
  rewrite IH by (intros b Hb; apply Hother; by right).
  destruct (decide (agent_id a = agentId)) as [Hid|Hid].
  - rewrite !(bool_decide_eq_true_2 _ Hid). cbn.
    destruct (decide (api_key a = key)) as [Hkey|Hkey].
    + destruct (Hother a ltac:(by left) Hkey Hid).
    + by rewrite !(bool_decide_eq_false_2 _ Hkey).
  - by rewrite !(bool_decide_eq_false_2 _ Hid).
Qed.


End AgentAuthFacts.

Module AgentAuthExtras.
Import Regex AgentAuth AgentAuthFacts.




(** X23: where no two rows share a key, [revokeAgent] takes effect at
    once and on that agent only: the key of the revoked agent is refused
    by [verifyAgentKey] from then on, the key of every other agent is
    looked up as before, and the call reports whether the agent exists. *)
Theorem revoked_key_is_refused (db : list Agent) (agentId : list N)
  (Hkeys : NoDup (api_key <$> db)) :
  let out := revokeAgent db agentId in
  (out.1 = true ↔ ∃ a, a ∈ db ∧ agent_id a = agentId)
  ∧ (∀ a, a ∈ db → agent_id a = agentId → verifyAgentKey out.2 (api_key a) = None)
  ∧ (∀ a, a ∈ db → agent_id a ≠ agentId →
       verifyAgentKey out.2 (api_key a) = verifyAgentKey db (api_key a)).
Proof.
  intros out. subst out.
  assert (Hsame : ∀ a b, a ∈ db → b ∈ db → api_key a = api_key b → a = b).
  { clear agentId. induction db as [|c db IH]; intros a b Ha Hb Hk;
      [by apply not_elem_of_nil in Ha|].
    simpl in Hkeys. apply NoDup_cons in Hkeys as [Hc Hnd].
    apply elem_of_cons in Ha as [->|Ha]; apply elem_of_cons in Hb as [->|Hb]; try done.
    - destruct Hc. rewrite Hk. apply list_elem_of_fmap. by exists b.
    - destruct Hc. rewrite <-Hk. apply list_elem_of_fmap. by exists a.
    - by apply IH. }
  split_and!.
  - cbn [fst revokeAgent]. rewrite existsb_exists. split.
    + intros (a & Ha & Hid). exists a. split; [by apply list_elem_of_In|].
      by apply bool_decide_eq_true in Hid.
    + intros (a & Ha & Hid). exists a. split; [by apply list_elem_of_In|].
      by apply bool_decide_eq_true.
  - intros a Ha Hid. unfold verifyAgentKey. apply find_none_iff. intros b' Hb'.
    cbn [snd revokeAgent] in Hb'. apply list_elem_of_fmap in Hb' as (b & -> & Hb).
    destruct (decide (agent_id b = agentId)) as [Eb|Eb].
    + rewrite (bool_decide_eq_true_2 _ Eb). cbn. apply andb_false_r.
    + rewrite (bool_decide_eq_false_2 _ Eb).
      apply andb_false_iff. left. apply bool_decide_eq_false. intros Hk.
      apply Eb. by rewrite (Hsame b a Hb Ha Hk).
  - intros a Ha Hid. apply revoke_keeps_other_keys. intros b Hb Hk.
    by rewrite (Hsame b a Hb Ha Hk).
Qed.

Lemma revoked_key_is_refused_witness :
  NoDup (api_key <$> AgentAuthScenario.table)
  ∧ verifyAgentKey AgentAuthScenario.table (js "ocsvc_02") = Some AgentAuthScenario.waiting
  ∧ verifyAgentKey (revokeAgent AgentAuthScenario.table (js "id-2")).2 (js "ocsvc_02") = None.
Proof.
  assert (Hkeys : NoDup (api_key <$> AgentAuthScenario.table))
    by (apply (bool_decide_unpack _); by vm_compute).
  split; [exact Hkeys|]. split; [by vm_compute|].
  apply (proj1 (proj2 (revoked_key_is_refused AgentAuthScenario.table (js "id-2") Hkeys))
           AgentAuthScenario.waiting).
  - apply elem_of_cons. right. apply list_elem_of_singleton. reflexivity.
  - reflexivity.
Defined.

End AgentAuthExtras.

(** ** Walks over the project directory *)

Module ProjectTreeExamples.
Import JsString Path ProjectTree ProjectTreeScenario.

Example readAllSourceFiles_project :
  readAllSourceFiles project
  = Some (<[js "app/programs/lib.rs" := js "use anchor_lang;"]>
            (<[js "app/Anchor.toml" := js "[programs.localnet]"]>
               (<[js "Anchor.toml" := js "[workspace]"]> ∅))).
Proof. by vm_compute. Qed.

Example getFileTree_project :
  getFileTree project []
  = Some [DirItem (js "docs") (js "docs") [FileItem (js "guide.md") (js "docs/guide.md")];
          DirItem (js "app") (js "app")
            [DirItem (js "programs") (js "app/programs")
               [FileItem (js "lib.rs") (js "app/programs/lib.rs")];
             FileItem (js "Anchor.toml") (js "app/Anchor.toml")];
          FileItem (js "Anchor.toml") (js "Anchor.toml")].
Proof. by vm_compute. Qed.

(** A directory that cannot be listed is passed over by
    [findAnchorTomlSubdir] and rejects the walks of ai.js. *)
Example unreadable_directory :
  let dir := Dir (Some [(js "vendor", Dir None); (ANCHOR_TOML, File None)]) in
  findAnchorTomlSubdir dir = [] ∧ getFileTree dir [] = None ∧ readAllSourceFiles dir = None.
Proof. by vm_compute. Qed.

End ProjectTreeExamples.

Module ProjectTreeFacts.
Import JsString Path ProjectTree.

Lemma relOf_cons rel name names :
  relOf rel (name :: names) = relOf (join [rel; name]) names.
Proof. done. Qed.

(** What [search] finds is a place that holds the manifest. *)
Lemma searchEntries_sound entries rel : ∀ es found,
  (∀ entry, entry ∈ es → entry ∈ entries) →
  Forall (λ entry, ∀ rel found, search entry.2 rel = Some found →
            ∃ names, Holds entry.2 names ∧ found = relOf rel names) es →
  searchEntries search rel es = Some found →
  ∃ names, Holds (Dir (Some entries)) names ∧ found = relOf rel names.
Proof.
  induction es as [|[name node] es IH]; intros found Hsub Hall Hfound; [done|].
  apply Forall_cons in Hall as [Hnode Hall].
  assert (Hrest : ∀ entry, entry ∈ es → entry ∈ entries)
    by (intros entry Hin; apply Hsub; by right).
  cbn [searchEntries] in Hfound.
  case_bool_decide as Hname.
  { injection Hfound as <-. exists []. split; [|done].
    apply (holds_here entries node). rewrite <-Hname. apply Hsub. by left. }
  destruct (isDirectory node && negb (ignored name)) eqn:Hdown; [|by apply IH].
  apply andb_true_iff in Hdown as [_ Hign]. apply negb_true_iff in Hign.
  destruct (search node (join [rel; name])) as [found'|] eqn:Hchild; [|by apply IH].
  injection Hfound as <-.
  destruct (Hnode _ _ Hchild) as (names & Hholds & ->).
  exists (name :: names). split; [|done].
  apply (holds_below entries name node names); [|done|done]. apply Hsub. by left.
Qed.

Lemma search_sound dir : ∀ rel found,
  search dir rel = Some found → ∃ names, Holds dir names ∧ found = relOf rel names.
Proof.
  induction dir as [content| | |entries IH] using Node_walk; intros rel found Hfound;
    try done.
  cbn [search] in Hfound. by eapply searchEntries_sound.
Qed.

(** A manifest in the directory itself is met on the way, if nothing
    before it answers. *)
Lemma searchEntries_here rel node : ∀ es,
  (ANCHOR_TOML, node) ∈ es → is_Some (searchEntries search rel es).
Proof.
  induction es as [|[name0 node0] es IH]; intros Hin; [by apply not_elem_of_nil in Hin|].
  cbn [searchEntries]. case_bool_decide as Hname; [done|].
  apply elem_of_cons in Hin as [[= <- <-]|Hin]; [done|].
  destruct (isDirectory node0 && negb (ignored name0)); [|by apply IH].
  destruct (search node0 _); [done|by apply IH].
Qed.

Lemma searchEntries_below rel name child :
  ignored name = false → (∀ rel, is_Some (search child rel)) →
  ∀ es, (name, child) ∈ es → is_Some (searchEntries search rel es).
Proof.
  intros Hign Hchild. assert (Hdir : isDirectory child = true).
  { destruct (Hchild []) as [found Hfound]. by destruct child. }
  induction es as [|[name0 node0] es IH]; intros Hin; [by apply not_elem_of_nil in Hin|].
  cbn [searchEntries]. case_bool_decide as Hname; [done|].
  apply elem_of_cons in Hin as [[= <- <-]|Hin].
  - rewrite Hdir, Hign. cbn. by destruct (Hchild (join [rel; name])) as [found ->].
  - destruct (isDirectory node0 && negb (ignored name0)); [|by apply IH].
    destruct (search node0 _); [done|by apply IH].
Qed.

Lemma search_complete dir names :
  Holds dir names → ∀ rel, is_Some (search dir rel).
Proof.
  induction 1 as [entries node Hin|entries name child names Hin Hign _ IH]; intros rel;
    cbn [search].
  - by eapply searchEntries_here.
  - by eapply searchEntries_below.
Qed.

Lemma search_none dir rel :
  search dir rel = None ↔ ∀ names, ¬ Holds dir names.
Proof.
  split.
  - intros Hnone names Hholds.
    destruct (search_complete dir names Hholds rel) as [found Hfound]. congruence.
  - intros Hnot. destruct (search dir rel) as [found|] eqn:Hfound; [|done].
    destruct (search_sound dir rel found Hfound) as (names & Hholds & _).
    by destruct (Hnot names).
Qed.

(** The entries before the first one that answers are passed over. *)
Lemma searchEntries_skip rel rest : ∀ before,
  (∀ entry, entry ∈ before →
     entry.1 ≠ ANCHOR_TOML ∧ ∀ names, ¬ Holds entry.2 names) →
  searchEntries search rel (before ++ rest) = searchEntries search rel rest.
Proof.
  induction before as [|[name0 node0] before IH]; intros Hquiet; [done|].
  cbn [app searchEntries].
  destruct (Hquiet (name0, node0) ltac:(by left)) as [Hname Hnone]. cbn in Hname, Hnone.
  rewrite (bool_decide_eq_false_2 _ Hname).
  rewrite (proj2 (search_none node0 (join [rel; name0])) Hnone).
  rewrite IH by (intros entry Hin; apply Hquiet; by right).
  by destruct (isDirectory node0 && negb (ignored name0)).
Qed.

(** *** [readAllSourceFiles] *)

Lemma readEntries_spec entries rel : ∀ es files files',
  (∀ entry, entry ∈ es → entry ∈ entries) →
  Forall (λ entry, ∀ rel files files',
            readRecursive entry.2 rel files = Some files' →
            ReadSpec entry.2 rel files files') es →
  readEntries readRecursive rel es files = Some files' →
  (∀ p, is_Some (files !! p) → is_Some (files' !! p))
  ∧ (∀ p text, files' !! p = Some text →
       files !! p = Some text
       ∨ ∃ names, SourceAt (Dir (Some entries)) names text ∧ p = relOf rel names)
  ∧ (∀ name text, (name, File (Some text)) ∈ es → ignored name = false →
       isSource name = true → is_Some (files' !! join [rel; name]))
  ∧ (∀ name child names text, (name, child) ∈ es → ignored name = false →
       SourceAt child names text → is_Some (files' !! relOf (join [rel; name]) names)).
Proof.
  induction es as [|[name0 node0] es IH]; intros files files' Hsub Hall Hread.
  { injection Hread as <-. split_and!; [done|by left| |];
      intros; by match goal with H : _ ∈ [] |- _ => apply not_elem_of_nil in H end. }
  apply Forall_cons in Hall as [Hnode Hall]. cbn [snd] in Hnode.
  assert (Hhead : (name0, node0) ∈ entries) by (apply Hsub; by left).
  assert (Hrest : ∀ entry, entry ∈ es → entry ∈ entries)
    by (intros entry Hin; apply Hsub; by right).
  cbn [readEntries] in Hread.
  destruct (ignored name0) eqn:Hign.
  { destruct (IH _ _ Hrest Hall Hread) as (Hmono & Hsound & Hfile & Hdir).
    split_and!; [done|done| |].
    - intros name text Hin Hn. apply elem_of_cons in Hin as [[= -> _]|Hin]; [congruence|].
      by eapply Hfile.
    - intros name child names text Hin Hn.
      apply elem_of_cons in Hin as [[= -> _]|Hin]; [congruence|]. by eapply Hdir. }
  destruct node0 as [content| |listing].
  - (* a file *)
    assert (∃ files1, readEntries readRecursive rel es files1 = Some files'
              ∧ (∀ p, is_Some (files !! p) → is_Some (files1 !! p))
              ∧ (∀ p text, files1 !! p = Some text → files !! p = Some text
                   ∨ (p = join [rel; name0] ∧ content = Some text ∧ isSource name0 = true))
              ∧ (∀ text, content = Some text → isSource name0 = true →
                   is_Some (files1 !! join [rel; name0])))
      as (files1 & Hread1 & Hmono1 & Hsound1 & Hcomplete1).
    { destruct (isSource name0) eqn:Hsrc; [destruct content as [text0|]|].
      - exists (<[join [rel; name0] := text0]> files). split_and!; [done| | |].
        + intros p [t Hp]. destruct (decide (p = join [rel; name0])) as [->|Hne].
          * rewrite lookup_insert_eq. by eexists.
          * rewrite lookup_insert_ne by done. by eexists.
        + intros p t Hp. destruct (decide (p = join [rel; name0])) as [->|Hne].
          * rewrite lookup_insert_eq in Hp. injection Hp as <-. by right.
          * rewrite lookup_insert_ne in Hp by done. by left.
        + intros _ _ _. rewrite lookup_insert_eq. by eexists.
      - exists files. split_and!; [done|done|by left|done].
      - exists files. split_and!; [done|done|by left|done]. }
    destruct (IH _ _ Hrest Hall Hread1) as (Hmono & Hsound & Hfile & Hdir).
    split_and!.
    + intros p Hp. by apply Hmono, Hmono1.
    + intros p text Hp. destruct (Hsound p text Hp) as [Hp1|Hp1]; [|by right].
      destruct (Hsound1 p text Hp1) as [Hp0|(-> & -> & Hsrc)]; [by left|].
      right. exists [name0]. split; [|done]. by apply source_here.
    + intros name text Hin Hn Hsrc. apply elem_of_cons in Hin as [[= -> <-]|Hin].
      * apply Hmono. by eapply Hcomplete1.
      * by eapply Hfile.
    + intros name child names text Hin Hn Hat.
      apply elem_of_cons in Hin as [[= -> ->]|Hin]; [by inversion Hat|]. by eapply Hdir.
  - (* neither a file nor a directory *)
    destruct (IH _ _ Hrest Hall Hread) as (Hmono & Hsound & Hfile & Hdir).
    split_and!; [done|done| |].
    + intros name text Hin Hn Hsrc. apply elem_of_cons in Hin as [[=]|Hin]. by eapply Hfile.
    + intros name child names text Hin Hn Hat.
      apply elem_of_cons in Hin as [[= -> ->]|Hin]; [by inversion Hat|]. by eapply Hdir.
  - (* a directory *)
    destruct (readRecursive (Dir listing) (join [rel; name0]) files) as [files1|] eqn:Hbelow;
      [|done].
    destruct (Hnode _ _ _ Hbelow) as (Hmono1 & Hsound1 & Hcomplete1).
    destruct (IH _ _ Hrest Hall Hread) as (Hmono & Hsound & Hfile & Hdir).
    split_and!.
    + intros p Hp. by apply Hmono, Hmono1.
    + intros p text Hp. destruct (Hsound p text Hp) as [Hp1|Hp1]; [|by right].
      destruct (Hsound1 p text Hp1) as [Hp0|(names & Hat & ->)]; [by left|].
      right. exists (name0 :: names). split; [|done]. by eapply source_below.
    + intros name text Hin Hn Hsrc. apply elem_of_cons in Hin as [[=]|Hin]. by eapply Hfile.
    + intros name child names text Hin Hn Hat.
      apply elem_of_cons in Hin as [[= -> ->]|Hin]; [|by eapply Hdir].
      apply Hmono. by eapply Hcomplete1.
Qed.

Lemma readRecursive_spec dir : ∀ rel files files',
  readRecursive dir rel files = Some files' → ReadSpec dir rel files files'.
Proof.
  induction dir as [content| | |entries IH] using Node_walk; intros rel files files' Hread;
    try done.
  cbn [readRecursive] in Hread.
  destruct (readEntries_spec entries rel entries files files' ltac:(done) IH Hread)
    as (Hmono & Hsound & Hfile & Hdir).
  split_and!; [done|done|].
  intros names text Hat. inversion Hat as [? name ? Hin Hn Hsrc|? name child names' ? Hin Hn Hat'];
    subst.
  - by eapply Hfile.
  - rewrite relOf_cons. by eapply Hdir.
Qed.

Lemma Entered_cons name node es :
  Entered ((name, node) :: es) ↔
  (ignored name = false → isDirectory node = true → Walked node) ∧ Entered es.
Proof.
  unfold Entered. split.
  - intros Hall. split; [apply Hall; by left|]. intros n c Hin. apply Hall. by right.
  - intros [Hhead Hrest] n c Hin. apply elem_of_cons in Hin as [[= -> ->]|Hin]; [done|].
    by apply Hrest.
Qed.

Lemma Walked_dir entries : Walked (Dir (Some entries)) ↔ Entered entries.
Proof. split; [by inversion 1|by constructor]. Qed.

Ltac head_is_passed :=
  split; [intros ?; split; [by intros ? ?|done]|by intros [_ ?]].

Lemma readEntries_resolves rel : ∀ es files,
  Forall (λ entry, ∀ rel files,
            is_Some (readRecursive entry.2 rel files) ↔ Walked entry.2) es →
  is_Some (readEntries readRecursive rel es files) ↔ Entered es.
Proof.
  induction es as [|[name0 node0] es IH]; intros files Hall.
  { split; [|done]. intros _ n c Hin. by apply not_elem_of_nil in Hin. }
  apply Forall_cons in Hall as [Hnode Hall]. cbn [snd] in Hnode.
  rewrite Entered_cons. cbn [readEntries].
  destruct (ignored name0) eqn:Hign; [rewrite IH by done; head_is_passed|].
  destruct node0 as [content| |listing].
  - destruct (isSource name0); [destruct content|]; rewrite IH by done; head_is_passed.
  - rewrite IH by done. head_is_passed.
  - destruct (readRecursive (Dir listing) (join [rel; name0]) files) as [files1|] eqn:Hbelow.
    + rewrite IH by done. assert (Walked (Dir listing)) by (by eapply Hnode). head_is_passed.
    + split; [by intros []|]. intros [Hw _].
      apply (Hnode (join [rel; name0]) files) in Hw; [|done|done].
      rewrite Hbelow in Hw. by destruct Hw.
Qed.

Lemma readRecursive_resolves dir : ∀ rel files,
  is_Some (readRecursive dir rel files) ↔ Walked dir.
Proof.
  induction dir as [content| | |entries IH] using Node_walk; intros rel files;
    try (split; [by intros []|by inversion 1]).
  rewrite Walked_dir. cbn [readRecursive]. by apply readEntries_resolves.
Qed.

(** *** [getFileTree] *)

Lemma treeEntries_acc f rel : ∀ es tree,
  treeEntries f rel es tree = (λ out, tree ++ out) <$> treeEntries f rel es [].
Proof.
  induction es as [|[name node] es IH]; intros tree; cbn [treeEntries].
  { cbn. by rewrite app_nil_r. }
  destruct (ignored name); [apply IH|].
  destruct (isDirectory node); [destruct (f node _) as [children|]; [|done]|];
    rewrite IH, (IH ([] ++ _)), <-option_fmap_compose;
    apply option_fmap_ext; intros out; cbn; by rewrite <-app_assoc.
Qed.

Lemma treeEntries_cons f rel name node rest :
  treeEntries f rel ((name, node) :: rest) [] =
  if ignored name then treeEntries f rel rest []
  else if isDirectory node then
    match f node (join [rel; name]) with
    | Some children =>
        (λ out, DirItem name (join [rel; name]) children :: out) <$> treeEntries f rel rest []
    | None => None
    end
  else (λ out, FileItem name (join [rel; name]) :: out) <$> treeEntries f rel rest [].
Proof.
  cbn [treeEntries]. destruct (ignored name); [done|].
  destruct (isDirectory node); [destruct (f node _); [|done]|]; by rewrite treeEntries_acc.
Qed.

Lemma deep_cons item items : deep (item :: items) = itemsOf item ++ deep items.
Proof. done. Qed.

Lemma treeEntries_spec rel : ∀ es items,
  Forall (λ entry, ∀ rel items,
            getFileTree entry.2 rel = Some items → TreeSpec entry.2 rel items) es →
  treeEntries getFileTree rel es [] = Some items →
  (∀ item, item ∈ deep items → ignored (itemName item) = false)
  ∧ (∀ name text, (name, File (Some text)) ∈ es → ignored name = false →
       isSource name = true → FileItem name (join [rel; name]) ∈ deep items)
  ∧ (∀ name child names text, (name, child) ∈ es → ignored name = false →
       SourceAt child names text →
       ∃ n, FileItem n (relOf (join [rel; name]) names) ∈ deep items ∧ isSource n = true).
Proof.
  induction es as [|[name0 node0] es IH]; intros items Hall Hitems.
  { injection Hitems as <-. change (deep []) with (@nil Item). split_and!; intros;
      by match goal with H : _ ∈ [] |- _ => apply not_elem_of_nil in H end. }
  apply Forall_cons in Hall as [Hnode Hall]. cbn [snd] in Hnode.
  rewrite treeEntries_cons in Hitems.
  destruct (ignored name0) eqn:Hign.
  { destruct (IH _ Hall Hitems) as (Hskip & Hfile & Hdir). split_and!; [done| |].
    - intros name text Hin Hn. apply elem_of_cons in Hin as [[= -> _]|Hin]; [congruence|].
      by eapply Hfile.
    - intros name child names text Hin Hn.
      apply elem_of_cons in Hin as [[= -> _]|Hin]; [congruence|]. by eapply Hdir. }
  destruct (isDirectory node0) eqn:Hisdir.
  - destruct (getFileTree node0 (join [rel; name0])) as [children|] eqn:Hbelow; [|done].
    destruct (treeEntries getFileTree rel es []) as [out|] eqn:Hout; [|done].
    injection Hitems as <-.
    destruct (Hnode _ _ Hbelow) as (Hskip1 & Hcomplete1).
    destruct (IH _ Hall eq_refl) as (Hskip & Hfile & Hdir).
    split_and!.
    + intros item Hin. rewrite deep_cons in Hin. cbn [itemsOf] in Hin.
      apply elem_of_app in Hin as [Hin|Hin]; [|by apply Hskip].
      apply elem_of_cons in Hin as [->|Hin]; [done|by apply Hskip1].
    + intros name text Hin Hn Hsrc.
      apply elem_of_cons in Hin as [[= -> <-]|Hin]; [done|].
      rewrite deep_cons. apply elem_of_app. right. by eapply Hfile.
    + intros name child names text Hin Hn Hat. rewrite deep_cons.
      apply elem_of_cons in Hin as [[= -> ->]|Hin].
      * destruct (Hcomplete1 names text Hat) as (n & Hin & Hsrc). exists n. split; [|done].
        apply elem_of_app. left. cbn [itemsOf]. by right.
      * destruct (Hdir name child names text Hin Hn Hat) as (n & Hin' & Hsrc).
        exists n. split; [|done]. apply elem_of_app. by right.
  - destruct (treeEntries getFileTree rel es []) as [out|] eqn:Hout; [|done].
    injection Hitems as <-.
    destruct (IH _ Hall eq_refl) as (Hskip & Hfile & Hdir).
    split_and!.
    + intros item Hin. rewrite deep_cons in Hin. cbn [itemsOf] in Hin.
      apply elem_of_app in Hin as [Hin|Hin]; [|by apply Hskip].
      by apply list_elem_of_singleton in Hin as ->.
    + intros name text Hin Hn Hsrc. rewrite deep_cons.
      apply elem_of_cons in Hin as [[= -> _]|Hin].
      * apply elem_of_app. left. cbn [itemsOf]. by left.
      * apply elem_of_app. right. by eapply Hfile.
    + intros name child names text Hin Hn Hat. rewrite deep_cons.
      apply elem_of_cons in Hin as [[= -> ->]|Hin].
      * inversion Hat; by subst.
      * destruct (Hdir name child names text Hin Hn Hat) as (n & Hin' & Hsrc).
        exists n. split; [|done]. apply elem_of_app. by right.
Qed.

Lemma getFileTree_spec dir : ∀ rel items,
  getFileTree dir rel = Some items → TreeSpec dir rel items.
Proof.
  induction dir as [content| | |entries IH] using Node_walk; intros rel items Hitems;
    try done.
  cbn [getFileTree] in Hitems.
  destruct (treeEntries_spec rel entries items IH Hitems) as (Hskip & Hfile & Hdir).
  split; [done|].
  intros names text Hat. inversion Hat as [? name ? Hin Hn Hsrc|? name child names' ? Hin Hn Hat'];
    subst.
  - exists name. split; [|done]. by eapply Hfile.
  - rewrite relOf_cons. by eapply Hdir.
Qed.

Lemma treeEntries_resolves rel : ∀ es,
  Forall (λ entry, ∀ rel, is_Some (getFileTree entry.2 rel) ↔ Walked entry.2) es →
  is_Some (treeEntries getFileTree rel es []) ↔ Entered es.
Proof.
  induction es as [|[name0 node0] es IH]; intros Hall.
  { split; [|done]. intros _ n c Hin. by apply not_elem_of_nil in Hin. }
  apply Forall_cons in Hall as [Hnode Hall]. cbn [snd] in Hnode.
  rewrite Entered_cons, treeEntries_cons.
  destruct (ignored name0) eqn:Hign; [rewrite IH by done; head_is_passed|].
  destruct (isDirectory node0) eqn:Hisdir.
  - destruct (getFileTree node0 (join [rel; name0])) as [children|] eqn:Hbelow.
    + rewrite fmap_is_Some, IH by done.
      assert (Walked node0) by (by eapply Hnode). head_is_passed.
    + split; [by intros []|]. intros [Hw _].
      apply (Hnode (join [rel; name0])) in Hw; [|done|done].
      rewrite Hbelow in Hw. by destruct Hw.
  - rewrite fmap_is_Some, IH by done. head_is_passed.
Qed.

Lemma getFileTree_resolves dir : ∀ rel, is_Some (getFileTree dir rel) ↔ Walked dir.
Proof.
  induction dir as [content| | |entries IH] using Node_walk; intros rel;
    try (split; [by intros []|by inversion 1]).
  rewrite Walked_dir. cbn [getFileTree]. by apply treeEntries_resolves.
Qed.

End ProjectTreeFacts.

Module ProjectTreeExtras.
Import JsString Path ProjectTree ProjectTreeFacts.

(** X24: when a directory with an entry called [Anchor.toml] can be
    reached from the project directory through directories that can be
    listed and are not called [node_modules], [target] or [.git],
    [findAnchorTomlSubdir] returns the relative path of such a directory,
    joined from the names on the way (the empty string for the project
    directory itself); when none can be reached it returns the empty
    string. *)
Theorem findAnchorTomlSubdir_finds_a_manifest (projectDir : Node) :
  ((∃ names, Holds projectDir names)
   → ∃ names, Holds projectDir names ∧ findAnchorTomlSubdir projectDir = relOf [] names)
  ∧ ((∀ names, ¬ Holds projectDir names) → findAnchorTomlSubdir projectDir = []).
Proof.
  unfold findAnchorTomlSubdir. split.
  - intros [names Hholds].
    destruct (search_complete projectDir names Hholds []) as [found Hfound].
    rewrite Hfound. by apply search_sound.
  - intros Hnone. by rewrite (proj2 (search_none projectDir []) Hnone).
Qed.

(** X25: the walk of [findAnchorTomlSubdir] is depth first, in the order
    of the listing: when the entries listed before a directory are not
    called [Anchor.toml] and lead to no manifest, and that directory
    leads to one, the answer is taken below that directory, also when
    the project directory has its own [Anchor.toml] later in the
    listing. *)
Theorem findAnchorTomlSubdir_takes_the_first_in_listing_order
  (before rest : list (list N * Node)) (name : list N) (child : Node)
  (Hbefore : ∀ entry, entry ∈ before →
               entry.1 ≠ ANCHOR_TOML ∧ ∀ names, ¬ Holds entry.2 names)
  (Hname : name ≠ ANCHOR_TOML) (Hignored : ignored name = false)
  (Hchild : ∃ names, Holds child names) :
  ∃ names, Holds child names
           ∧ findAnchorTomlSubdir (Dir (Some (before ++ (name, child) :: rest)))
             = relOf [] (name :: names).
Proof.
  unfold findAnchorTomlSubdir. cbn [search].
  rewrite searchEntries_skip by done. cbn [searchEntries].
  rewrite (bool_decide_eq_false_2 _ Hname), Hignored.
  destruct Hchild as [names Hholds].
  destruct (search_complete child names Hholds (join [[]; name])) as [found Hfound].
  assert (Hdir : isDirectory child = true) by (by destruct child).
  rewrite Hdir, Hfound. cbn [andb negb].
  destruct (search_sound child _ found Hfound) as (names' & Hholds' & ->).
  by exists names'.
Qed.

Lemma findAnchorTomlSubdir_takes_the_first_in_listing_order_witness :
  findAnchorTomlSubdir ProjectTreeScenario.project = js "app"
  ∧ ∃ names, Holds ProjectTreeScenario.app names
             ∧ findAnchorTomlSubdir ProjectTreeScenario.project
               = relOf [] (js "app" :: names).
Proof.
  split; [by vm_compute|].
  apply (findAnchorTomlSubdir_takes_the_first_in_listing_order
           [(js "docs", ProjectTreeScenario.docs)] ProjectTreeScenario.listedAfter
           (js "app") ProjectTreeScenario.app).
  - intros entry Hin. apply list_elem_of_singleton in Hin as ->.
    split; [by vm_compute|]. apply (search_none ProjectTreeScenario.docs []). reflexivity.
  - by vm_compute.
  - reflexivity.
  - exists []. apply (holds_here _ (File (Some (js "[programs.localnet]")))).
    apply elem_of_cons. right. apply list_elem_of_singleton. reflexivity.
Defined.

(** X26: [readAllSourceFiles] resolves exactly when every directory it
    enters can be listed.  The object it resolves to has, under its
    relative path, every readable file with the extension [.rs], [.toml]
    or [.json] that lies below the project directory outside
    [node_modules], [target] and [.git], and nothing else: each text in
    it is the text of such a file, kept under that file's path. *)
Theorem readAllSourceFiles_reads_the_sources (projectDir : Node) :
  (is_Some (readAllSourceFiles projectDir) ↔ Walked projectDir)
  ∧ ∀ files, readAllSourceFiles projectDir = Some files →
      (∀ p text, files !! p = Some text →
         ∃ names, SourceAt projectDir names text ∧ p = relOf [] names)
      ∧ (∀ names text, SourceAt projectDir names text → is_Some (files !! relOf [] names)).
Proof.
  unfold readAllSourceFiles. split; [apply readRecursive_resolves|].
  intros files Hread.
  destruct (readRecursive_spec projectDir [] ∅ files Hread) as (_ & Hsound & Hcomplete).
  split; [|done]. intros p text Hp.
  destruct (Hsound p text Hp) as [Hempty|Hat]; [|done].
  by rewrite lookup_empty in Hempty.
Qed.

(** X27: [getFileTree] resolves on the same directories as
    [readAllSourceFiles].  Its listing names no [node_modules], [target]
    or [.git], file or directory, at any depth, and every path under
    which [readAllSourceFiles] holds a text is the path of a file of the
    listing, with a source extension. *)
Theorem getFileTree_lists_what_is_read (projectDir : Node) :
  (is_Some (getFileTree projectDir []) ↔ is_Some (readAllSourceFiles projectDir))
  ∧ ∀ items, getFileTree projectDir [] = Some items →
      (∀ item, item ∈ deep items → itemName item ∉ IGNORED)
      ∧ (∀ files p text, readAllSourceFiles projectDir = Some files →
           files !! p = Some text →
           ∃ name, FileItem name p ∈ deep items ∧ isSource name = true).
Proof.
  unfold readAllSourceFiles. split.
  { by rewrite getFileTree_resolves, readRecursive_resolves. }
  intros items Hitems.
  destruct (getFileTree_spec projectDir [] items Hitems) as (Hskip & Hcomplete).
  split.
  - intros item Hin. specialize (Hskip item Hin). unfold ignored in Hskip.
    by apply bool_decide_eq_false in Hskip.
  - intros files p text Hread Hp.
    destruct (readRecursive_spec projectDir [] ∅ files Hread) as (_ & Hsound & _).
    destruct (Hsound p text Hp) as [Hempty|(names & Hat & ->)];
      [by rewrite lookup_empty in Hempty|].
    by eapply Hcomplete.
Qed.

End ProjectTreeExtras.
